(** * The restricted expression evaluator of @tokey/expression-evaluator

    A shallow embedding of [expression-evaluator.ts]: the lexer [tokenize],
    the recursive-descent [Parser], the tree-walking [evaluateNode] and the
    public functions built from them, together with the part of the
    ECMAScript runtime the evaluator relies on (truthiness, [===], [==],
    the relational operators, [Object.hasOwn], [Array.prototype.includes],
    [Number] applied to a string).

    Conventions of the model.
    - A JavaScript string is a Rocq [string]; a character stands for the
      UTF-16 code unit of the same number, so the model covers the strings
      whose code units are below 256.
    - A JavaScript number is a binary64 value, written as a [spec_float]
      with precision 53 and maximal exponent 1024, in canonical form.
    - Values are the data a context holds: undefined, null, booleans,
      numbers, strings, arrays and objects with data properties. *)

From Stdlib Require Import ZArith List String Ascii Bool Lia Arith.
From Stdlib Require Import SpecFloat DecimalString.
Import ListNotations.

Set Warnings "-register-all".

Local Open Scope string_scope.

(** ** Results and errors *)

(** The two error classes the module exports, and the runtime's own
    [TypeError], which the source never throws itself but which the
    runtime raises on [undefined.type] and on a failed conversion of an
    object to a primitive. *)
Inductive error : Type :=
| ExpressionSyntaxError (message : string)
| ExpressionSecurityError (message : string)
| TypeError.

Inductive Result (A : Type) : Type :=
| Ok (a : A)
| Err (e : error).

Arguments Ok {A} a.
Arguments Err {A} e.

Definition bind {A B : Type} (r : Result A) (k : A -> Result B) : Result B :=
  match r with
  | Ok a => k a
  | Err e => Err e
  end.

Notation "x <- c1 ;; c2" := (bind c1 (fun x => c2))
  (at level 61, c1 at next level, right associativity).
Notation "' pat <- c1 ;; c2" := (bind c1 (fun x => match x with pat => c2 end))
  (at level 61, pat pattern, c1 at next level, right associativity).

Definition isSecurity {A : Type} (r : Result A) : bool :=
  match r with
  | Err (ExpressionSecurityError _) => true
  | _ => false
  end.

Definition isSyntax {A : Type} (r : Result A) : bool :=
  match r with
  | Err (ExpressionSyntaxError _) => true
  | _ => false
  end.

(** ** Characters and decimal numerals *)

Definition code (c : ascii) : nat := nat_of_ascii c.

Definition between (lo hi : nat) (c : ascii) : bool :=
  (lo <=? code c)%nat && (code c <=? hi)%nat.

(** [/\d/] *)
Definition isDigit (c : ascii) : bool := between 48 57 c.

(** [/[\d.]/] *)
Definition isDigitOrDot (c : ascii) : bool := isDigit c || Ascii.eqb c ".".

(** [/[a-zA-Z_$]/] *)
Definition isIdentStart (c : ascii) : bool :=
  between 97 122 c || between 65 90 c || Ascii.eqb c "_" || Ascii.eqb c "$".

(** [/[a-zA-Z0-9_$]/] *)
Definition isIdentPart (c : ascii) : bool := isIdentStart c || isDigit c.

(** [/\s/], and the white space [StringToNumber] strips: among the code
    units below 256 these are TAB, LF, VT, FF, CR, SP and NBSP. *)
Definition isWhiteSpace (c : ascii) : bool :=
  between 9 13 c || (code c =? 32)%nat || (code c =? 160)%nat.

(** The longest prefix of characters satisfying [p], and the rest: the
    loop [while (i < len && p(expression[i])) { acc += expression[i]; i++ }]. *)
Fixpoint span (p : ascii -> bool) (l : list ascii) : list ascii * list ascii :=
  match l with
  | c :: r => if p c then let (a, b) := span p r in (c :: a, b) else ([], l)
  | [] => ([], [])
  end.

(** The double quote character, code 34. *)
Definition doubleQuote : ascii := ascii_of_nat 34.

Definition string_of_nat (n : nat) : string :=
  NilZero.string_of_uint (Nat.to_uint n).

Definition string_of_Z (z : Z) : string :=
  NilZero.string_of_int (Z.to_int z).

Fixpoint repeat_string (n : nat) (s : string) : string :=
  match n with
  | O => ""
  | S n' => s ++ repeat_string n' s
  end.

(** ** Numbers *)

Module Num.

Definition number : Type := spec_float.

Definition prec : Z := 53.
Definition emax : Z := 1024.

Definition NaN : number := S754_nan.
Definition zero : number := S754_zero false.
Definition infinity : number := S754_infinity false.

(** The binary64 value nearest to an integer, ties to even. *)
Definition of_Z (z : Z) : number := binary_normalize prec emax z 0 false.

Definition of_nat (n : nat) : number := of_Z (Z.of_nat n).

(** The binary64 value nearest to the rational [n / d], ties to even. *)
Definition of_ratio (n d : Z) : number :=
  match n, d with
  | Zpos p, Zpos q =>
      SFdiv prec emax (S754_finite false p 0) (S754_finite false q 0)
  | _, _ => zero
  end.

(** The binary64 value nearest to [m * 10 ^ e]. *)
Definition of_decimal (m e : Z) : number :=
  if (0 <=? e)%Z then of_ratio (m * 10 ^ e) 1 else of_ratio m (10 ^ (- e)).

Definition isNaN (x : number) : bool :=
  match x with
  | S754_nan => true
  | _ => false
  end.

Definition isZero (x : number) : bool :=
  match x with
  | S754_zero _ => true
  | _ => false
  end.

(** [Number::equal], [Number::lessThan] (false on NaN). *)
Definition eqb (x y : number) : bool := SFeqb x y.
Definition ltb (x y : number) : bool := SFltb x y.
Definition leb (x y : number) : bool := SFleb x y.

(** [Number::sameValueZero]. *)
Definition sameValueZero (x y : number) : bool :=
  (isNaN x && isNaN y) || eqb x y.

(** *** [StringToNumber]

    The conversion the runtime applies in [Number(text)] and when [==] or a
    relational operator meets a string: white space is stripped from both
    ends, the empty string is [+0], and the rest must be a
    [StrNumericLiteral] as a whole (optional sign, [Infinity] or decimal
    digits with an optional fraction and exponent; or an unsigned binary,
    octal or hexadecimal integer); anything else is [NaN]. *)

Fixpoint trimStart (l : list ascii) : list ascii :=
  match l with
  | c :: r => if isWhiteSpace c then trimStart r else l
  | [] => []
  end.

Fixpoint trimEnd (l : list ascii) : list ascii :=
  match l with
  | c :: r =>
      match trimEnd r with
      | [] => if isWhiteSpace c then [] else [c]
      | r' => c :: r'
      end
  | [] => []
  end.

Definition digitValue (c : ascii) : Z :=
  if isDigit c then Z.of_nat (code c - 48)
  else if between 97 102 c then Z.of_nat (code c - 87)
  else if between 65 70 c then Z.of_nat (code c - 55)
  else 0%Z.

Definition isDigitOf (base : Z) (c : ascii) : bool :=
  (isDigit c || between 97 102 c || between 65 70 c) && (digitValue c <? base)%Z.

Definition digitsValue (base : Z) (l : list ascii) : Z :=
  fold_left (fun acc c => acc * base + digitValue c)%Z l 0%Z.

Definition isExponentIndicator (c : ascii) : bool :=
  Ascii.eqb c "e" || Ascii.eqb c "E".

(** [SignedInteger], which must reach the end of the text. *)
Definition parseSignedInteger (l : list ascii) : option Z :=
  let '(neg, l') :=
    match l with
    | "+"%char :: r => (false, r)
    | "-"%char :: r => (true, r)
    | _ => (false, l)
    end in
  match span isDigit l' with
  | ((_ :: _) as ds, []) =>
      Some (if neg then - digitsValue 10 ds else digitsValue 10 ds)%Z
  | _ => None
  end.

(** [StrUnsignedDecimalLiteral] other than [Infinity]. *)
Definition parseUnsignedDecimal (l : list ascii) : option number :=
  let (ip, r1) := span isDigit l in
  let (fp, r2) :=
    match r1 with
    | "."%char :: r => span isDigit r
    | _ => ([], r1)
    end in
  match (ip ++ fp)%list with
  | [] => None
  | ds =>
      let m := digitsValue 10 ds in
      let scale := (- Z.of_nat (List.length fp))%Z in
      match r2 with
      | [] => Some (of_decimal m scale)
      | c :: r3 =>
          if isExponentIndicator c then
            match parseSignedInteger r3 with
            | Some e => Some (of_decimal m (e + scale))
            | None => None
            end
          else None
      end
  end.

Definition Infinity_text : list ascii := list_ascii_of_string "Infinity".

Definition parseStrUnsigned (l : list ascii) : option number :=
  if list_eq_dec ascii_dec l Infinity_text then Some infinity
  else parseUnsignedDecimal l.

(** [NonDecimalIntegerLiteral]: [0b], [0o] or [0x] and at least one digit. *)
Definition parseNonDecimal (l : list ascii) : option number :=
  match l with
  | "0"%char :: x :: ((_ :: _) as ds) =>
      let base : Z :=
        if Ascii.eqb x "x" || Ascii.eqb x "X" then 16%Z
        else if Ascii.eqb x "o" || Ascii.eqb x "O" then 8%Z
        else if Ascii.eqb x "b" || Ascii.eqb x "B" then 2%Z
        else 0%Z in
      if (base =? 0)%Z then None
      else if forallb (isDigitOf base) ds then Some (of_Z (digitsValue base ds))
      else None
  | _ => None
  end.

Definition parseStrNumericLiteral (l : list ascii) : option number :=
  match parseNonDecimal l with
  | Some x => Some x
  | None =>
      match l with
      | "+"%char :: r => parseStrUnsigned r
      | "-"%char :: r => option_map (SFopp) (parseStrUnsigned r)
      | _ => parseStrUnsigned l
      end
  end.

Definition StringToNumber (s : string) : number :=
  match trimEnd (trimStart (list_ascii_of_string s)) with
  | [] => zero
  | l =>
      match parseStrNumericLiteral l with
      | Some x => x
      | None => NaN
      end
  end.

(** *** [Number::toString]

    The shortest decimal numeral that converts back to the number, laid
    out as the runtime does: for a finite [x > 0] the least [k >= 1] with
    integers [s], [n] such that [10^(k-1) <= s < 10^k] and [s * 10^(n-k)]
    converts to [x] (the [s] nearest to [x], the even one on a tie). *)

Definition decimalDigits (z : Z) : string := string_of_Z z.

(** For [num/den < 1], the least [j >= 1] with [num/den * 10^j >= 1]. *)
Fixpoint scaleBelowOne (fuel : nat) (j : Z) (num den : Z) : Z :=
  match fuel with
  | O => j
  | S fuel' =>
      if (den <=? num * 10 ^ j)%Z then j else scaleBelowOne fuel' (j + 1) num den
  end.

(** The integer [n] with [10^(n-1) <= num/den < 10^n]. *)
Definition magnitude (num den : Z) : Z :=
  if (den <=? num)%Z then Z.of_nat (String.length (decimalDigits (num / den)))
  else (1 - scaleBelowOne 400 1 num den)%Z.

(** The candidate with [k] digits, if one converts back to [x]:
    the digits [s] and the position [n] of the decimal point. *)
Definition shortestWith (x : number) (num den n0 : Z) (k : Z) : option (Z * Z) :=
  let sc := (k - n0)%Z in
  let N := (if (0 <=? sc)%Z then num * 10 ^ sc else num)%Z in
  let D := (if (0 <=? sc)%Z then den else den * 10 ^ (- sc))%Z in
  let lo := (N / D)%Z in
  let hi := (lo + 1)%Z in
  let back (s : Z) := SFeqb (of_decimal s (- sc)) x in
  let pick (s : Z) := if (s =? 10 ^ k)%Z then (10 ^ (k - 1), n0 + 1)%Z else (s, n0) in
  match back lo, back hi with
  | true, true =>
      match (N - lo * D ?= hi * D - N)%Z with
      | Lt => Some (pick lo)
      | Gt => Some (pick hi)
      | Eq => Some (pick (if Z.even lo then lo else hi))
      end
  | true, false => Some (pick lo)
  | false, true => Some (pick hi)
  | false, false => None
  end.

Fixpoint shortest (fuel : nat) (x : number) (num den n0 : Z) (k : Z) : Z * Z * Z :=
  match fuel with
  | O => (num / den, k, n0)%Z
  | S fuel' =>
      match shortestWith x num den n0 k with
      | Some (s, n) => (s, k, n)
      | None => shortest fuel' x num den n0 (k + 1)
      end
  end.

Definition layout (s k n : Z) : string :=
  let ds := decimalDigits s in
  if ((k <=? n) && (n <=? 21))%Z then
    ds ++ repeat_string (Z.to_nat (n - k)) "0"
  else if ((0 <? n) && (n <=? 21))%Z then
    substring 0 (Z.to_nat n) ds ++ "." ++ substring (Z.to_nat n) (Z.to_nat (k - n)) ds
  else if ((-6 <? n) && (n <=? 0))%Z then
    "0." ++ repeat_string (Z.to_nat (- n)) "0" ++ ds
  else
    let e := (n - 1)%Z in
    let es := (if (e <? 0)%Z then "-" else "+") ++ decimalDigits (Z.abs e) in
    if (k =? 1)%Z then ds ++ "e" ++ es
    else substring 0 1 ds ++ "." ++ substring 1 (Z.to_nat (k - 1)) ds ++ "e" ++ es.

Definition positiveToString (m : positive) (e : Z) : string :=
  let num := (if (0 <=? e)%Z then Zpos m * 2 ^ e else Zpos m)%Z in
  let den := (if (0 <=? e)%Z then 1 else 2 ^ (- e))%Z in
  let '(s, k, n) :=
    shortest 17 (S754_finite false m e) num den (magnitude num den) 1 in
  layout s k n.

Definition NumberToString (x : number) : string :=
  match x with
  | S754_nan => "NaN"
  | S754_zero _ => "0"
  | S754_infinity false => "Infinity"
  | S754_infinity true => "-Infinity"
  | S754_finite false m e => positiveToString m e
  | S754_finite true m e => "-" ++ positiveToString m e
  end.

End Num.

Export Num(number).

(** ** Values *)

(** The identity of an object.  A context gives each of its objects and
    arrays an identity [Ref n]; an array built by an array literal during an
    evaluation is [Fresh]: a new object, identical to no value met before.
    The language has no binding construct, so a fresh array never meets
    itself in a comparison. *)
Inductive ref : Type :=
| Fresh
| Ref (n : nat).

Definition sameRef (a b : ref) : bool :=
  match a, b with
  | Ref n, Ref m => (n =? m)%nat
  | _, _ => false
  end.

(** A data property: its value and its [enumerable] attribute. *)
Record property (V : Type) : Type := mkProperty {
  enumerable : bool;
  pvalue : V
}.

Arguments mkProperty {V} enumerable pvalue.
Arguments enumerable {V} p.
Arguments pvalue {V} p.

Definition properties (V : Type) : Type := list (string * property V).

(** An ordinary object: its own properties and the property tables of the
    objects on its prototype chain, nearest first.  The chain ends in the
    built-in [Object.prototype], whose properties are functions and so lie
    outside the values modelled here. *)
Record object (V : Type) : Type := mkObject {
  own : properties V;
  protos : list (properties V)
}.

Arguments mkObject {V} own protos.
Arguments own {V} o.
Arguments protos {V} o.

Inductive heapObject (V : Type) : Type :=
| ArrayObject (elements : list V)
| PlainObject (o : object V).

Arguments ArrayObject {V} elements.
Arguments PlainObject {V} o.

Inductive value : Type :=
| VUndefined
| VNull
| VBool (b : bool)
| VNum (x : number)
| VStr (s : string)
| VObj (r : ref) (o : heapObject value).

(** The context of an evaluation, [T extends Record<string, unknown>]. *)
Definition Context : Type := object value.

(** An object literal: enumerable own properties, no user prototype. *)
Definition literalObject (kvs : list (string * value)) : object value :=
  mkObject (map (fun kv => (fst kv, mkProperty true (snd kv))) kvs) [].

Definition VArray (r : ref) (elements : list value) : value :=
  VObj r (ArrayObject elements).

Definition VObject (r : ref) (kvs : list (string * value)) : value :=
  VObj r (PlainObject (literalObject kvs)).

(** ** The runtime operations the evaluator uses *)

Module JS.

Definition typeof (v : value) : string :=
  match v with
  | VUndefined => "undefined"
  | VNull => "object"
  | VBool _ => "boolean"
  | VNum _ => "number"
  | VStr _ => "string"
  | VObj _ _ => "object"
  end.

Definition isArray (v : value) : bool :=
  match v with
  | VObj _ (ArrayObject _) => true
  | _ => false
  end.

Fixpoint lookup {V : Type} (ps : properties V) (k : string) : option (property V) :=
  match ps with
  | [] => None
  | (k', p) :: rest => if String.eqb k' k then Some p else lookup rest k
  end.

Fixpoint lookupChain {V : Type} (chain : list (properties V)) (k : string)
  : option (property V) :=
  match chain with
  | [] => None
  | ps :: rest =>
      match lookup ps k with
      | Some p => Some p
      | None => lookupChain rest k
      end
  end.

(** The array index a property key denotes, if it is one below [len]. *)
Definition arrayIndex (len : nat) (k : string) : option nat :=
  find (fun i => String.eqb (string_of_nat i) k) (seq 0 len).

(** [Object.hasOwn(o, k)]: own properties only, whatever their
    [enumerable] attribute.  An array owns its indices and [length]. *)
Definition hasOwn (o : heapObject value) (k : string) : bool :=
  match o with
  | PlainObject o =>
      match lookup (own o) k with
      | Some _ => true
      | None => false
      end
  | ArrayObject elements =>
      String.eqb k "length" ||
      match arrayIndex (List.length elements) k with
      | Some _ => true
      | None => false
      end
  end.

(** [o[k]]: the own property, else the nearest one on the prototype
    chain, else [undefined]. *)
Definition Get (o : heapObject value) (k : string) : value :=
  match o with
  | PlainObject o =>
      match lookupChain (own o :: protos o) k with
      | Some p => pvalue p
      | None => VUndefined
      end
  | ArrayObject elements =>
      if String.eqb k "length" then VNum (Num.of_nat (List.length elements))
      else
        match arrayIndex (List.length elements) k with
        | Some i => nth i elements VUndefined
        | None => VUndefined
        end
  end.

(** [k in o] as far as the user-defined chain goes. *)
Definition inChain (o : object value) (k : string) : bool :=
  match lookupChain (own o :: protos o) k with
  | Some _ => true
  | None => false
  end.

(** [ToBoolean]. *)
Definition ToBoolean (v : value) : bool :=
  match v with
  | VUndefined => false
  | VNull => false
  | VBool b => b
  | VNum x => negb (Num.isZero x || Num.isNaN x)
  | VStr s => negb (String.eqb s "")
  | VObj _ _ => true
  end.

(** [IsStrictlyEqual], the [===] operator. *)
Definition IsStrictlyEqual (x y : value) : bool :=
  match x, y with
  | VUndefined, VUndefined => true
  | VNull, VNull => true
  | VBool a, VBool b => Bool.eqb a b
  | VNum a, VNum b => Num.eqb a b
  | VStr a, VStr b => String.eqb a b
  | VObj r1 _, VObj r2 _ => sameRef r1 r2
  | _, _ => false
  end.

(** [SameValueZero], the comparison of [Array.prototype.includes]:
    [===] except that [NaN] is the same as [NaN]. *)
Definition SameValueZero (x y : value) : bool :=
  match x, y with
  | VNum a, VNum b => Num.sameValueZero a b
  | _, _ => IsStrictlyEqual x y
  end.

(** [Array.prototype.includes] with one argument. *)
Definition includes (elements : list value) (searchElement : value) : bool :=
  existsb (fun e => SameValueZero e searchElement) elements.

(** [ToString].  An array is joined with commas, [undefined] and [null]
    elements giving the empty string.  An ordinary object answers through
    [Object.prototype.toString] unless a data property named [toString]
    shadows it; no data property is callable and [valueOf] returns the
    object itself, so the conversion then fails with a [TypeError]. *)
Fixpoint ToString (v : value) : Result string :=
  match v with
  | VUndefined => Ok "undefined"
  | VNull => Ok "null"
  | VBool true => Ok "true"
  | VBool false => Ok "false"
  | VNum x => Ok (Num.NumberToString x)
  | VStr s => Ok s
  | VObj _ (PlainObject o) =>
      if inChain o "toString" then Err TypeError else Ok "[object Object]"
  | VObj _ (ArrayObject elements) =>
      (fix join (l : list value) : Result string :=
         match l with
         | [] => Ok ""
         | e :: rest =>
             s <- match e with
                  | VUndefined | VNull => Ok ""
                  | _ => ToString e
                  end ;;
             match rest with
             | [] => Ok s
             | _ => r <- join rest ;; Ok (s ++ "," ++ r)
             end
         end) elements
  end.

(** [ToPrimitive]: an object becomes the string [ToString] gives,
    with either hint. *)
Definition ToPrimitive (v : value) : Result value :=
  match v with
  | VObj _ _ => s <- ToString v ;; Ok (VStr s)
  | _ => Ok v
  end.

(** [ToNumber] of a primitive value. *)
Definition ToNumber (v : value) : number :=
  match v with
  | VUndefined => Num.NaN
  | VNull => Num.zero
  | VBool true => Num.of_Z 1
  | VBool false => Num.zero
  | VNum x => x
  | VStr s => Num.StringToNumber s
  | VObj _ _ => Num.NaN
  end.

(** [IsLooselyEqual] of two primitive values. *)
Definition looselyEqualPrimitive (x y : value) : bool :=
  match x, y with
  | (VUndefined | VNull), (VUndefined | VNull) => true
  | (VUndefined | VNull), _ => false
  | _, (VUndefined | VNull) => false
  | VStr a, VStr b => String.eqb a b
  | _, _ => Num.eqb (ToNumber x) (ToNumber y)
  end.

(** [IsLooselyEqual], the [==] operator. *)
Definition IsLooselyEqual (x y : value) : Result bool :=
  match x, y with
  | VObj r1 _, VObj r2 _ => Ok (sameRef r1 r2)
  | VObj _ _, (VUndefined | VNull) => Ok false
  | (VUndefined | VNull), VObj _ _ => Ok false
  | VObj _ _, _ => px <- ToPrimitive x ;; Ok (looselyEqualPrimitive px y)
  | _, VObj _ _ => py <- ToPrimitive y ;; Ok (looselyEqualPrimitive x py)
  | _, _ => Ok (looselyEqualPrimitive x y)
  end.

(** [IsLessThan] of two primitive values; [None] is its [undefined]
    answer.  Two strings are compared by code units, anything else as
    numbers. *)
Definition lessThanPrimitive (px py : value) : option bool :=
  match px, py with
  | VStr a, VStr b => Some (String.ltb a b)
  | _, _ =>
      let nx := ToNumber px in
      let ny := ToNumber py in
      if Num.isNaN nx || Num.isNaN ny then None else Some (Num.ltb nx ny)
  end.

(** The operators [<], [>], [<=] and [>=], the left operand converted
    first. *)
Definition lessThan (x y : value) : Result bool :=
  px <- ToPrimitive x ;;
  py <- ToPrimitive y ;;
  Ok match lessThanPrimitive px py with
     | Some b => b
     | None => false
     end.

Definition greaterThan (x y : value) : Result bool :=
  px <- ToPrimitive x ;;
  py <- ToPrimitive y ;;
  Ok match lessThanPrimitive py px with
     | Some b => b
     | None => false
     end.

Definition lessThanOrEqual (x y : value) : Result bool :=
  px <- ToPrimitive x ;;
  py <- ToPrimitive y ;;
  Ok match lessThanPrimitive py px with
     | Some b => negb b
     | None => false
     end.

Definition greaterThanOrEqual (x y : value) : Result bool :=
  px <- ToPrimitive x ;;
  py <- ToPrimitive y ;;
  Ok match lessThanPrimitive px py with
     | Some b => negb b
     | None => false
     end.

End JS.

(** ** Tokens *)

Inductive TokenType : Type :=
| Tidentifier
| Tnumber
| Tstring
| Tboolean
| Tnull
| Toperator
| Tdot
| Tlparen
| Trparen
| Tlbracket
| Trbracket
| Tcomma
| Teof.

(** The string a [TokenType] is in the source. *)
Definition typeName (t : TokenType) : string :=
  match t with
  | Tidentifier => "identifier"
  | Tnumber => "number"
  | Tstring => "string"
  | Tboolean => "boolean"
  | Tnull => "null"
  | Toperator => "operator"
  | Tdot => "dot"
  | Tlparen => "lparen"
  | Trparen => "rparen"
  | Tlbracket => "lbracket"
  | Trbracket => "rbracket"
  | Tcomma => "comma"
  | Teof => "eof"
  end.

Definition TokenType_eqb (a b : TokenType) : bool :=
  String.eqb (typeName a) (typeName b).

Record Token : Type := mkToken {
  type : TokenType;
  text : string   (* the field [value] of the source *)
}.

(** ** Lexer *)

(** The body of a string literal, read from the character after the
    opening quote: the text collected and the number of positions the
    inner loop advances [i] by.  A backslash takes the next character as
    it is; at the very end of the input it takes nothing and still
    advances twice. *)
Fixpoint scanString (quote : ascii) (rest : list ascii) : string * nat :=
  match rest with
  | [] => ("", 0)
  | c :: r =>
      if Ascii.eqb c quote then ("", 0)
      else if Ascii.eqb c "\" then
        match r with
        | [] => ("", 2)
        | c' :: r' => let (str, n) := scanString quote r' in (String c' str, n + 2)
        end
      else let (str, n) := scanString quote r in (String c str, n + 1)
  end.

Definition charAt (l : list ascii) (k : nat) : option ascii := nth_error l k.

Definition charIs (o : option ascii) (c : ascii) : bool :=
  match o with
  | Some c' => Ascii.eqb c' c
  | None => false
  end.

Definition keyword (ident : string) : Token :=
  if String.eqb ident "true" || String.eqb ident "false" then mkToken Tboolean ident
  else if String.eqb ident "null" then mkToken Tnull ident
  else mkToken Tidentifier ident.

(** One turn of the [while (i < len)] loop of [tokenize], with [rest] the
    input from position [i] on and [ch] its first character: the tokens
    pushed (none for white space) and the amount added to [i]. *)
Definition scan (ch : ascii) (r : list ascii) (i : nat) : Result (list Token * nat) :=
  let next1 := charAt r 0 in
  let next2 := charAt r 1 in
  if isWhiteSpace ch then Ok ([], 1)
  else if Ascii.eqb ch "'" || Ascii.eqb ch doubleQuote then
    let (str, n) := scanString ch r in
    Ok ([mkToken Tstring str], 1 + n + 1)
  else if isDigit ch then
    let num := string_of_list_ascii (fst (span isDigitOrDot (ch :: r))) in
    Ok ([mkToken Tnumber num], String.length num)
  else if isIdentStart ch then
    let ident := string_of_list_ascii (fst (span isIdentPart (ch :: r))) in
    Ok ([keyword ident], String.length ident)
  else if Ascii.eqb ch "=" && charIs next1 "=" && charIs next2 "=" then
    Ok ([mkToken Toperator "==="], 3)
  else if Ascii.eqb ch "!" && charIs next1 "=" && charIs next2 "=" then
    Ok ([mkToken Toperator "!=="], 3)
  else if Ascii.eqb ch "=" && charIs next1 "=" then Ok ([mkToken Toperator "=="], 2)
  else if Ascii.eqb ch "!" && charIs next1 "=" then Ok ([mkToken Toperator "!="], 2)
  else if Ascii.eqb ch ">" && charIs next1 "=" then Ok ([mkToken Toperator ">="], 2)
  else if Ascii.eqb ch "<" && charIs next1 "=" then Ok ([mkToken Toperator "<="], 2)
  else if Ascii.eqb ch "&" && charIs next1 "&" then Ok ([mkToken Toperator "&&"], 2)
  else if Ascii.eqb ch "|" && charIs next1 "|" then Ok ([mkToken Toperator "||"], 2)
  else if Ascii.eqb ch "!" then Ok ([mkToken Toperator "!"], 1)
  else if Ascii.eqb ch ">" || Ascii.eqb ch "<" then
    Ok ([mkToken Toperator (String ch "")], 1)
  else if Ascii.eqb ch "." then Ok ([mkToken Tdot "."], 1)
  else if Ascii.eqb ch "(" then Ok ([mkToken Tlparen "("], 1)
  else if Ascii.eqb ch ")" then Ok ([mkToken Trparen ")"], 1)
  else if Ascii.eqb ch "[" then Ok ([mkToken Tlbracket "["], 1)
  else if Ascii.eqb ch "]" then Ok ([mkToken Trbracket "]"], 1)
  else if Ascii.eqb ch "," then Ok ([mkToken Tcomma ","], 1)
  else
    Err (ExpressionSyntaxError
           ("Unexpected character: '" ++ String ch "" ++ "' at position "
              ++ string_of_nat i)).

(** The loop of [tokenize] from position [i], of which [rest] is the
    input left.  [skip] counts the positions a turn of the loop has
    already moved [i] over: the loop body runs where [skip] is zero.  The
    tokens come out in source order, closed by the [eof] token. *)
Fixpoint tokenizeFrom (rest : list ascii) (i skip : nat) : Result (list Token) :=
  match rest with
  | [] => Ok [mkToken Teof ""]
  | ch :: r =>
      match skip with
      | S k => tokenizeFrom r (i + 1) k
      | O =>
          '(pushed, n) <- scan ch r i ;;
          tokens <- tokenizeFrom r (i + 1) (n - 1) ;;
          Ok (pushed ++ tokens)%list
      end
  end.

Definition tokenize (expression : string) : Result (list Token) :=
  tokenizeFrom (list_ascii_of_string expression) 0 0.

(** ** AST nodes *)

(** [string | number | boolean | null], the values a literal node holds. *)
Inductive literalValue : Type :=
| LString (s : string)
| LNumber (x : number)
| LBoolean (b : bool)
| LNull.

Definition valueOfLiteral (l : literalValue) : value :=
  match l with
  | LString s => VStr s
  | LNumber x => VNum x
  | LBoolean b => VBool b
  | LNull => VNull
  end.

Inductive AstNode : Type :=
| literal (value : literalValue)
| identifier (name : string)
| memberAccess (object : AstNode) (property : string)
| arrayLiteral (elements : list AstNode)
| methodCall (object : AstNode) (method : string) (args : list AstNode)
| binaryOp (operator : string) (left right : AstNode)
| unaryOp (operator : string) (operand : AstNode)
| parenthesized (expression : AstNode).

(** ** Parser *)

Module Parser.

(** A method of the parser: it reads and moves [this.pos].  [None] is the
    answer of a recursion that was given too little fuel; [parse] below
    gives enough. *)
Definition M (A : Type) : Type := nat -> option (Result (A * nat)).

Definition ret {A : Type} (a : A) : M A := fun pos => Some (Ok (a, pos)).

Definition throw {A : Type} (e : error) : M A := fun _ => Some (Err e).

Definition outOfFuel {A : Type} : M A := fun _ => None.

Definition bindM {A B : Type} (m : M A) (k : A -> M B) : M B :=
  fun pos =>
    match m pos with
    | Some (Ok (a, pos')) => k a pos'
    | Some (Err e) => Some (Err e)
    | None => None
    end.

Notation "x <~ c1 ;; c2" := (bindM c1 (fun x => c2))
  (at level 61, c1 at next level, right associativity).
Notation "c1 ;;; c2" := (bindM c1 (fun _ => c2))
  (at level 61, right associativity).

Section Methods.

Variable tokens : list Token.

(** [this.peek()], as its callers use it: they read [.type] or [.value]
    of the answer at once, which is a [TypeError] on [undefined]. *)
Definition peek : M Token :=
  fun pos =>
    match nth_error tokens pos with
    | Some token => Some (Ok (token, pos))
    | None => Some (Err TypeError)
    end.

(** [this.consume(expectedType?)].  Without an expected type nothing of
    the token is read, so past the end of [tokens] it answers
    [undefined] ([None]) and still moves on. *)
Definition consume (expectedType : option TokenType) : M (option Token) :=
  fun pos =>
    match expectedType, nth_error tokens pos with
    | Some expected, Some token =>
        if negb (TokenType_eqb (type token) expected) then
          Some (Err (ExpressionSyntaxError
                       ("Expected " ++ typeName expected ++ ", got "
                          ++ typeName (type token) ++ " ('" ++ text token ++ "')")))
        else Some (Ok (Some token, pos + 1))
    | Some _, None => Some (Err TypeError)
    | None, token => Some (Ok (token, pos + 1))
    end.

(** [.value] of what [consume] answered. *)
Definition valueOf (token : option Token) : M string :=
  match token with
  | Some t => ret (text t)
  | None => throw TypeError
  end.

Definition isType (t : Token) (ty : TokenType) : bool := TokenType_eqb (type t) ty.

Definition isOperator (t : Token) (op : string) : bool :=
  isType t Toperator && String.eqb (text t) op.

Definition compOps : list string :=
  ["==="; "!=="; "=="; "!="; ">"; "<"; ">="; "<="].

Definition isCompOp (t : Token) : bool :=
  isType t Toperator && existsb (String.eqb (text t)) compOps.

(** The loops run on a counter that starts above the number of tokens;
    every turn consumes a token. *)
Definition turns : nat := S (List.length tokens).

Section Levels.

(** [this.parseOr], for the calls from inside [parsePrimary] and
    [parsePostfix]. *)
Variable parseOrRec : M AstNode.

(** [x, y, ...] after the first item: the [while] loop on commas. *)
Fixpoint parseMore (n : nat) (items : list AstNode) : M (list AstNode) :=
  match n with
  | O => outOfFuel
  | S n' =>
      t <~ peek ;;
      if isType t Tcomma then
        consume None ;;;
        item <~ parseOrRec ;;
        parseMore n' (items ++ [item])
      else ret items
  end.

(** The items of an argument list or array literal up to [closing]. *)
Definition parseItems (closing : TokenType) : M (list AstNode) :=
  t <~ peek ;;
  if negb (isType t closing) then
    item <~ parseOrRec ;;
    parseMore turns [item]
  else ret [].

Definition parsePrimary : M AstNode :=
  token <~ peek ;;
  match type token with
  | Tstring => consume None ;;; ret (literal (LString (text token)))
  | Tnumber =>
      consume None ;;; ret (literal (LNumber (Num.StringToNumber (text token))))
  | Tboolean =>
      consume None ;;; ret (literal (LBoolean (String.eqb (text token) "true")))
  | Tnull => consume None ;;; ret (literal LNull)
  | Tidentifier => consume None ;;; ret (identifier (text token))
  | Tlbracket =>
      consume None ;;;
      elements <~ parseItems Trbracket ;;
      consume (Some Trbracket) ;;;
      ret (arrayLiteral elements)
  | Tlparen =>
      consume None ;;;
      expr <~ parseOrRec ;;
      consume (Some Trparen) ;;;
      ret (parenthesized expr)
  | _ =>
      throw (ExpressionSyntaxError ("Unexpected token: '" ++ text token ++ "'"))
  end.

(** The [while (true)] loop of [parsePostfix]. *)
Fixpoint postfixLoop (n : nat) (node : AstNode) : M AstNode :=
  match n with
  | O => outOfFuel
  | S n' =>
      t <~ peek ;;
      if isType t Tdot then
        consume None ;;;
        prop <~ consume (Some Tidentifier) ;;
        name <~ valueOf prop ;;
        t' <~ peek ;;
        if isType t' Tlparen then
          consume None ;;;
          args <~ parseItems Trparen ;;
          consume (Some Trparen) ;;;
          postfixLoop n' (methodCall node name args)
        else postfixLoop n' (memberAccess node name)
      else ret node
  end.

Definition parsePostfix : M AstNode :=
  node <~ parsePrimary ;;
  postfixLoop turns node.

(** [parseUnary] calls itself once for each [!] it consumes. *)
Fixpoint parseUnaryN (n : nat) : M AstNode :=
  match n with
  | O => outOfFuel
  | S n' =>
      t <~ peek ;;
      if isOperator t "!" then
        consume None ;;;
        operand <~ parseUnaryN n' ;;
        ret (unaryOp "!" operand)
      else parsePostfix
  end.

Definition parseUnary : M AstNode := parseUnaryN turns.

Fixpoint comparisonLoop (n : nat) (left : AstNode) : M AstNode :=
  match n with
  | O => outOfFuel
  | S n' =>
      t <~ peek ;;
      if isCompOp t then
        opToken <~ consume None ;;
        op <~ valueOf opToken ;;
        right <~ parseUnary ;;
        comparisonLoop n' (binaryOp op left right)
      else ret left
  end.

Definition parseComparison : M AstNode :=
  left <~ parseUnary ;;
  comparisonLoop turns left.

Fixpoint andLoop (n : nat) (left : AstNode) : M AstNode :=
  match n with
  | O => outOfFuel
  | S n' =>
      t <~ peek ;;
      if isOperator t "&&" then
        consume None ;;;
        right <~ parseComparison ;;
        andLoop n' (binaryOp "&&" left right)
      else ret left
  end.

Definition parseAnd : M AstNode :=
  left <~ parseComparison ;;
  andLoop turns left.

Fixpoint orLoop (n : nat) (left : AstNode) : M AstNode :=
  match n with
  | O => outOfFuel
  | S n' =>
      t <~ peek ;;
      if isOperator t "||" then
        consume None ;;;
        right <~ parseAnd ;;
        orLoop n' (binaryOp "||" left right)
      else ret left
  end.

Definition parseOrBody : M AstNode :=
  left <~ parseAnd ;;
  orLoop turns left.

End Levels.

(** [parseOr], the recursion through brackets, parentheses and argument
    lists bounded by [depth]. *)
Fixpoint parseOr (depth : nat) : M AstNode :=
  match depth with
  | O => outOfFuel
  | S depth' => parseOrBody (parseOr depth')
  end.

(** [parse()] as a method: the whole input must be one expression. *)
Definition parseM : M AstNode :=
  node <~ parseOr turns ;;
  t <~ peek ;;
  if negb (isType t Teof) then
    throw (ExpressionSyntaxError ("Unexpected token: '" ++ text t ++ "'"))
  else ret node.

End Methods.

(** [new Parser(tokens).parse()].  The last case is never taken
    ([parse_fuel] below). *)
Definition parse (tokens : list Token) : Result AstNode :=
  match parseM tokens 0 with
  | Some (Ok (node, _)) => Ok node
  | Some (Err e) => Err e
  | None => Err TypeError
  end.

End Parser.

(** ** Evaluator *)

Definition notAllowed (name : string) : error :=
  ExpressionSecurityError ("Access to '" ++ name ++ "' is not allowed").

Definition includesOnNonArray : error :=
  ExpressionSecurityError "'includes' can only be called on arrays".

Definition methodNotAllowed (method : string) : error :=
  ExpressionSecurityError ("Method '" ++ method ++ "' is not allowed").

Definition unknownOperator (operator : string) : error :=
  ExpressionSyntaxError ("Unknown operator: '" ++ operator ++ "'").

Definition unknownUnaryOperator (operator : string) : error :=
  ExpressionSyntaxError ("Unknown unary operator: '" ++ operator ++ "'").

(** The [switch (node.operator)] on the two operand values. *)
Definition applyBinary (operator : string) (left right : value) : Result value :=
  if String.eqb operator "===" then Ok (VBool (JS.IsStrictlyEqual left right))
  else if String.eqb operator "!==" then Ok (VBool (negb (JS.IsStrictlyEqual left right)))
  else if String.eqb operator "==" then
    b <- JS.IsLooselyEqual left right ;; Ok (VBool b)
  else if String.eqb operator "!=" then
    b <- JS.IsLooselyEqual left right ;; Ok (VBool (negb b))
  else if String.eqb operator ">" then
    b <- JS.greaterThan left right ;; Ok (VBool b)
  else if String.eqb operator "<" then
    b <- JS.lessThan left right ;; Ok (VBool b)
  else if String.eqb operator ">=" then
    b <- JS.greaterThanOrEqual left right ;; Ok (VBool b)
  else if String.eqb operator "<=" then
    b <- JS.lessThanOrEqual left right ;; Ok (VBool b)
  else Err (unknownOperator operator).

Fixpoint evaluateNode (node : AstNode) (context : Context) : Result value :=
  match node with
  | literal value => Ok (valueOfLiteral value)

  | identifier name =>
      if negb (JS.hasOwn (PlainObject context) name) then Err (notAllowed name)
      else Ok (JS.Get (PlainObject context) name)

  | memberAccess object property =>
      obj <- evaluateNode object context ;;
      match obj with
      | VObj _ o =>
          if negb (JS.hasOwn o property) then Err (notAllowed property)
          else Ok (JS.Get o property)
      | _ => Ok VUndefined   (* obj === null || typeof obj !== 'object' *)
      end

  | arrayLiteral elements =>
      values <- (fix map (l : list AstNode) : Result (list value) :=
                   match l with
                   | [] => Ok []
                   | el :: rest =>
                       v <- evaluateNode el context ;;
                       vs <- map rest ;;
                       Ok (v :: vs)
                   end) elements ;;
      Ok (VArray Fresh values)

  | methodCall object method args =>
      obj <- evaluateNode object context ;;
      if String.eqb method "includes" then
        match obj with
        | VObj _ (ArrayObject items) =>
            arg <- match args with
                   | arg0 :: _ => evaluateNode arg0 context
                   | [] => Err TypeError   (* node.args[0] is undefined *)
                   end ;;
            Ok (VBool (JS.includes items arg))
        | _ => Err includesOnNonArray
        end
      else Err (methodNotAllowed method)

  | binaryOp operator lhs rhs =>
      if String.eqb operator "&&" then
        left <- evaluateNode lhs context ;;
        if JS.ToBoolean left then evaluateNode rhs context else Ok left
      else if String.eqb operator "||" then
        left <- evaluateNode lhs context ;;
        if JS.ToBoolean left then Ok left else evaluateNode rhs context
      else
        left <- evaluateNode lhs context ;;
        right <- evaluateNode rhs context ;;
        applyBinary operator left right

  | unaryOp operator operand =>
      v <- evaluateNode operand context ;;
      if String.eqb operator "!" then Ok (VBool (negb (JS.ToBoolean v)))
      else Err (unknownUnaryOperator operator)

  | parenthesized expression => evaluateNode expression context
  end.

(** ** Public API *)

(** The first three lines of [compileExpression]: lex and parse. *)
Definition compile (expression : string) : Result AstNode :=
  tokens <- tokenize expression ;;
  Parser.parse tokens.

Definition compileExpression (expression : string)
  : Result (Context -> Result value) :=
  ast <- compile expression ;;
  Ok (fun context => evaluateNode ast context).

(** [try { ... } catch { return false; }]: whatever is thrown. *)
Definition safeEvaluateExpression (expression : string) (context : Context) : value :=
  match compileExpression expression with
  | Ok evaluator =>
      match evaluator context with
      | Ok result => result
      | Err _ => VBool false
      end
  | Err _ => VBool false
  end.

(** Modelled from the spec: the loop of [evaluateShowWhen] over a
    non-empty list, which is not in the source file at hand: the logical
    OR of [safeEvaluateExpression] over the entries, in list order,
    stopping at the first truthy result. *)
Fixpoint someTruthy (expressions : list string) (context : Context) : bool :=
  match expressions with
  | [] => false
  | expression :: rest =>
      if JS.ToBoolean (safeEvaluateExpression expression context) then true
      else someTruthy rest context
  end.

(** Modelled from the spec: [evaluateShowWhen], which the second test
    suite imports from the module but which is not in the source file at
    hand.  The spec: an empty or absent ([undefined], here [None]) list
    gives [true] (no restriction means always show); otherwise the
    logical OR across [safeEvaluateExpression] on each entry. *)
Definition evaluateShowWhen (expressions : option (list string)) (context : Context)
  : bool :=
  match expressions with
  | None => true
  | Some [] => true
  | Some l => someTruthy l context
  end.

(** ** Notions used in the statements *)

(** The operator tags [evaluateNode] knows. *)
Definition binaryOperators : list string :=
  ["&&"; "||"; "==="; "!=="; "=="; "!="; ">"; "<"; ">="; "<="].

Definition knownBinary (operator : string) : bool :=
  existsb (String.eqb operator) binaryOperators.

(** Every operator tag in the tree is one the evaluator knows. *)
Fixpoint wellTagged (node : AstNode) : bool :=
  match node with
  | literal _ => true
  | identifier _ => true
  | memberAccess object _ => wellTagged object
  | arrayLiteral elements => forallb wellTagged elements
  | methodCall object _ args => wellTagged object && forallb wellTagged args
  | binaryOp operator lhs rhs =>
      knownBinary operator && wellTagged lhs && wellTagged rhs
  | unaryOp operator operand => String.eqb operator "!" && wellTagged operand
  | parenthesized expression => wellTagged expression
  end.

(** What a parser method leaves behind: it did not run out of fuel, and
    if it returned, [this.pos] lies between [lo] and the number of tokens
    and the answer satisfies [Q]. *)
Definition post {A : Type} (tokens : list Token) (Q : A -> Prop) (lo : nat)
  (r : option (Result (A * nat))) : Prop :=
  match r with
  | None => False
  | Some (Err _) => True
  | Some (Ok (a, pos')) => (lo <= pos' <= List.length tokens)%nat /\ Q a
  end.

Definition isErr {A : Type} (r : Result A) : bool :=
  match r with
  | Err _ => true
  | Ok _ => false
  end.

(** [v] passes the test [obj === null || typeof obj !== 'object']. *)
Definition nullOrNotObject (v : value) : bool :=
  match v with
  | VNull => true
  | _ => negb (String.eqb (JS.typeof v) "object")
  end.

(** An own property with the [enumerable] attribute; of an array, its
    indices ([length] is own but not enumerable). *)
Definition ownEnumerable (o : heapObject value) (k : string) : bool :=
  match o with
  | PlainObject o =>
      match JS.lookup (own o) k with
      | Some p => enumerable p
      | None => false
      end
  | ArrayObject elements =>
      match JS.arrayIndex (List.length elements) k with
      | Some _ => true
      | None => false
      end
  end.

(** The orderings the relational operators are compared with: of two
    numbers, and of two strings by code units. *)
Definition numericOrder (operator : string) (x y : number) : bool :=
  if String.eqb operator ">" then Num.ltb y x
  else if String.eqb operator "<" then Num.ltb x y
  else if String.eqb operator ">=" then Num.leb y x
  else Num.leb x y.

Definition stringOrder (operator : string) (a b : string) : bool :=
  if String.eqb operator ">" then String.ltb b a
  else if String.eqb operator "<" then String.ltb a b
  else if String.eqb operator ">=" then String.leb b a
  else String.leb a b.

Definition relationalOperators : list string := [">"; "<"; ">="; "<="].

Definition isNaNValue (v : value) : bool :=
  match v with
  | VNum x => Num.isNaN x
  | _ => false
  end.

(** Every [includes] call in the tree is given an argument. *)
Fixpoint hasArguments (node : AstNode) : bool :=
  match node with
  | literal _ => true
  | identifier _ => true
  | memberAccess object _ => hasArguments object
  | arrayLiteral elements => forallb hasArguments elements
  | methodCall object method args =>
      hasArguments object && forallb hasArguments args &&
      (negb (String.eqb method "includes") ||
       match args with [] => false | _ :: _ => true end)
  | binaryOp _ lhs rhs => hasArguments lhs && hasArguments rhs
  | unaryOp _ operand => hasArguments operand
  | parenthesized expression => hasArguments expression
  end.

(** No object in the value, at any depth of its elements and own
    properties, has a data property [toString] on its chain. *)
Fixpoint convertible (v : value) : bool :=
  match v with
  | VObj _ (ArrayObject elements) => forallb convertible elements
  | VObj _ (PlainObject o) =>
      negb (JS.inChain o "toString") &&
      forallb (fun kp => convertible (pvalue (snd kp))) (own o)
  | _ => true
  end.

Definition convertibleContext (c : Context) : bool :=
  forallb (fun kp => convertible (pvalue (snd kp))) (own c).

(** What an evaluation returns when nothing makes the runtime throw:
    a convertible value, or a Security error. *)
Definition valueOrSecurity (r : Result value) : Prop :=
  match r with
  | Ok v => convertible v = true
  | Err e => exists message, e = ExpressionSecurityError message
  end.

(** A run of digits and decimal points that starts with a digit and has
    more than one decimal point. *)
Definition isDot (c : ascii) : bool := Ascii.eqb c ".".

Definition manyDots (l : list ascii) : Prop :=
  match l with
  | c :: _ => isDigit c = true
  | [] => False
  end /\
  forallb isDigitOrDot l = true /\
  (2 <= List.length (filter isDot l))%nat.

(** ** Further notions: tokens, grammar, names *)

Definition eofToken : Token := mkToken Teof "".

(** The texts of the operator tokens. *)
Definition operatorTexts : list string :=
  ["==="; "!=="; "=="; "!="; ">="; "<="; "&&"; "||"; "!"; ">"; "<"].

(** [[A-Za-z_$][A-Za-z0-9_$]*] *)
Definition isIdentifierName (s : string) : bool :=
  match list_ascii_of_string s with
  | c :: l => isIdentStart c && forallb isIdentPart l
  | [] => false
  end.

Definition isReserved (s : string) : bool :=
  String.eqb s "true" || String.eqb s "false" || String.eqb s "null".

(** The text of a token is of the lexical class its type names. *)
Definition lexical (t : Token) : bool :=
  match type t with
  | Tidentifier => isIdentifierName (text t) && negb (isReserved (text t))
  | Tnumber =>
      match list_ascii_of_string (text t) with
      | c :: l => isDigit c && forallb isDigitOrDot l
      | [] => false
      end
  | Tstring => true
  | Tboolean => String.eqb (text t) "true" || String.eqb (text t) "false"
  | Tnull => String.eqb (text t) "null"
  | Toperator => existsb (String.eqb (text t)) operatorTexts
  | Tdot => String.eqb (text t) "."
  | Tlparen => String.eqb (text t) "("
  | Trparen => String.eqb (text t) ")"
  | Tlbracket => String.eqb (text t) "["
  | Trbracket => String.eqb (text t) "]"
  | Tcomma => String.eqb (text t) ","
  | Teof => String.eqb (text t) ""
  end.

Definition unexpectedCharacter (c : ascii) (position : nat) : error :=
  ExpressionSyntaxError
    ("Unexpected character: '" ++ String c "" ++ "' at position "
       ++ string_of_nat position).

(** A string body written between quotes: a backslash before every
    quote of the kind used and before every backslash. *)
Fixpoint escape (quote : ascii) (body : list ascii) : list ascii :=
  match body with
  | [] => []
  | c :: rest =>
      if Ascii.eqb c quote || Ascii.eqb c "\" then "\"%char :: c :: escape quote rest
      else c :: escape quote rest
  end.

Definition isQuote (c : ascii) : bool := Ascii.eqb c "'" || Ascii.eqb c doubleQuote.

(** The literal that writes [body] between two quotes [quote]. *)
Definition quoted (quote : ascii) (body : string) : string :=
  String quote
    (string_of_list_ascii (escape quote (list_ascii_of_string body) ++ [quote])).

(** The same without the closing quote. *)
Definition unterminated (quote : ascii) (body : string) : string :=
  String quote (string_of_list_ascii (escape quote (list_ascii_of_string body))).

(** What a name compiles to. *)
Definition nameNode (s : string) : AstNode :=
  if String.eqb s "true" then literal (LBoolean true)
  else if String.eqb s "false" then literal (LBoolean false)
  else if String.eqb s "null" then literal LNull
  else identifier s.

(** The text of a number token: a run of digits and decimal points that
    starts with a digit. *)
Definition numberLexeme (l : list ascii) : Prop :=
  match l with
  | c :: _ => isDigit c = true
  | [] => False
  end /\
  forallb isDigitOrDot l = true.

(** The sign bit of a number; [NaN] has none. *)
Definition signBit (x : number) : bool :=
  match x with
  | S754_zero s => s
  | S754_infinity s => s
  | S754_finite s _ _ => s
  | S754_nan => false
  end.

(** The level of the grammar a node belongs to by its head: [Or] 0,
    [And] 1, [Comparison] 2, [Unary] 3, [Postfix] 4, [Primary] 5. *)
Definition operatorLevel (operator : string) : nat :=
  if String.eqb operator "||" then 0
  else if String.eqb operator "&&" then 1
  else 2.

Definition levelOf (node : AstNode) : nat :=
  match node with
  | binaryOp operator _ _ => operatorLevel operator
  | unaryOp _ _ => 3
  | memberAccess _ _ => 4
  | methodCall _ _ _ => 4
  | _ => 5
  end.

(** The tree is one the grammar derives without regrouping: the left
    operand of a binary operator is of its level or tighter, the right
    operand strictly tighter (so every binary operator associates to the
    left and a looser operator below a tighter one needs parentheses); the
    operand of [!] is [Unary] or tighter; the receiver of a member access
    or call is [Postfix] or tighter. *)
Fixpoint grammatical (node : AstNode) : bool :=
  match node with
  | literal _ => true
  | identifier _ => true
  | memberAccess object _ => grammatical object && (4 <=? levelOf object)%nat
  | arrayLiteral elements => forallb grammatical elements
  | methodCall object _ args =>
      grammatical object && (4 <=? levelOf object)%nat && forallb grammatical args
  | binaryOp operator lhs rhs =>
      knownBinary operator &&
      grammatical lhs && (operatorLevel operator <=? levelOf lhs)%nat &&
      grammatical rhs && (operatorLevel operator <? levelOf rhs)%nat
  | unaryOp operator operand =>
      String.eqb operator "!" && grammatical operand && (3 <=? levelOf operand)%nat
  | parenthesized expression => grammatical expression
  end.

(** What a parser method leaves behind on tokens that end with [eof]: it
    did not run out of fuel; if it threw, it threw a Syntax error; if it
    returned, [this.pos] is at a token, not before [lo], and the answer
    satisfies [Q]. *)
Definition postEof {A : Type} (tokens : list Token) (Q : A -> Prop) (lo : nat)
  (r : option (Result (A * nat))) : Prop :=
  match r with
  | None => False
  | Some (Err e) => exists message, e = ExpressionSyntaxError message
  | Some (Ok (a, pos')) => (lo <= pos' < List.length tokens)%nat /\ Q a
  end.

Definition atLevel (k : nat) (node : AstNode) : Prop :=
  grammatical node = true /\ (k <= levelOf node)%nat.

(** The token the lexer pushes for a literal of this value. *)
Definition literalToken (v : literalValue) : Token :=
  match v with
  | LString s => mkToken Tstring s
  | LNumber x => mkToken Tnumber (Num.NumberToString x)
  | LBoolean b => mkToken Tboolean (if b then "true" else "false")
  | LNull => mkToken Tnull "null"
  end.

(** [x, y, ...]: the first item, then a comma before each further one. *)
Definition unparseMore (unparse : AstNode -> list Token) (items : list AstNode) :
  list Token :=
  flat_map (fun item => mkToken Tcomma "," :: unparse item) items.

Definition unparseItems (unparse : AstNode -> list Token) (items : list AstNode) :
  list Token :=
  match items with
  | [] => []
  | item :: rest => unparse item ++ unparseMore unparse rest
  end.

(** A tree written back as tokens, with no parentheses but those of its
    [parenthesized] nodes. *)
Fixpoint unparse (node : AstNode) : list Token :=
  match node with
  | literal v => [literalToken v]
  | identifier name => [mkToken Tidentifier name]
  | memberAccess object property =>
      unparse object ++ [mkToken Tdot "."; mkToken Tidentifier property]
  | arrayLiteral elements =>
      mkToken Tlbracket "[" :: unparseItems unparse elements ++ [mkToken Trbracket "]"]
  | methodCall object method args =>
      unparse object ++
      mkToken Tdot "." :: mkToken Tidentifier method :: mkToken Tlparen "(" ::
      unparseItems unparse args ++ [mkToken Trparen ")"]
  | binaryOp operator lhs rhs =>
      unparse lhs ++ mkToken Toperator operator :: unparse rhs
  | unaryOp operator operand => mkToken Toperator operator :: unparse operand
  | parenthesized expression =>
      mkToken Tlparen "(" :: unparse expression ++ [mkToken Trparen ")"]
  end.

(** The number literals of the tree are read back from their decimal
    text ([-0] and the numbers whose text has an exponent are not). *)
Fixpoint printable (node : AstNode) : Prop :=
  match node with
  | literal (LNumber x) => Num.StringToNumber (Num.NumberToString x) = x
  | literal _ => True
  | identifier _ => True
  | memberAccess object _ => printable object
  | arrayLiteral elements =>
      fold_right (fun element rest => printable element /\ rest) True elements
  | methodCall object _ args =>
      printable object /\ fold_right (fun arg rest => printable arg /\ rest) True args
  | binaryOp _ lhs rhs => printable lhs /\ printable rhs
  | unaryOp _ operand => printable operand
  | parenthesized expression => printable expression
  end.

(** From [this.pos = pos] on, the tokens are [l]. *)
Definition readsAt (tokens : list Token) (pos : nat) (l : list Token) : Prop :=
  skipn pos tokens = l.

(** The token ends an expression of level [k]: it opens no argument list
    and is no operator that a loop of level [k] or tighter goes on with. *)
Definition stops (k : nat) (t : Token) : bool :=
  negb (Parser.isType t Tlparen) &&
  (negb (Parser.isType t Tdot) || (4 <? k)%nat) &&
  (negb (Parser.isCompOp t) || (2 <? k)%nat) &&
  (negb (Parser.isOperator t "&&") || (1 <? k)%nat) &&
  (negb (Parser.isOperator t "||") || (0 <? k)%nat).

(** The turns each loop of the parser takes on the tokens of a tree. *)
Fixpoint postfixSteps (node : AstNode) : nat :=
  match node with
  | memberAccess object _ => S (postfixSteps object)
  | methodCall object _ _ => S (postfixSteps object)
  | _ => 0
  end.

Fixpoint bangs (node : AstNode) : nat :=
  match node with
  | unaryOp _ operand => S (bangs operand)
  | _ => 0
  end.

Fixpoint spine (k : nat) (node : AstNode) : nat :=
  match node with
  | binaryOp operator lhs _ =>
      if (operatorLevel operator =? k)%nat then S (spine k lhs) else 0
  | _ => 0
  end.

(** [element.tag === 'a' || !([1, 2].includes(x, y)) && (a < b) != null] *)
Definition sampleTree : AstNode :=
  binaryOp "||"
    (binaryOp "===" (memberAccess (identifier "element") "tag") (literal (LString "a")))
    (binaryOp "&&"
       (unaryOp "!"
          (parenthesized
             (methodCall
                (arrayLiteral [literal (LNumber (Num.of_Z 1)); literal (LNumber (Num.of_Z 2))])
                "includes" [identifier "x"; identifier "y"])))
       (binaryOp "!="
          (parenthesized (binaryOp "<" (identifier "a") (identifier "b")))
          (literal LNull))).



(** The names a tree reads from the context. *)
Fixpoint identifiers (node : AstNode) : list string :=
  match node with
  | literal _ => []
  | identifier name => [name]
  | memberAccess object _ => identifiers object
  | arrayLiteral elements => flat_map identifiers elements
  | methodCall object _ args => identifiers object ++ flat_map identifiers args
  | binaryOp _ lhs rhs => identifiers lhs ++ identifiers rhs
  | unaryOp _ operand => identifiers operand
  | parenthesized expression => identifiers expression
  end.

(** The value of the own property [name] of a context, if it has one. *)
Definition ownValue (c : Context) (name : string) : option value :=
  option_map pvalue (JS.lookup (own c) name).

(** The operators whose result is a boolean. *)
Definition comparisonOperators : list string :=
  ["==="; "!=="; "=="; "!="; ">"; "<"; ">="; "<="].

Definition isBoolean (v : value) : bool :=
  match v with
  | VBool _ => true
  | _ => false
  end.

(** Two primitives the relational operators can order: two strings, or
    two values neither of which converts to [NaN]. *)
Definition comparable (px py : value) : bool :=
  match px, py with
  | VStr _, VStr _ => true
  | _, _ => negb (Num.isNaN (JS.ToNumber px) || Num.isNaN (JS.ToNumber py))
  end.

Definition bareContext : Context :=
  literalObject [("element", VObject (Ref 1) [("tag", VStr "button")])].

Definition crowdedContext : Context :=
  mkObject [("element", mkProperty false (VObject (Ref 1) [("tag", VStr "button")]));
            ("other", mkProperty true VNull)]
           [[("window", mkProperty true (VStr "w"))]].

(** The characters that stand for a token in a source: a string between
    single quotes, its quotes and backslashes escaped; every other token
    as its text. *)
Definition lexeme (t : Token) : list ascii :=
  match type t with
  | Tstring => ("'"%char :: escape "'" (list_ascii_of_string (text t)) ++ ["'"%char])%list
  | _ => list_ascii_of_string (text t)
  end.

(** Tokens written out as a source, a space after each. *)
Definition showTokens (ts : list Token) : string :=
  string_of_list_ascii (flat_map (fun t => (lexeme t ++ [" "%char])%list) ts).

(** A token the lexer can push before [eof]. *)
Definition writable (t : Token) : bool :=
  lexical t && negb (TokenType_eqb (type t) Teof).

(** A tree written out as a source. *)
Definition show (ast : AstNode) : string := showTokens (unparse ast).

(** ** Contexts and values used as examples *)

Definition emptyContext : Context := literalObject [].

(** The context of the test suite. *)
Definition baseContext : Context :=
  literalObject
    [("element", VObject (Ref 1)
        [("tag", VStr "button"); ("component", VStr "MyButton");
         ("childCount", VNum (Num.of_Z 3)); ("hasText", VBool true);
         ("isComponent", VBool true)]);
     ("rule", VObject (Ref 2)
        [("selector", VStr ".my-class"); ("declarationCount", VNum (Num.of_Z 5))]);
     ("declaration", VObject (Ref 3)
        [("property", VStr "color"); ("value", VStr "#ff0000")]);
     ("tree", VObject (Ref 4) [("depth", VNum (Num.of_Z 2))])].

(** [compileExpression(expression)(context)] *)
Definition run (expression : string) (context : Context) : Result value :=
  evaluator <- compileExpression expression ;;
  evaluator context.

(** [{ items: [1, 2] }] *)
Definition itemsContext : Context :=
  literalObject [("items", VArray (Ref 1) [VNum (Num.of_Z 1); VNum (Num.of_Z 2)])].

(** A context whose object [element] inherits [secret] from its
    prototype and owns the non-enumerable [hidden]. *)
Definition inheritingElement : heapObject value :=
  PlainObject (mkObject [("tag", mkProperty true (VStr "button"));
                         ("hidden", mkProperty false (VStr "h"))]
                        [[("secret", mkProperty true (VStr "s"))]]).

Definition inheritingContext : Context :=
  mkObject [("element", mkProperty true (VObj (Ref 1) inheritingElement))]
           [[("ambient", mkProperty true (VStr "a"))]].

(** [{ element: { component: 'X' } }] *)
Definition componentContext : Context :=
  literalObject [("element", VObject (Ref 1) [("component", VStr "X")])].

(** [{ element: { tag: 'button' } }] *)
Definition tagContext : Context :=
  literalObject [("element", VObject (Ref 1) [("tag", VStr "button")])].

(** [{ tree: { depth: 2 }, limit: '10' }] *)
Definition depthContext : Context :=
  literalObject [("tree", VObject (Ref 1) [("depth", VNum (Num.of_Z 2))]);
                 ("limit", VStr "10")].

(** ** Induction principles *)

(** Induction on trees, with the children of array literals and calls. *)
Section AstNode_induction.

Variable P : AstNode -> Prop.

Hypothesis P_literal : forall v, P (literal v).
Hypothesis P_identifier : forall name, P (identifier name).
Hypothesis P_memberAccess : forall object property,
  P object -> P (memberAccess object property).
Hypothesis P_arrayLiteral : forall elements,
  Forall P elements -> P (arrayLiteral elements).
Hypothesis P_methodCall : forall object method args,
  P object -> Forall P args -> P (methodCall object method args).
Hypothesis P_binaryOp : forall operator lhs rhs,
  P lhs -> P rhs -> P (binaryOp operator lhs rhs).
Hypothesis P_unaryOp : forall operator operand,
  P operand -> P (unaryOp operator operand).
Hypothesis P_parenthesized : forall expression,
  P expression -> P (parenthesized expression).

Fixpoint AstNode_nested_ind (node : AstNode) : P node :=
  let all := fix all (l : list AstNode) : Forall P l :=
    match l with
    | [] => Forall_nil P
    | x :: rest => Forall_cons x (AstNode_nested_ind x) (all rest)
    end in
  match node with
  | literal v => P_literal v
  | identifier name => P_identifier name
  | memberAccess object property =>
      P_memberAccess object property (AstNode_nested_ind object)
  | arrayLiteral elements => P_arrayLiteral elements (all elements)
  | methodCall object method args =>
      P_methodCall object method args (AstNode_nested_ind object) (all args)
  | binaryOp operator lhs rhs =>
      P_binaryOp operator lhs rhs (AstNode_nested_ind lhs) (AstNode_nested_ind rhs)
  | unaryOp operator operand => P_unaryOp operator operand (AstNode_nested_ind operand)
  | parenthesized expression =>
      P_parenthesized expression (AstNode_nested_ind expression)
  end.

End AstNode_induction.

(** Induction on values through the elements of arrays. *)
Section value_induction.

Variable P : value -> Prop.

Hypothesis P_array : forall r elements,
  Forall P elements -> P (VObj r (ArrayObject elements)).
Hypothesis P_other : forall v, JS.isArray v = false -> P v.

Fixpoint value_array_ind (v : value) : P v :=
  match v with
  | VObj r (ArrayObject elements) =>
      P_array r elements
        ((fix all (l : list value) : Forall P l :=
            match l with
            | [] => Forall_nil P
            | x :: rest => Forall_cons x (value_array_ind x) (all rest)
            end) elements)
  | v' => P_other v' eq_refl
  end.

End value_induction.

(** ** The parser: fuel, progress and operator tags *)

Module ParserFacts.
Import Parser.

Section Invariants.

Variable tokens : list Token.

Local Notation "'len'" := (List.length tokens).

Lemma post_bind {A B : Type} (m : M A) (k : A -> M B)
  (Q : A -> Prop) (R : B -> Prop) (lo lo' pos : nat) :
  post tokens Q lo (m pos) ->
  (forall a pos', (lo <= pos' <= len)%nat -> Q a -> post tokens R lo' (k a pos')) ->
  post tokens R lo' (bindM m k pos).
Proof.
  unfold bindM. destruct (m pos) as [[[a pos'] | e] | ]; simpl.
  - intros [Hpos HQ] Hk. now apply Hk.
  - trivial.
  - intros [].
Qed.

Lemma post_weaken {A : Type} (Q R : A -> Prop) (lo lo' : nat) r :
  post tokens Q lo r -> (lo' <= lo)%nat -> (forall a, Q a -> R a) -> post tokens R lo' r.
Proof.
  destruct r as [[[a pos'] | e] | ]; simpl; auto.
  intros [Hpos HQ] Hlo HQR. split; [lia | auto].
Qed.

Lemma post_ret {A : Type} (Q : A -> Prop) (a : A) (lo pos : nat) :
  (lo <= pos <= len)%nat -> Q a -> post tokens Q lo (ret a pos).
Proof. simpl. auto. Qed.

Lemma post_throw {A : Type} (Q : A -> Prop) (e : error) (lo pos : nat) :
  post tokens Q lo (@throw A e pos).
Proof. exact I. Qed.

Lemma nth_error_lt (pos : nat) (t : Token) :
  nth_error tokens pos = Some t -> (pos < len)%nat.
Proof. intros E. apply nth_error_Some. congruence. Qed.

(** After [peek] the method goes on at the same position, with a token
    that is there. *)
Lemma post_peek {B : Type} (k : Token -> M B) (R : B -> Prop) (lo pos : nat) :
  (forall t, nth_error tokens pos = Some t -> (pos < len)%nat ->
             post tokens R lo (k t pos)) ->
  post tokens R lo (bindM (peek tokens) k pos).
Proof.
  intros Hk. unfold bindM, peek.
  destruct (nth_error tokens pos) as [t | ] eqn:E; simpl; [ | exact I].
  apply Hk; [reflexivity | ]. now apply nth_error_lt with t.
Qed.

Lemma post_consume (pos : nat) :
  (pos < len)%nat ->
  post tokens (fun _ => True) (S pos) (consume tokens None pos).
Proof.
  intros Hpos. unfold consume. simpl. split; [lia | exact I].
Qed.

Lemma post_consume_expected (expected : TokenType) (pos : nat) :
  post tokens (fun o => exists t, o = Some t) (S pos) (consume tokens (Some expected) pos).
Proof.
  unfold consume. destruct (nth_error tokens pos) as [t | ] eqn:E; [ | exact I].
  destruct (negb _); [exact I | ]. simpl.
  apply nth_error_lt in E. split; [lia | eauto].
Qed.

Lemma post_valueOf (o : option Token) (pos : nat) :
  (pos <= len)%nat -> post tokens (fun _ => True) pos (valueOf o pos).
Proof. destruct o; simpl; auto. Qed.

Section Levels.

Variable parseOrRec : M AstNode.
Variable base : nat.

Hypothesis parseOrRec_post :
  forall pos, (base < pos <= len)%nat ->
    post tokens (fun a => wellTagged a = true) (S pos) (parseOrRec pos).

Local Notation "'tagged'" := (fun a => wellTagged a = true).
Local Notation "'allTagged'" := (fun l => forallb wellTagged l = true).

Lemma post_parseMore (n : nat) : forall (items : list AstNode) (pos : nat),
  (base <= pos)%nat -> (len - pos < n)%nat -> allTagged items ->
  post tokens allTagged pos (parseMore tokens parseOrRec n items pos).
Proof.
  induction n as [ | n IH]; intros items pos Hb Hn Hitems; [lia | ].
  simpl. apply post_peek. intros t _ Ht.
  destruct (isType t Tcomma).
  - eapply post_bind; [apply post_consume; lia | ].
    intros _ pos2 Hpos2 _.
    eapply post_bind; [apply parseOrRec_post; lia | ].
    intros item pos3 Hpos3 Hitem.
    eapply post_weaken; [apply IH | lia | auto]; try lia.
    rewrite forallb_app, Hitems. simpl. now rewrite Hitem.
  - apply post_ret; [lia | assumption].
Qed.

Lemma post_parseItems (closing : TokenType) (pos : nat) :
  (base < pos)%nat ->
  post tokens allTagged pos (parseItems tokens parseOrRec closing pos).
Proof.
  intros Hb. unfold parseItems. apply post_peek. intros t _ Ht.
  destruct (negb (isType t closing)).
  - eapply post_bind; [apply parseOrRec_post; lia | ].
    intros item pos2 Hpos2 Hitem.
    eapply post_weaken; [apply post_parseMore | lia | auto]; try lia.
    + unfold turns. lia.
    + simpl. now rewrite Hitem.
  - apply post_ret; [lia | reflexivity].
Qed.

Lemma post_parsePrimary (pos : nat) :
  (base <= pos)%nat ->
  post tokens tagged (S pos) (parsePrimary tokens parseOrRec pos).
Proof.
  intros Hb. unfold parsePrimary. apply post_peek. intros t _ Ht.
  destruct (type t); try apply post_throw;
    (eapply post_bind; [apply post_consume; lia | ]); intros _ pos2 Hpos2 _;
    try (apply post_ret; [lia | reflexivity]).
  - (* ( Or ) *)
    eapply post_bind; [apply parseOrRec_post; lia | ].
    intros expr pos3 Hpos3 Hexpr.
    eapply post_bind; [apply post_consume_expected | ].
    intros _ pos4 Hpos4 _. apply post_ret; [lia | assumption].
  - (* [ items ] *)
    eapply post_bind; [apply post_parseItems; lia | ].
    intros elements pos3 Hpos3 Helements.
    eapply post_bind; [apply post_consume_expected | ].
    intros _ pos4 Hpos4 _. apply post_ret; [lia | assumption].
Qed.

Lemma post_postfixLoop (n : nat) : forall (node : AstNode) (pos : nat),
  (base <= pos)%nat -> (len - pos < n)%nat -> tagged node ->
  post tokens tagged pos (postfixLoop tokens parseOrRec n node pos).
Proof.
  induction n as [ | n IH]; intros node pos Hb Hn Hnode; [lia | ].
  simpl. apply post_peek. intros t _ Ht.
  destruct (isType t Tdot); [ | apply post_ret; [lia | assumption]].
  eapply post_bind; [apply post_consume; lia | ].
  intros _ pos2 Hpos2 _.
  eapply post_bind; [apply post_consume_expected | ].
  intros prop pos3 Hpos3 _.
  eapply post_bind; [apply post_valueOf; lia | ].
  intros name pos4 Hpos4 _.
  apply post_peek. intros t' _ Ht'.
  destruct (isType t' Tlparen).
  - eapply post_bind; [apply post_consume; lia | ].
    intros _ pos5 Hpos5 _.
    eapply post_bind; [apply post_parseItems; lia | ].
    intros args pos6 Hpos6 Hargs.
    eapply post_bind; [apply post_consume_expected | ].
    intros _ pos7 Hpos7 _.
    eapply post_weaken; [apply IH | lia | auto]; try lia.
    simpl. now rewrite Hnode, Hargs.
  - eapply post_weaken; [apply IH | lia | auto]; try lia. assumption.
Qed.

Lemma post_parsePostfix (pos : nat) :
  (base <= pos)%nat ->
  post tokens tagged (S pos) (parsePostfix tokens parseOrRec pos).
Proof.
  intros Hb. unfold parsePostfix.
  eapply post_bind; [apply post_parsePrimary; lia | ].
  intros node pos2 Hpos2 Hnode.
  eapply post_weaken; [apply post_postfixLoop | lia | auto]; try lia.
  - unfold turns. lia.
  - assumption.
Qed.

Lemma post_parseUnaryN (n : nat) : forall pos : nat,
  (base <= pos)%nat -> (len - pos < n)%nat ->
  post tokens tagged (S pos) (parseUnaryN tokens parseOrRec n pos).
Proof.
  induction n as [ | n IH]; intros pos Hb Hn; [lia | ].
  simpl. apply post_peek. intros t _ Ht.
  destruct (isOperator t "!"); [ | now apply post_parsePostfix].
  eapply post_bind; [apply post_consume; lia | ].
  intros _ pos2 Hpos2 _.
  eapply post_bind; [apply IH; lia | ].
  intros operand pos3 Hpos3 Hoperand.
  apply post_ret; [lia | ]. simpl. assumption.
Qed.

Lemma post_parseUnary (pos : nat) :
  (base <= pos)%nat ->
  post tokens tagged (S pos) (parseUnary tokens parseOrRec pos).
Proof.
  intros Hb. apply post_parseUnaryN; [assumption | unfold turns; lia].
Qed.

Lemma isCompOp_known (t : Token) :
  isCompOp t = true -> knownBinary (text t) = true.
Proof.
  unfold isCompOp, knownBinary, compOps, binaryOperators. simpl.
  intros H. apply andb_prop in H as [_ H].
  repeat (apply orb_prop in H as [H | H]; [rewrite H; now rewrite ?orb_true_r | ]).
  discriminate.
Qed.

Lemma post_comparisonLoop (n : nat) : forall (node : AstNode) (pos : nat),
  (base <= pos)%nat -> (len - pos < n)%nat -> tagged node ->
  post tokens tagged pos (comparisonLoop tokens parseOrRec n node pos).
Proof.
  induction n as [ | n IH]; intros node pos Hb Hn Hnode; [lia | ].
  simpl. apply post_peek. intros t Et Ht.
  destruct (isCompOp t) eqn:Eop; [ | apply post_ret; [lia | assumption]].
  assert (Hstep :
    (opToken <~ consume tokens None ;; op <~ valueOf opToken ;;
     right <~ parseUnary tokens parseOrRec ;;
     comparisonLoop tokens parseOrRec n (binaryOp op node right)) pos =
    (right <~ parseUnary tokens parseOrRec ;;
     comparisonLoop tokens parseOrRec n (binaryOp (text t) node right)) (pos + 1)).
  { unfold bindM at 1 2. unfold consume. now rewrite Et. }
  rewrite Hstep.
  eapply post_bind; [apply post_parseUnary; lia | ].
  intros right pos3 Hpos3 Hright.
  eapply post_weaken; [apply IH | lia | auto]; try lia.
  simpl. now rewrite (isCompOp_known t Eop), Hnode, Hright.
Qed.

Lemma post_parseComparison (pos : nat) :
  (base <= pos)%nat ->
  post tokens tagged (S pos) (parseComparison tokens parseOrRec pos).
Proof.
  intros Hb. unfold parseComparison.
  eapply post_bind; [apply post_parseUnary; lia | ].
  intros node pos2 Hpos2 Hnode.
  eapply post_weaken; [apply post_comparisonLoop | lia | auto]; try lia.
  - unfold turns. lia.
  - assumption.
Qed.

Lemma post_andLoop (n : nat) : forall (node : AstNode) (pos : nat),
  (base <= pos)%nat -> (len - pos < n)%nat -> tagged node ->
  post tokens tagged pos (andLoop tokens parseOrRec n node pos).
Proof.
  induction n as [ | n IH]; intros node pos Hb Hn Hnode; [lia | ].
  simpl. apply post_peek. intros t _ Ht.
  destruct (isOperator t "&&"); [ | apply post_ret; [lia | assumption]].
  eapply post_bind; [apply post_consume; lia | ].
  intros _ pos2 Hpos2 _.
  eapply post_bind; [apply post_parseComparison; lia | ].
  intros right pos3 Hpos3 Hright.
  eapply post_weaken; [apply IH | lia | auto]; try lia.
  simpl. now rewrite Hnode, Hright.
Qed.

Lemma post_parseAnd (pos : nat) :
  (base <= pos)%nat ->
  post tokens tagged (S pos) (parseAnd tokens parseOrRec pos).
Proof.
  intros Hb. unfold parseAnd.
  eapply post_bind; [apply post_parseComparison; lia | ].
  intros node pos2 Hpos2 Hnode.
  eapply post_weaken; [apply post_andLoop | lia | auto]; try lia.
  - unfold turns. lia.
  - assumption.
Qed.

Lemma post_orLoop (n : nat) : forall (node : AstNode) (pos : nat),
  (base <= pos)%nat -> (len - pos < n)%nat -> tagged node ->
  post tokens tagged pos (orLoop tokens parseOrRec n node pos).
Proof.
  induction n as [ | n IH]; intros node pos Hb Hn Hnode; [lia | ].
  simpl. apply post_peek. intros t _ Ht.
  destruct (isOperator t "||"); [ | apply post_ret; [lia | assumption]].
  eapply post_bind; [apply post_consume; lia | ].
  intros _ pos2 Hpos2 _.
  eapply post_bind; [apply post_parseAnd; lia | ].
  intros right pos3 Hpos3 Hright.
  eapply post_weaken; [apply IH | lia | auto]; try lia.
  simpl. now rewrite Hnode, Hright.
Qed.

Lemma post_parseOrBody (pos : nat) :
  (base <= pos)%nat ->
  post tokens tagged (S pos) (parseOrBody tokens parseOrRec pos).
Proof.
  intros Hb. unfold parseOrBody.
  eapply post_bind; [apply post_parseAnd; lia | ].
  intros node pos2 Hpos2 Hnode.
  eapply post_weaken; [apply post_orLoop | lia | auto]; try lia.
  - unfold turns. lia.
  - assumption.
Qed.

End Levels.

(** With a depth above the number of tokens left, [parseOr] returns or
    throws, moves forward, and tags every operator node with an operator
    of the language. *)
Lemma post_parseOr (depth : nat) : forall pos : nat,
  (len - pos < depth)%nat ->
  post tokens (fun a => wellTagged a = true) (S pos) (parseOr tokens depth pos).
Proof.
  induction depth as [ | depth IH]; intros pos Hd; [lia | ].
  simpl. apply post_parseOrBody with (base := pos); [ | lia].
  intros pos' Hpos'. apply IH. lia.
Qed.

Lemma post_parseM :
  post tokens (fun a => wellTagged a = true) 1 (parseM tokens 0).
Proof.
  unfold parseM.
  eapply post_bind; [apply post_parseOr; unfold turns; lia | ].
  intros node pos Hpos Hnode. apply post_peek. intros t _ Ht.
  destruct (negb _); [exact I | ]. apply post_ret; [lia | assumption].
Qed.

End Invariants.

(** [parse] never takes its out-of-fuel case. *)
Lemma parse_fuel (tokens : list Token) : parseM tokens 0 <> None.
Proof.
  intros E. pose proof (post_parseM tokens) as H. now rewrite E in H.
Qed.

(** A tree the parser builds carries only operators of the language. *)
Lemma parse_wellTagged (tokens : list Token) (ast : AstNode) :
  parse tokens = Ok ast -> wellTagged ast = true.
Proof.
  unfold parse. intros E. pose proof (post_parseM tokens) as H.
  destruct (parseM tokens 0) as [[[node pos] | e] | ]; [ | discriminate | destruct H].
  injection E as <-. apply H.
Qed.

End ParserFacts.

(** ** The test suite of the package, run on the model *)

Example suite_compileExpression :
  map (fun e => run e baseContext)
    ["element.tag === 'button'"; "element.tag !== 'div'";
     "['button', 'a', 'input'].includes(element.tag)";
     "['div', 'span'].includes(element.tag)"; "element.isComponent";
     "!element.hasText"; "element.childCount > 0";
     "element.tag === 'button' && element.isComponent";
     "element.tag === 'div' || element.tag === 'button'"; "true";
     "declaration.property === 'color'"; "element.component.doesNotExist";
     "element.childCount === 0"; "element.childCount == '3'";
     "element.childCount != '4'"; "tree.depth < 3"; "tree.depth >= 2";
     "tree.depth === 2.0"; "tree.depth > 1.5"; "tree.depth <= 3";
     "(element.tag === 'button') && (tree.depth > 1)";
     "element.component !== null"; "'unterminated\"]
  = [Ok (VBool true); Ok (VBool true); Ok (VBool true); Ok (VBool false);
     Ok (VBool true); Ok (VBool false); Ok (VBool true); Ok (VBool true);
     Ok (VBool true); Ok (VBool true); Ok (VBool true); Ok VUndefined;
     Ok (VBool false); Ok (VBool true); Ok (VBool true); Ok (VBool true);
     Ok (VBool true); Ok (VBool true); Ok (VBool true); Ok (VBool true);
     Ok (VBool true); Ok (VBool true); Ok (VStr "unterminated")].
Proof. vm_compute. reflexivity. Qed.

Example suite_escaped_quote :
  run "element.tag === 'but\'ton'"
      (literalObject [("element", VObject (Ref 1) [("tag", VStr "but'ton")])])
  = Ok (VBool true).
Proof. vm_compute. reflexivity. Qed.

Example suite_syntax_errors :
  map (fun e => isSyntax (compile e))
    ["invalid!!!syntax"; "element.tag === "; "element.()";
     "element.childCount ** 2"; "==="]
  = [true; true; true; true; true] /\
  compile "element.()"
  = Err (ExpressionSyntaxError "Expected identifier, got lparen ('(')") /\
  compile "element.tag ===" = Err (ExpressionSyntaxError "Unexpected token: ''").
Proof. repeat split; vm_compute; reflexivity. Qed.

Example suite_security :
  map (fun e => run e baseContext)
    ["window.location"; "document.cookie"; "element.tag.replace('a', 'b')";
     "element.tag.includes('a')"; "globalThis"; "toString"; "constructor";
     "element.toString"; "element.constructor"; "element.__proto__";
     "element.doesNotExist"]
  = map (fun m => Err (ExpressionSecurityError m))
    ["Access to 'window' is not allowed"; "Access to 'document' is not allowed";
     "Method 'replace' is not allowed"; "'includes' can only be called on arrays";
     "Access to 'globalThis' is not allowed"; "Access to 'toString' is not allowed";
     "Access to 'constructor' is not allowed"; "Access to 'toString' is not allowed";
     "Access to 'constructor' is not allowed"; "Access to '__proto__' is not allowed";
     "Access to 'doesNotExist' is not allowed"] /\
  isErr (compile "window.location") = false.
Proof. split; vm_compute; reflexivity. Qed.

Example suite_safeEvaluateExpression :
  safeEvaluateExpression "invalid!!!syntax" baseContext = VBool false /\
  safeEvaluateExpression "window.location" baseContext = VBool false /\
  safeEvaluateExpression "element.tag === 'button'" baseContext = VBool true.
Proof. repeat split; vm_compute; reflexivity. Qed.

Example suite_evaluateShowWhen :
  evaluateShowWhen (Some []) baseContext = true /\
  evaluateShowWhen None baseContext = true /\
  evaluateShowWhen (Some ["element.tag === 'div'"; "element.tag === 'button'"])
    baseContext = true /\
  evaluateShowWhen (Some ["element.tag === 'div'"; "element.tag === 'span'"])
    baseContext = false.
Proof. repeat split; vm_compute; reflexivity. Qed.

(** ** Numbers and conversions, on known values *)

Example number_of_text :
  map Num.StringToNumber ["1.5"; "0.1"; " 12 "; ""; "0x1F"; "1e3"; "1."; "1.2.3"; "abc"]
  = [S754_finite false 6755399441055744 (-52);
     S754_finite false 7205759403792794 (-56);
     Num.of_Z 12; Num.zero; Num.of_Z 31; Num.of_Z 1000; Num.of_Z 1;
     Num.NaN; Num.NaN].
Proof. vm_compute. reflexivity. Qed.

Example text_of_number :
  map (fun s => Num.NumberToString (Num.StringToNumber s))
    ["1.5"; "2.0"; "0.1"; "0.30000000000000004"; "1e21"; "123456789012345680000";
     "0.000001"; "0.0000001"; "5e-324"; "1.7976931348623157e308"; "1e400"; "-0"]
  = ["1.5"; "2"; "0.1"; "0.30000000000000004"; "1e+21"; "123456789012345680000";
     "0.000001"; "1e-7"; "5e-324"; "1.7976931348623157e+308"; "Infinity"; "0"].
Proof. vm_compute. reflexivity. Qed.

Example loose_equality :
  map (fun xy => JS.IsLooselyEqual (fst xy) (snd xy))
    [(VNum (Num.of_Z 3), VStr "3"); (VNull, VUndefined); (VNull, VNum Num.zero);
     (VBool true, VStr "1"); (VStr "", VNum Num.zero);
     (VArray Fresh [VNum (Num.of_decimal 15 (-1))], VStr "1.5");
     (VArray (Ref 1) [], VArray (Ref 1) []); (VArray Fresh [], VArray Fresh []);
     (VNum Num.NaN, VNum Num.NaN);
     (VObj (Ref 2) (PlainObject (literalObject [("toString", VStr "x")])), VStr "x")]
  = [Ok true; Ok true; Ok false; Ok true; Ok true; Ok true; Ok true; Ok false;
     Ok false; Err TypeError].
Proof. vm_compute. reflexivity. Qed.

(** ** Reading names: identifiers and member access *)

Lemma hasOwn_lookup (o : object value) (k : string) :
  JS.hasOwn (PlainObject o) k = true <-> exists p, JS.lookup (own o) k = Some p.
Proof.
  simpl. destruct (JS.lookup (own o) k) as [p | ]; split; eauto.
  - discriminate.
  - intros [p E]. discriminate.
Qed.

(** An own property hides whatever the prototype chain holds. *)
Lemma Get_own (o : object value) (k : string) (p : property value) :
  JS.lookup (own o) k = Some p -> JS.Get (PlainObject o) k = pvalue p.
Proof. intros E. simpl. now rewrite E. Qed.

(** C1. The node [identifier n] evaluates to the value of the own
    property [n] of the context when there is one; otherwise the
    evaluation fails with the Security error that names [n], and so is
    never the value [undefined]. *)
Theorem identifier_own_or_security (c : Context) (n : string) :
  evaluateNode (identifier n) c =
    match JS.lookup (own c) n with
    | Some p => Ok (pvalue p)
    | None =>
        Err (ExpressionSecurityError ("Access to '" ++ n ++ "' is not allowed"))
    end.
Proof.
  simpl. destruct (JS.lookup (own c) n) as [p | ]; reflexivity.
Qed.

(** C2, as stated, fails: [length] is an own property of an array that is
    not enumerable, and [items.length] reads it. *)
Lemma own_non_enumerable_is_read :
  compile "items.length" = Ok (memberAccess (identifier "items") "length") /\
  evaluateNode (identifier "items") itemsContext
    = Ok (VObj (Ref 1) (ArrayObject [VNum (Num.of_Z 1); VNum (Num.of_Z 2)])) /\
  ownEnumerable (ArrayObject [VNum (Num.of_Z 1); VNum (Num.of_Z 2)]) "length" = false /\
  JS.hasOwn (ArrayObject [VNum (Num.of_Z 1); VNum (Num.of_Z 2)]) "length" = true /\
  evaluateNode (memberAccess (identifier "items") "length") itemsContext
    = Ok (VNum (Num.of_Z 2)).
Proof. repeat split; vm_compute; reflexivity. Qed.

(** C2, amended.  Only own keys are visible, enumerable or not.  A key
    that is not an own key of the context, or of the object a member
    access reads, fails with the Security error naming it, also when the
    prototype chain has it; an own key is read, whatever its
    [enumerable] attribute. *)
Theorem own_keys_only (c : Context) (object : AstNode) (r : ref)
  (o : heapObject value) (k : string) :
  evaluateNode object c = Ok (VObj r o) ->
  (JS.hasOwn (PlainObject c) k = false ->
     evaluateNode (identifier k) c = Err (notAllowed k)) /\
  (JS.hasOwn o k = false ->
     evaluateNode (memberAccess object k) c = Err (notAllowed k)) /\
  (forall p, JS.lookup (own c) k = Some p ->
     evaluateNode (identifier k) c = Ok (pvalue p)) /\
  (JS.hasOwn o k = true ->
     evaluateNode (memberAccess object k) c = Ok (JS.Get o k)).
Proof.
  intros Eobj. repeat split.
  - intros H. simpl in *. now rewrite H.
  - intros H. simpl. rewrite Eobj. simpl. now rewrite H.
  - intros p H. simpl. now rewrite H.
  - intros H. simpl. rewrite Eobj. simpl. now rewrite H.
Qed.

Lemma own_keys_only_witness :
  JS.Get inheritingElement "secret" = VStr "s" /\
  evaluateNode (memberAccess (identifier "element") "secret") inheritingContext
    = Err (notAllowed "secret") /\
  evaluateNode (identifier "ambient") inheritingContext = Err (notAllowed "ambient") /\
  evaluateNode (memberAccess (identifier "element") "hidden") inheritingContext
    = Ok (VStr "h").
Proof.
  destruct (own_keys_only inheritingContext (identifier "element") (Ref 1)
              inheritingElement "secret" eq_refl) as (_ & Hsecret & _ & _).
  destruct (own_keys_only inheritingContext (identifier "element") (Ref 1)
              inheritingElement "ambient" eq_refl) as (Hambient & _ & _ & _).
  destruct (own_keys_only inheritingContext (identifier "element") (Ref 1)
              inheritingElement "hidden" eq_refl) as (_ & _ & _ & Hhidden).
  split; [reflexivity | ].
  split; [apply Hsecret; reflexivity | ].
  split; [apply Hambient; reflexivity | ].
  apply Hhidden; reflexivity.
Defined.

(** ** Member access *)

Lemma nullOrNotObject_false (v : value) :
  nullOrNotObject v = false -> exists r o, v = VObj r o.
Proof. destruct v; simpl; try discriminate. eauto. Qed.

(** C5. Once [object] has evaluated to [v]: if [v] is null or not an
    object the access is [undefined], without failing; otherwise [v] is an
    object and the own-key rule applies, an absent key failing with the
    Security error naming it. *)
Theorem memberAccess_value (c : Context) (object : AstNode) (property : string)
  (v : value) :
  evaluateNode object c = Ok v ->
  (nullOrNotObject v = true ->
     evaluateNode (memberAccess object property) c = Ok VUndefined) /\
  (nullOrNotObject v = false ->
     exists r o, v = VObj r o /\
       evaluateNode (memberAccess object property) c =
         if JS.hasOwn o property then Ok (JS.Get o property)
         else Err (ExpressionSecurityError
                     ("Access to '" ++ property ++ "' is not allowed"))).
Proof.
  intros Eobj. split; intros Hv.
  - simpl. rewrite Eobj. destruct v; try reflexivity. discriminate.
  - destruct (nullOrNotObject_false v Hv) as (r & o & ->).
    exists r, o. split; [reflexivity | ].
    simpl. rewrite Eobj. simpl. now destruct (JS.hasOwn o property).
Qed.

Lemma memberAccess_value_witness :
  evaluateNode (memberAccess (memberAccess (identifier "element") "component")
                             "doesNotExist") componentContext = Ok VUndefined /\
  evaluateNode (memberAccess (identifier "element") "doesNotExist") componentContext
    = Err (ExpressionSecurityError "Access to 'doesNotExist' is not allowed").
Proof.
  split.
  - apply (memberAccess_value componentContext
             (memberAccess (identifier "element") "component") "doesNotExist"
             (VStr "X") eq_refl); reflexivity.
  - destruct (memberAccess_value componentContext (identifier "element")
                "doesNotExist" _ eq_refl) as [_ H].
    destruct (H eq_refl) as (r & o & Ev & Hres).
    injection Ev as <- <-. exact Hres.
Defined.

(** ** Logical operators *)

(** C6. With [l] evaluated to [v]: [l && r] is [v] itself when [v] is
    falsy, whatever [r] is -- [r] is not evaluated, so a failing [r] does
    not fail -- and the result of [r] otherwise; [l || r] is [v] itself
    when [v] is truthy, whatever [r] is, and the result of [r]
    otherwise. *)
Theorem logical_short_circuit (c : Context) (l : AstNode) (v : value) :
  evaluateNode l c = Ok v ->
  (JS.ToBoolean v = false ->
     forall r, evaluateNode (binaryOp "&&" l r) c = Ok v) /\
  (JS.ToBoolean v = true ->
     forall r, evaluateNode (binaryOp "&&" l r) c = evaluateNode r c) /\
  (JS.ToBoolean v = true ->
     forall r, evaluateNode (binaryOp "||" l r) c = Ok v) /\
  (JS.ToBoolean v = false ->
     forall r, evaluateNode (binaryOp "||" l r) c = evaluateNode r c).
Proof.
  intros El. repeat split; intros Hv r; simpl; rewrite El; simpl; now rewrite Hv.
Qed.


Lemma logical_short_circuit_witness :
  evaluateNode (identifier "window") emptyContext = Err (notAllowed "window") /\
  evaluateNode (binaryOp "&&" (literal (LBoolean false)) (identifier "window"))
    emptyContext = Ok (VBool false) /\
  evaluateNode (binaryOp "||" (literal (LString "a")) (identifier "window"))
    emptyContext = Ok (VStr "a") /\
  evaluateNode (binaryOp "&&" (literal (LString "a")) (literal LNull))
    emptyContext = Ok VNull /\
  evaluateNode (binaryOp "||" (literal (LString "")) (literal LNull))
    emptyContext = Ok VNull.
Proof.
  split; [reflexivity | ].
  split.
  { apply (logical_short_circuit emptyContext (literal (LBoolean false))
             (VBool false) eq_refl); reflexivity. }
  split.
  { apply (logical_short_circuit emptyContext (literal (LString "a"))
             (VStr "a") eq_refl); reflexivity. }
  split.
  { destruct (logical_short_circuit emptyContext (literal (LString "a"))
             (VStr "a") eq_refl) as (_ & H & _). now rewrite H. }
  destruct (logical_short_circuit emptyContext (literal (LString ""))
             (VStr "") eq_refl) as (_ & _ & _ & H). now rewrite H.
Defined.

(** ** Method calls *)

(** [SameValueZero] is [===] with [NaN] made the same as [NaN]. *)
Lemma SameValueZero_strict (x y : value) :
  JS.SameValueZero x y = JS.IsStrictlyEqual x y || (isNaNValue x && isNaNValue y).
Proof.
  destruct x, y; simpl; rewrite ?orb_false_r, ?andb_false_r; try reflexivity.
  unfold Num.sameValueZero. apply orb_comm.
Qed.

(** C4, as stated, fails: the array [[NaN]] includes [NaN], which is
    strictly equal to nothing.  ([1.2.3] is lexed as one number, [NaN].) *)
Lemma includes_NaN_not_strict :
  compile "[1.2.3].includes(1.2.3)"
    = Ok (methodCall (arrayLiteral [literal (LNumber Num.NaN)]) "includes"
            [literal (LNumber Num.NaN)]) /\
  evaluateNode (methodCall (arrayLiteral [literal (LNumber Num.NaN)]) "includes"
                  [literal (LNumber Num.NaN)]) emptyContext = Ok (VBool true) /\
  existsb (fun e => JS.IsStrictlyEqual e (VNum Num.NaN)) [VNum Num.NaN] = false.
Proof. repeat split; vm_compute; reflexivity. Qed.

(** C4, amended. With the receiver evaluated to [v]: a method other than
    [includes] fails with a Security error, and so does [includes] when
    [v] is not an array; when [v] is an array and a first argument is
    given, that argument alone is evaluated, and the call is [true]
    exactly when some element of the array is strictly equal to its value
    or is [NaN] as that value is. *)
Theorem methodCall_includes (c : Context) (object : AstNode) (v : value) :
  evaluateNode object c = Ok v ->
  (forall method args, String.eqb method "includes" = false ->
     evaluateNode (methodCall object method args) c
       = Err (ExpressionSecurityError ("Method '" ++ method ++ "' is not allowed"))) /\
  (forall args, JS.isArray v = false ->
     evaluateNode (methodCall object "includes" args) c
       = Err (ExpressionSecurityError "'includes' can only be called on arrays")) /\
  (forall r items arg0 more a,
     v = VObj r (ArrayObject items) ->
     evaluateNode arg0 c = Ok a ->
     exists b,
       evaluateNode (methodCall object "includes" (arg0 :: more)) c = Ok (VBool b) /\
       (b = true <->
        exists e, In e items /\
          (JS.IsStrictlyEqual e a = true \/
           (isNaNValue e = true /\ isNaNValue a = true)))).
Proof.
  intros Eobj. repeat split.
  - intros method args Hm. simpl. rewrite Eobj. simpl. now rewrite Hm.
  - intros args Hv. simpl. rewrite Eobj. simpl.
    destruct v as [ | | | | | r [items | o]]; try reflexivity. discriminate.
  - intros r items arg0 more a -> Earg.
    exists (JS.includes items a). split.
    + simpl. rewrite Eobj. simpl. now rewrite Earg.
    + unfold JS.includes. rewrite existsb_exists.
      split; intros (e & Hin & He); exists e; (split; [assumption | ]);
        rewrite SameValueZero_strict in *.
      * apply orb_prop in He as [He | He]; [now left | right].
        now apply andb_prop in He.
      * destruct He as [-> | [-> ->]]; [reflexivity | apply orb_true_r].
Qed.

Lemma methodCall_includes_witness :
  evaluateNode (methodCall (memberAccess (identifier "element") "tag") "replace"
                  [literal (LString "a"); literal (LString "b")]) tagContext
    = Err (ExpressionSecurityError "Method 'replace' is not allowed") /\
  evaluateNode (methodCall (memberAccess (identifier "element") "tag") "includes"
                  [literal (LString "a")]) tagContext
    = Err (ExpressionSecurityError "'includes' can only be called on arrays") /\
  evaluateNode (methodCall (arrayLiteral [literal (LString "button"); literal (LString "a")])
                  "includes"
                  [memberAccess (identifier "element") "tag"; identifier "window"])
               tagContext
    = Ok (VBool true).
Proof.
  split.
  { apply (methodCall_includes tagContext (memberAccess (identifier "element") "tag")
             (VStr "button") eq_refl); reflexivity. }
  split.
  { apply (methodCall_includes tagContext (memberAccess (identifier "element") "tag")
             (VStr "button") eq_refl); reflexivity. }
  destruct (methodCall_includes tagContext
              (arrayLiteral [literal (LString "button"); literal (LString "a")])
              (VObj Fresh (ArrayObject [VStr "button"; VStr "a"])) eq_refl)
    as (_ & _ & H).
  destruct (H Fresh [VStr "button"; VStr "a"]
              (memberAccess (identifier "element") "tag") [identifier "window"]
              (VStr "button") eq_refl eq_refl) as (b & Hres & Hb).
  rewrite Hres. f_equal. f_equal. apply Hb.
  exists (VStr "button"). split; [now left | now left].
Defined.

(** ** The safe entry points *)

(** C8. [safeEvaluateExpression] always returns: [false] when lexing or
    parsing fails, [false] when the evaluation fails (with a Security
    error or any other), and otherwise the value of the evaluation as it
    is.  The parser never runs out of fuel on the way. *)
Theorem safeEvaluateExpression_never_fails (source : string) (c : Context) :
  match tokenize source with
  | Err _ => safeEvaluateExpression source c = VBool false
  | Ok tokens =>
      match Parser.parseM tokens 0 with
      | None => False
      | Some (Err _) => safeEvaluateExpression source c = VBool false
      | Some (Ok (ast, _)) =>
          match evaluateNode ast c with
          | Ok v => safeEvaluateExpression source c = v
          | Err _ => safeEvaluateExpression source c = VBool false
          end
      end
  end.
Proof.
  unfold safeEvaluateExpression, compileExpression, compile, Parser.parse.
  destruct (tokenize source) as [tokens | e]; simpl; [ | reflexivity].
  pose proof (ParserFacts.parse_fuel tokens) as Hfuel.
  destruct (Parser.parseM tokens 0) as [[[ast pos] | e] | ]; simpl;
    [ | reflexivity | now apply Hfuel].
  destruct (evaluateNode ast c); reflexivity.
Qed.

(** C9. [evaluateShowWhen] is [true] on an absent and on an empty list;
    on a non-empty list it is the disjunction of the truthiness of
    [safeEvaluateExpression] over the entries, and it is [true] as soon
    as an entry is truthy after falsy ones, whatever follows. *)
Theorem evaluateShowWhen_or (c : Context) :
  evaluateShowWhen None c = true /\
  evaluateShowWhen (Some []) c = true /\
  (forall l, l <> [] ->
     evaluateShowWhen (Some l) c
       = existsb (fun e => JS.ToBoolean (safeEvaluateExpression e c)) l) /\
  (forall before e after,
     forallb (fun x => negb (JS.ToBoolean (safeEvaluateExpression x c))) before = true ->
     JS.ToBoolean (safeEvaluateExpression e c) = true ->
     evaluateShowWhen (Some (before ++ e :: after)%list) c = true).
Proof.
  assert (Hsome : forall l, someTruthy l c
            = existsb (fun e => JS.ToBoolean (safeEvaluateExpression e c)) l).
  { induction l as [ | e l IH]; simpl; [reflexivity | ].
    rewrite IH. now destruct (JS.ToBoolean _). }
  repeat split.
  - intros l Hl. destruct l as [ | e l]; [congruence | ]. apply Hsome.
  - intros before e after Hbefore He.
    assert (Hgo : someTruthy (before ++ e :: after) c = true).
    { induction before as [ | x before IH]; simpl in *.
      - now rewrite He.
      - apply andb_prop in Hbefore as [Hx Hrest].
        apply negb_true_iff in Hx. rewrite Hx. now apply IH. }
    destruct before; simpl in *; exact Hgo.
Qed.

Lemma evaluateShowWhen_or_witness :
  evaluateShowWhen (Some ["element.tag === 'div'"; "element.tag === 'span'"])
    tagContext = false /\
  evaluateShowWhen (Some ["element.tag === 'div'"; "element.tag === 'button'"; "window"])
    tagContext = true.
Proof.
  destruct (evaluateShowWhen_or tagContext) as (_ & _ & Hor & Hstop).
  split.
  - rewrite Hor; [reflexivity | discriminate].
  - apply (Hstop ["element.tag === 'div'"] "element.tag === 'button'" ["window"]);
      reflexivity.
Defined.

(** ** Relational operators *)

Lemma SFcompare_antisym (x y : number) :
  SFcompare y x = option_map CompOpp (SFcompare x y).
Proof.
  destruct x as [sx | sx | | sx mx ex], y as [sy | sy | | sy my ey]; simpl;
    try reflexivity;
    try (destruct sx; reflexivity); try (destruct sy; reflexivity);
    try (destruct sx, sy; reflexivity).
  destruct sx, sy; simpl; try reflexivity;
    rewrite (Z.compare_antisym ex ey); destruct (ex ?= ey)%Z; simpl; try reflexivity;
    rewrite ?(Pos.compare_cont_antisym mx my Eq); reflexivity.
Qed.

Lemma SFcompare_NaN (x y : number) :
  Num.isNaN x = false -> Num.isNaN y = false -> SFcompare x y <> None.
Proof.
  destruct x as [sx | sx | | sx mx ex], y as [sy | sy | | sy my ey]; simpl;
    try discriminate; intros _ _;
    try (destruct sx; discriminate); try (destruct sy; discriminate).
Qed.

(** Away from [NaN], "not less than" is "greater than or equal". *)
Lemma negb_ltb_leb (x y : number) :
  Num.isNaN x = false -> Num.isNaN y = false ->
  negb (Num.ltb y x) = Num.leb x y.
Proof.
  intros Hx Hy. unfold Num.ltb, Num.leb, SFltb, SFleb.
  rewrite (SFcompare_antisym x y).
  pose proof (SFcompare_NaN x y Hx Hy) as H.
  destruct (SFcompare x y) as [[ | | ] | ]; simpl; congruence.
Qed.

Lemma order_NaN (x y : number) :
  Num.isNaN x || Num.isNaN y = true ->
  Num.ltb x y = false /\ Num.leb x y = false.
Proof.
  unfold Num.ltb, Num.leb, SFltb, SFleb.
  destruct x, y; simpl; try discriminate; auto.
Qed.

Lemma negb_string_ltb_leb (a b : string) :
  negb (String.ltb b a) = String.leb a b.
Proof.
  unfold String.ltb, String.leb. rewrite (String.compare_antisym a b).
  destruct (b ?= a)%string; reflexivity.
Qed.

Lemma primitive_order (operator : string) (px py : value) :
  In operator relationalOperators ->
  (if String.eqb operator ">" then
     match JS.lessThanPrimitive py px with Some b => b | None => false end
   else if String.eqb operator "<" then
     match JS.lessThanPrimitive px py with Some b => b | None => false end
   else if String.eqb operator ">=" then
     match JS.lessThanPrimitive px py with Some b => negb b | None => false end
   else
     match JS.lessThanPrimitive py px with Some b => negb b | None => false end)
  = match px, py with
    | VStr a, VStr b => stringOrder operator a b
    | _, _ => numericOrder operator (JS.ToNumber px) (JS.ToNumber py)
    end.
Proof.
  assert (Hnum : forall x y : number,
    (if String.eqb operator ">" then
       if Num.isNaN y || Num.isNaN x then false else Num.ltb y x
     else if String.eqb operator "<" then
       if Num.isNaN x || Num.isNaN y then false else Num.ltb x y
     else if String.eqb operator ">=" then
       if Num.isNaN x || Num.isNaN y then false else negb (Num.ltb x y)
     else
       if Num.isNaN y || Num.isNaN x then false else negb (Num.ltb y x))
    = numericOrder operator x y).
  { intros x y. unfold numericOrder.
    destruct (Num.isNaN x || Num.isNaN y) eqn:E.
    - rewrite (orb_comm (Num.isNaN y)), E.
      destruct (order_NaN x y E) as [-> ->].
      rewrite orb_comm in E. destruct (order_NaN y x E) as [-> ->].
      repeat destruct (String.eqb _ _); reflexivity.
    - rewrite (orb_comm (Num.isNaN y)), E.
      apply orb_false_elim in E as [Ex Ey].
      rewrite (negb_ltb_leb y x Ey Ex), (negb_ltb_leb x y Ex Ey).
      repeat destruct (String.eqb _ _); reflexivity. }
  intros Hop.
  destruct px as [ | | bx | x | a | rx ox], py as [ | | by_ | y | b | ry oy];
    unfold JS.lessThanPrimitive;
    try (rewrite <- Hnum;
         repeat match goal with
                | |- context [if ?b then _ else _] => destruct b
                end; reflexivity).
  unfold stringOrder. rewrite <- !negb_string_ltb_leb.
  repeat destruct (String.eqb _ _); reflexivity.
Qed.

(** C7, as stated, fails: two numeric strings are compared as strings,
    ['10' > '9'] being false though 10 is greater than 9. *)
Lemma numeric_strings_compare_as_strings :
  compile "'10' > '9'"
    = Ok (binaryOp ">" (literal (LString "10")) (literal (LString "9"))) /\
  evaluateNode (binaryOp ">" (literal (LString "10")) (literal (LString "9")))
    emptyContext = Ok (VBool false) /\
  numericOrder ">" (JS.ToNumber (VStr "10")) (JS.ToNumber (VStr "9")) = true.
Proof. repeat split; vm_compute; reflexivity. Qed.

(** C7, amended.  For [>], [<], [>=] and [<=], with the operands
    evaluated and converted to primitives (an object or array through its
    string form): if both primitives are strings the result is their
    order by code units; otherwise both are converted to numbers and the
    result is their numeric order, false as soon as one is [NaN]. *)
Theorem relational_operators (c : Context) (operator : string) (l r : AstNode)
  (x y px py : value) :
  In operator relationalOperators ->
  evaluateNode l c = Ok x ->
  evaluateNode r c = Ok y ->
  JS.ToPrimitive x = Ok px ->
  JS.ToPrimitive y = Ok py ->
  evaluateNode (binaryOp operator l r) c =
    Ok (VBool match px, py with
              | VStr a, VStr b => stringOrder operator a b
              | _, _ => numericOrder operator (JS.ToNumber px) (JS.ToNumber py)
              end).
Proof.
  intros Hop El Er Hx Hy.
  rewrite <- (primitive_order operator px py Hop).
  simpl in Hop.
  destruct Hop as [<- | [<- | [<- | [<- | []]]]]; simpl; rewrite El, Er; simpl;
    unfold applyBinary; simpl;
    unfold JS.greaterThan, JS.lessThan, JS.greaterThanOrEqual, JS.lessThanOrEqual;
    rewrite Hx, Hy; reflexivity.
Qed.

Lemma relational_operators_witness :
  evaluateNode (binaryOp "<=" (memberAccess (identifier "tree") "depth")
                              (identifier "limit")) depthContext
    = Ok (VBool true) /\
  evaluateNode (binaryOp "<" (literal (LString "10")) (literal (LString "9")))
    depthContext = Ok (VBool true).
Proof.
  split.
  - rewrite (relational_operators depthContext "<="
               (memberAccess (identifier "tree") "depth") (identifier "limit")
               (VNum (Num.of_Z 2)) (VStr "10") (VNum (Num.of_Z 2)) (VStr "10"));
      try reflexivity.
    simpl. tauto.
  - rewrite (relational_operators depthContext "<"
               (literal (LString "10")) (literal (LString "9"))
               (VStr "10") (VStr "9") (VStr "10") (VStr "9"));
      try reflexivity.
    simpl. tauto.
Defined.

(** ** Numbers with more than one decimal point *)

Ltac each_character c :=
  destruct c as [[ | ] [ | ] [ | ] [ | ] [ | ] [ | ] [ | ] [ | ]];
  try discriminate; try reflexivity.

(** What the lexer and [StringToNumber] ask of a digit or a dot. *)
Lemma digit_not_special (c : ascii) :
  isDigit c = true ->
  isWhiteSpace c = false /\ Ascii.eqb c "'" = false /\ Ascii.eqb c doubleQuote = false /\
  Ascii.eqb c "." = false /\ Ascii.eqb c "+" = false /\ Ascii.eqb c "-" = false /\
  Ascii.eqb c "I" = false.
Proof. each_character c; intros _; repeat split. Qed.

Lemma digitOrDot_cases (c : ascii) :
  isDigitOrDot c = true ->
  (isDigit c = true /\ isDot c = false) \/ (c = "."%char /\ isDigit c = false).
Proof.
  unfold isDigitOrDot, isDot. destruct (Ascii.eqb c ".") eqn:E.
  - apply Ascii.eqb_eq in E. subst c. now right.
  - rewrite orb_false_r. now left.
Qed.

Lemma digitOrDot_not_special (c : ascii) :
  isDigitOrDot c = true ->
  isWhiteSpace c = false /\
  (Ascii.eqb c "x" || Ascii.eqb c "X") = false /\
  (Ascii.eqb c "o" || Ascii.eqb c "O") = false /\
  (Ascii.eqb c "b" || Ascii.eqb c "B") = false /\
  Num.isExponentIndicator c = false.
Proof. each_character c; intros _; repeat split. Qed.

Lemma span_all (p : ascii -> bool) (l : list ascii) :
  forallb p l = true -> span p l = (l, []).
Proof.
  induction l as [ | c l IH]; simpl; [reflexivity | ].
  intros H. apply andb_prop in H as [-> H]. now rewrite IH.
Qed.

(** The digits before the first dot of a run that has a dot. *)
Lemma span_to_dot (l : list ascii) :
  forallb isDigitOrDot l = true ->
  (1 <= List.length (filter isDot l))%nat ->
  exists ds rest,
    span isDigit l = (ds, "."%char :: rest) /\
    forallb isDigitOrDot rest = true /\
    List.length (filter isDot l) = S (List.length (filter isDot rest)) /\
    (forall c l', l = c :: l' -> isDigit c = true -> ds <> []).
Proof.
  induction l as [ | c l IH]; simpl; [lia | ].
  intros H Hdots. apply andb_prop in H as [Hc Hl].
  destruct (digitOrDot_cases c Hc) as [[Hd Hnd] | [-> Hd]].
  - rewrite Hd, Hnd in *. destruct (IH Hl Hdots) as (ds & rest & -> & Hrest & Hlen & _).
    exists (c :: ds), rest. repeat split; auto. discriminate.
  - simpl. exists [], l. repeat split; auto.
    intros c l' E. injection E as <- <-. discriminate.
Qed.

Lemma trimEnd_run (l : list ascii) :
  forallb isDigitOrDot l = true -> Num.trimEnd l = l.
Proof.
  induction l as [ | c l IH]; simpl; [reflexivity | ].
  intros H. apply andb_prop in H as [Hc Hl]. rewrite (IH Hl).
  destruct (digitOrDot_not_special c Hc) as (-> & _). now destruct l.
Qed.

Lemma parseNonDecimal_run (l : list ascii) :
  forallb isDigitOrDot l = true -> Num.parseNonDecimal l = None.
Proof.
  destruct l as [ | c0 [ | x [ | d ds]]]; intros H; try reflexivity;
    try (now destruct c0 as [[ | ] [ | ] [ | ] [ | ] [ | ] [ | ] [ | ] [ | ]]).
  assert (Hx : isDigitOrDot x = true).
  { simpl in H. apply andb_prop in H as [_ H]. now apply andb_prop in H as [Hx _]. }
  destruct (digitOrDot_not_special x Hx) as (_ & Hx1 & Hx2 & Hx3 & _).
  destruct c0 as [[ | ] [ | ] [ | ] [ | ] [ | ] [ | ] [ | ] [ | ]]; try reflexivity.
  unfold Num.parseNonDecimal. now rewrite Hx1, Hx2, Hx3.
Qed.

Lemma StringToNumber_manyDots (s : string) :
  manyDots (list_ascii_of_string s) -> Num.StringToNumber s = Num.NaN.
Proof.
  unfold Num.StringToNumber. destruct (list_ascii_of_string s) as [ | c l]; [intros [[] _] | ].
  intros (Hc & Hall & Hdots).
  destruct (digit_not_special c Hc) as (Hws & _ & _ & _ & Hplus & Hminus & HI).
  assert (Htrim : Num.trimStart (c :: l) = c :: l) by (simpl; now rewrite Hws).
  rewrite Htrim, (trimEnd_run _ Hall).
  unfold Num.parseStrNumericLiteral. rewrite (parseNonDecimal_run _ Hall).
  assert (Hsign : forall (A : Type) (a b d : A),
            match c :: l with
            | "+"%char :: _ => a
            | "-"%char :: _ => b
            | _ => d
            end = d).
  { intros A a b d. clear - Hplus Hminus.
    destruct c as [[ | ] [ | ] [ | ] [ | ] [ | ] [ | ] [ | ] [ | ]];
      try reflexivity; discriminate. }
  rewrite Hsign. unfold Num.parseStrUnsigned.
  destruct (list_eq_dec ascii_dec (c :: l) Num.Infinity_text) as [E | _].
  { injection E as -> _. discriminate. }
  unfold Num.parseUnsignedDecimal.
  destruct (span_to_dot (c :: l) Hall ltac:(lia)) as (ip & r1 & -> & Hr1 & Hlen & Hip).
  destruct (span_to_dot r1 Hr1 ltac:(lia)) as (fp & r2 & -> & _ & _ & _).
  specialize (Hip c l eq_refl Hc).
  destruct ip as [ | i ip]; [congruence | ]. reflexivity.
Qed.

(** Once a token has moved [i] over all that is left, only [eof] follows. *)
Lemma tokenizeFrom_skip (rest : list ascii) : forall i skip : nat,
  (List.length rest <= skip)%nat ->
  tokenizeFrom rest i skip = Ok [mkToken Teof ""].
Proof.
  induction rest as [ | c rest IH]; intros i skip H; simpl in *; [reflexivity | ].
  destruct skip as [ | k]; [lia | ]. apply IH. lia.
Qed.

Lemma length_string_of_list_ascii (l : list ascii) :
  String.length (string_of_list_ascii l) = List.length l.
Proof. induction l; simpl; congruence. Qed.

Lemma tokenize_run (s : string) :
  manyDots (list_ascii_of_string s) ->
  tokenize s = Ok [mkToken Tnumber s; mkToken Teof ""].
Proof.
  unfold tokenize. intros H.
  rewrite <- (string_of_list_ascii_of_string s) at 2.
  destruct (list_ascii_of_string s) as [ | c l]; [destruct H as [[] _] | ].
  destruct H as (Hc & Hall & _).
  destruct (digit_not_special c Hc) as (Hws & Hq & Hqq & _).
  simpl tokenizeFrom. unfold scan. rewrite Hws, Hq, Hqq, Hc. simpl orb. cbv iota.
  rewrite (span_all _ _ Hall). simpl fst. simpl bind.
  rewrite length_string_of_list_ascii. simpl List.length.
  rewrite tokenizeFrom_skip; [reflexivity | lia].
Qed.

(** The parser on a single number token. *)
Lemma parse_number (lexeme : string) :
  Parser.parse [mkToken Tnumber lexeme; mkToken Teof ""]
    = Ok (literal (LNumber (Num.StringToNumber lexeme))).
Proof. reflexivity. Qed.

(** C10. A run of digits and decimal points that starts with a digit and
    has more than one decimal point is lexed as one number token, and
    compiles to the literal [NaN] rather than failing. *)
Theorem many_dots_is_NaN (s : string) :
  manyDots (list_ascii_of_string s) ->
  tokenize s = Ok [mkToken Tnumber s; mkToken Teof ""] /\
  compile s = Ok (literal (LNumber Num.NaN)).
Proof.
  intros H. split; [now apply tokenize_run | ].
  unfold compile. rewrite (tokenize_run s H). simpl bind.
  rewrite parse_number. now rewrite (StringToNumber_manyDots s H).
Qed.

Lemma many_dots_is_NaN_witness :
  tokenize "1.2.3" = Ok [mkToken Tnumber "1.2.3"; mkToken Teof ""] /\
  compile "1.2.3" = Ok (literal (LNumber Num.NaN)).
Proof.
  apply (many_dots_is_NaN "1.2.3"). repeat split. simpl. lia.
Defined.

(** ** The failures of an evaluation *)

Lemma ToString_no_syntax (v : value) : isSyntax (JS.ToString v) = false.
Proof.
  induction v as [r elements IH | v Hv] using value_array_ind.
  - simpl. induction IH as [ | e rest He _ IHrest]; [reflexivity | ].
    assert (Helem : isSyntax match e with
                             | VUndefined | VNull => Ok ""
                             | _ => JS.ToString e
                             end = false) by (destruct e; auto).
    destruct (match e with VUndefined | VNull => Ok "" | _ => JS.ToString e end)
      as [s | err]; [ | exact Helem].
    simpl. destruct rest as [ | e' rest']; [reflexivity | ].
    match goal with
    | |- isSyntax (bind ?j _) = false => destruct j as [s' | err']
    end; [reflexivity | exact IHrest].
  - destruct v as [ | | [ | ] | x | s | r [elements | o]]; try reflexivity.
    + discriminate.
    + simpl. now destruct (JS.inChain o "toString").
Qed.

Lemma ToPrimitive_no_syntax (v : value) : isSyntax (JS.ToPrimitive v) = false.
Proof.
  destruct v; try reflexivity. unfold JS.ToPrimitive.
  pose proof (ToString_no_syntax (VObj r o)) as H.
  now destruct (JS.ToString (VObj r o)).
Qed.

Lemma bind_no_syntax {A B : Type} (m : Result A) (k : A -> Result B) :
  isSyntax m = false -> (forall a, isSyntax (k a) = false) ->
  isSyntax (bind m k) = false.
Proof. destruct m; simpl; auto. Qed.

Lemma applyBinary_no_syntax (operator : string) (x y : value) :
  knownBinary operator = true ->
  String.eqb operator "&&" = false -> String.eqb operator "||" = false ->
  isSyntax (applyBinary operator x y) = false.
Proof.
  intros Hop Hand Hor. unfold applyBinary.
  assert (Hrel : forall f : value -> value -> option bool,
            isSyntax (b <- (px <- JS.ToPrimitive x ;; py <- JS.ToPrimitive y ;;
                            Ok match f px py with Some b => b | None => false end) ;;
                      Ok (VBool b)) = false).
  { intros f. repeat (apply bind_no_syntax; [ | intros; try reflexivity]);
      apply ToPrimitive_no_syntax. }
  assert (Hrel' : forall f : value -> value -> option bool,
            isSyntax (b <- (px <- JS.ToPrimitive x ;; py <- JS.ToPrimitive y ;;
                            Ok match f px py with Some b => negb b | None => false end) ;;
                      Ok (VBool b)) = false).
  { intros f. repeat (apply bind_no_syntax; [ | intros; try reflexivity]);
      apply ToPrimitive_no_syntax. }
  assert (Hloose : forall g : bool -> bool,
            isSyntax (b <- JS.IsLooselyEqual x y ;; Ok (VBool (g b))) = false).
  { intros g. apply bind_no_syntax; [ | reflexivity].
    unfold JS.IsLooselyEqual.
    destruct x, y; try reflexivity;
      (apply bind_no_syntax; [apply ToPrimitive_no_syntax | reflexivity]). }
  repeat match goal with
         | |- context [String.eqb operator ?s] =>
             destruct (String.eqb operator s) eqn:?
         end; try reflexivity;
    try apply (Hloose (fun b => b)); try apply (Hloose negb);
    try apply (Hrel (fun px py => JS.lessThanPrimitive py px));
    try apply (Hrel (fun px py => JS.lessThanPrimitive px py));
    try apply (Hrel' (fun px py => JS.lessThanPrimitive px py));
    try apply (Hrel' (fun px py => JS.lessThanPrimitive py px)).
  unfold knownBinary, binaryOperators in Hop. simpl in Hop.
  repeat match goal with
         | H : String.eqb operator _ = false |- _ => rewrite H in Hop; clear H
         end.
  simpl in Hop. discriminate.
Qed.

(** Evaluating a tree whose operators are all known never fails with a
    Syntax error: the two [throw new ExpressionSyntaxError] of
    [evaluateNode] are not reached. *)
Lemma wellTagged_no_syntax (c : Context) (node : AstNode) :
  wellTagged node = true -> isSyntax (evaluateNode node c) = false.
Proof.
  induction node as
    [ v | name | object property IH | elements IH | object method args IHo IHa
    | operator lhs rhs IHl IHr | operator operand IH | expression IH ]
    using AstNode_nested_ind; simpl; intros Hwt.
  - reflexivity.
  - now destruct (negb _).
  - apply bind_no_syntax; [auto | ].
    intros [ | | | | | r o]; try reflexivity. now destruct (negb _).
  - apply bind_no_syntax; [ | reflexivity].
    induction IH as [ | el rest Hel _ IHrest]; [reflexivity | ].
    simpl in Hwt. apply andb_prop in Hwt as [Hwel Hwrest].
    apply bind_no_syntax; [auto | ]. intros v.
    apply bind_no_syntax; [auto | reflexivity].
  - apply andb_prop in Hwt as [Hwo Hwa].
    apply bind_no_syntax; [auto | ]. intros obj.
    destruct (String.eqb method "includes"); [ | reflexivity].
    destruct obj as [ | | | | | r [items | o]]; try reflexivity.
    apply bind_no_syntax; [ | reflexivity].
    destruct IHa as [ | arg0 more Harg0 _]; [reflexivity | ].
    simpl in Hwa. apply andb_prop in Hwa as [Hw0 _]. auto.
  - apply andb_prop in Hwt as [Hwt Hwr]. apply andb_prop in Hwt as [Hop Hwl].
    destruct (String.eqb operator "&&") eqn:Hand;
      [ | destruct (String.eqb operator "||") eqn:Hor ].
    + apply bind_no_syntax; [auto | ]. intros l. destruct (JS.ToBoolean l); auto.
    + apply bind_no_syntax; [auto | ]. intros l. destruct (JS.ToBoolean l); auto.
    + apply bind_no_syntax; [auto | ]. intros l.
      apply bind_no_syntax; [auto | ]. intros r.
      now apply applyBinary_no_syntax.
  - apply andb_prop in Hwt as [Hop Hw].
    apply bind_no_syntax; [auto | ]. intros v. now rewrite Hop.
  - auto.
Qed.

(** The part of C3 that holds: on a tree the parser produced, the
    Syntax-error branches of the evaluator are not reached. *)
Lemma compiled_no_syntax (source : string) (ast : AstNode) (c : Context) :
  compile source = Ok ast -> isSyntax (evaluateNode ast c) = false.
Proof.
  unfold compile. destruct (tokenize source) as [tokens | e]; [ | discriminate].
  simpl. intros E. apply wellTagged_no_syntax.
  now apply ParserFacts.parse_wellTagged with tokens.
Qed.

Lemma convertible_ToString (v : value) :
  convertible v = true -> isErr (JS.ToString v) = false.
Proof.
  induction v as [r elements IH | v Hv] using value_array_ind.
  - simpl. induction IH as [ | e rest He _ IHrest]; [reflexivity | ].
    simpl. intros H. apply andb_prop in H as [Hce Hcrest].
    assert (Helem : isErr match e with
                           | VUndefined | VNull => Ok ""
                           | _ => JS.ToString e
                           end = false) by (destruct e; auto).
    destruct (match e with VUndefined | VNull => Ok "" | _ => JS.ToString e end)
      as [s | err]; [ | discriminate].
    simpl. destruct rest as [ | e' rest']; [reflexivity | ].
    specialize (IHrest Hcrest).
    match goal with
    | |- isErr (bind ?j _) = false => destruct j as [s' | err']
    end; [reflexivity | discriminate].
  - destruct v as [ | | [ | ] | x | s | r [elements | o]]; try reflexivity.
    + discriminate.
    + simpl. intros H. apply andb_prop in H as [H _].
      apply negb_true_iff in H. now rewrite H.
Qed.

Lemma convertible_ToPrimitive (v : value) :
  convertible v = true -> exists p, JS.ToPrimitive v = Ok p.
Proof.
  intros H. destruct v; try (simpl; eauto; fail).
  pose proof (convertible_ToString _ H) as Hs. unfold JS.ToPrimitive.
  destruct (JS.ToString (VObj r o)) as [s | e]; [simpl; eauto | discriminate].
Qed.

Lemma lookup_In {V : Type} (ps : properties V) (k : string) (p : property V) :
  JS.lookup ps k = Some p -> exists k', In (k', p) ps.
Proof.
  induction ps as [ | [k' p'] ps IH]; simpl; [discriminate | ].
  destruct (String.eqb k' k).
  - intros [= ->]. eauto.
  - intros H. destruct (IH H) as [k'' Hin]. eauto.
Qed.

Lemma convertible_Get (o : heapObject value) (r : ref) (k : string) :
  convertible (VObj r o) = true -> JS.hasOwn o k = true ->
  convertible (JS.Get o k) = true.
Proof.
  destruct o as [elements | o]; simpl.
  - intros Hels _. destruct (String.eqb k "length"); [reflexivity | ].
    destruct (JS.arrayIndex _ k) as [i | ]; [ | reflexivity].
    rewrite forallb_forall in Hels.
    destruct (Nat.lt_ge_cases i (List.length elements)) as [Hi | Hi].
    + apply Hels. now apply nth_In.
    + now rewrite nth_overflow.
  - intros H Hown. apply andb_prop in H as [_ H].
    destruct (JS.lookup (own o) k) as [p | ] eqn:E; [ | discriminate].
    destruct (lookup_In _ _ _ E) as [k' Hin].
    rewrite forallb_forall in H. apply (H (k', p) Hin).
Qed.

Lemma applyBinary_convertible (operator : string) (x y : value) :
  knownBinary operator = true ->
  String.eqb operator "&&" = false -> String.eqb operator "||" = false ->
  convertible x = true -> convertible y = true ->
  exists b, applyBinary operator x y = Ok (VBool b).
Proof.
  intros Hop Hand Hor Hx Hy.
  destruct (convertible_ToPrimitive x Hx) as [px Hpx].
  destruct (convertible_ToPrimitive y Hy) as [py Hpy].
  assert (Hloose : exists b, JS.IsLooselyEqual x y = Ok b).
  { unfold JS.IsLooselyEqual.
    destruct x, y; cbv beta iota; rewrite ?Hpx, ?Hpy; simpl; eauto. }
  destruct Hloose as [b Hb].
  unfold applyBinary, JS.greaterThan, JS.lessThan, JS.greaterThanOrEqual,
    JS.lessThanOrEqual.
  rewrite Hb, Hpx, Hpy. simpl.
  repeat match goal with
         | |- context [String.eqb operator ?s] =>
             destruct (String.eqb operator s) eqn:?
         end; eauto.
  unfold knownBinary, binaryOperators in Hop. simpl in Hop.
  repeat match goal with
         | H : String.eqb operator _ = false |- _ => rewrite H in Hop; clear H
         end.
  discriminate.
Qed.

Lemma bind_valueOrSecurity (m : Result value) (k : value -> Result value) :
  valueOrSecurity m ->
  (forall v, convertible v = true -> valueOrSecurity (k v)) ->
  valueOrSecurity (bind m k).
Proof. destruct m; simpl; auto. Qed.

Lemma evaluate_valueOrSecurity (c : Context) (node : AstNode) :
  convertibleContext c = true ->
  wellTagged node = true -> hasArguments node = true ->
  valueOrSecurity (evaluateNode node c).
Proof.
  intros Hc.
  induction node as
    [ v | name | object property IH | elements IH | object method args IHo IHa
    | operator lhs rhs IHl IHr | operator operand IH | expression IH ]
    using AstNode_nested_ind; simpl; intros Hwt Harg.
  - now destruct v.
  - destruct (JS.lookup (own c) name) as [p | ] eqn:E; simpl.
    + destruct (lookup_In _ _ _ E) as [k' Hin].
      unfold convertibleContext in Hc. rewrite forallb_forall in Hc.
      apply (Hc (k', p) Hin).
    + unfold notAllowed. eauto.
  - apply bind_valueOrSecurity; [auto | ].
    intros [ | | | | | r o] Hv; try reflexivity.
    destruct (JS.hasOwn o property) eqn:Hown; simpl.
    + now apply convertible_Get with r.
    + unfold notAllowed. eauto.
  - assert (Hmap : match (fix map (l : list AstNode) : Result (list value) :=
                        match l with
                        | [] => Ok []
                        | el :: rest =>
                            v <- evaluateNode el c ;;
                            vs <- map rest ;; Ok (v :: vs)
                        end) elements with
                   | Ok vs => forallb convertible vs = true
                   | Err e => exists message, e = ExpressionSecurityError message
                   end).
    { induction IH as [ | el rest Hel _ IHrest]; [reflexivity | ].
      simpl in Hwt, Harg.
      apply andb_prop in Hwt as [Hw1 Hw2]. apply andb_prop in Harg as [Ha1 Ha2].
      specialize (Hel Hw1 Ha1). specialize (IHrest Hw2 Ha2).
      destruct (evaluateNode el c) as [v | e]; simpl; [ | exact Hel].
      match goal with
      | |- match bind ?m _ with _ => _ end => destruct m as [vs | e]
      end; simpl; [ | exact IHrest].
      rewrite IHrest, andb_true_r. exact Hel. }
    match goal with
    | |- valueOrSecurity (bind ?m _) => destruct m as [vs | e]
    end; simpl; assumption.
  - apply andb_prop in Hwt as [Hwo Hwa].
    apply andb_prop in Harg as [Harg Hgiven]. apply andb_prop in Harg as [Hao Haa].
    specialize (IHo Hwo Hao).
    destruct (evaluateNode object c) as [obj | e]; simpl; [ | exact IHo].
    destruct (String.eqb method "includes"); [ | now eexists].
    destruct obj as [ | | | | | r [items | o]]; try (now eexists).
    destruct args as [ | arg0 more]; [discriminate | ].
    inversion IHa as [ | ? ? Harg0 _]; subst.
    simpl in Hwa, Haa.
    apply andb_prop in Hwa as [Hw0 _]. apply andb_prop in Haa as [Ha0 _].
    specialize (Harg0 Hw0 Ha0).
    destruct (evaluateNode arg0 c) as [a | e]; simpl; [exact eq_refl | exact Harg0].
  - apply andb_prop in Hwt as [Hwt Hwr]. apply andb_prop in Hwt as [Hop Hwl].
    apply andb_prop in Harg as [Hal Har].
    specialize (IHl Hwl Hal). specialize (IHr Hwr Har).
    destruct (String.eqb operator "&&") eqn:Hand;
      [ | destruct (String.eqb operator "||") eqn:Hor ].
    + apply bind_valueOrSecurity; [assumption | ].
      intros l Hl. now destruct (JS.ToBoolean l).
    + apply bind_valueOrSecurity; [assumption | ].
      intros l Hl. now destruct (JS.ToBoolean l).
    + apply bind_valueOrSecurity; [assumption | ]. intros l Hl.
      apply bind_valueOrSecurity; [assumption | ]. intros r Hr.
      destruct (applyBinary_convertible operator l r Hop Hand Hor Hl Hr) as [b ->].
      reflexivity.
  - apply andb_prop in Hwt as [Hop Hw].
    apply bind_valueOrSecurity; [auto | ]. intros v Hv. now rewrite Hop.
  - auto.
Qed.

(** Where the runtime has nothing to throw -- every [includes] is given
    an argument and no object of the context shadows [toString] -- a tree
    the parser produced evaluates to a value or fails with a Security
    error. *)
Lemma compiled_valueOrSecurity (source : string) (ast : AstNode) (c : Context) :
  compile source = Ok ast ->
  hasArguments ast = true -> convertibleContext c = true ->
  valueOrSecurity (evaluateNode ast c).
Proof.
  unfold compile. destruct (tokenize source) as [tokens | e]; [ | discriminate].
  simpl. intros E Harg Hc. apply evaluate_valueOrSecurity; try assumption.
  now apply ParserFacts.parse_wellTagged with tokens.
Qed.

(** C3 fails on the code: [includes] called without an argument parses,
    and its evaluation fails with a [TypeError] -- [node.args[0]] is
    [undefined] and [evaluateNode] reads its [type] -- which is neither a
    value nor a Security error. *)
Theorem includes_without_argument (c : Context) :
  compile "[].includes()" = Ok (methodCall (arrayLiteral []) "includes" []) /\
  evaluateNode (methodCall (arrayLiteral []) "includes" []) c = Err TypeError /\
  isSecurity (evaluateNode (methodCall (arrayLiteral []) "includes" []) c) = false.
Proof. repeat split. Qed.

(** * Further properties of the lexer, the parser and the evaluator *)

Lemma span_fst_all (p : ascii -> bool) (l : list ascii) :
  forallb p (fst (span p l)) = true.
Proof.
  induction l as [ | c l IH]; simpl; [reflexivity | ].
  destruct (p c) eqn:E; [ | reflexivity].
  destruct (span p l) as [a b]. simpl in *. now rewrite E.
Qed.

Lemma list_string_inverse (l : list ascii) :
  list_ascii_of_string (string_of_list_ascii l) = l.
Proof. apply list_ascii_of_string_of_list_ascii. Qed.

Lemma keyword_lexical (ident : string) :
  isIdentifierName ident = true -> lexical (keyword ident) = true.
Proof.
  intros H. unfold keyword.
  destruct (String.eqb ident "true") eqn:E1; simpl.
  { unfold lexical. simpl. now rewrite E1. }
  destruct (String.eqb ident "false") eqn:E2; simpl.
  { unfold lexical. simpl. now rewrite E2, orb_true_r. }
  destruct (String.eqb ident "null") eqn:E3; simpl.
  { unfold lexical. simpl. exact E3. }
  unfold lexical, isReserved. simpl. now rewrite H, E1, E2, E3.
Qed.

Lemma span_head (p : ascii -> bool) (c : ascii) (r : list ascii) :
  p c = true -> fst (span p (c :: r)) = c :: fst (span p r).
Proof. intros H. simpl. rewrite H. now destruct (span p r). Qed.


Lemma isDigit_isDigitOrDot (c : ascii) : isDigit c = true -> isDigitOrDot c = true.
Proof. unfold isDigitOrDot. now intros ->. Qed.

Lemma isIdentStart_isIdentPart (c : ascii) :
  isIdentStart c = true -> isIdentPart c = true.
Proof. unfold isIdentPart. now intros ->. Qed.

Lemma run_name (c : ascii) (r : list ascii) :
  isIdentStart c = true ->
  isIdentifierName (string_of_list_ascii (fst (span isIdentPart (c :: r)))) = true.
Proof.
  intros H. unfold isIdentifierName.
  rewrite list_string_inverse, (span_head _ _ _ (isIdentStart_isIdentPart c H)).
  now rewrite H, span_fst_all.
Qed.

Lemma keyword_not_eof (ident : string) : type (keyword ident) <> Teof.
Proof.
  unfold keyword.
  destruct (_ || _); [discriminate | ]. destruct (String.eqb ident "null"); discriminate.
Qed.

(** One turn of the lexer: it moves on, and what it pushes is lexical and
    is no [eof]. *)
Lemma scan_pushed (ch : ascii) (r : list ascii) (i : nat)
  (pushed : list Token) (n : nat) :
  scan ch r i = Ok (pushed, n) ->
  (1 <= n)%nat /\
  Forall (fun t => lexical t = true /\ type t <> Teof) pushed.
Proof.
  unfold scan.
  destruct (isWhiteSpace ch); [intros [= <- <-]; split; [lia | constructor] | ].
  destruct (_ || _).
  { destruct (scanString ch r). intros [= <- <-].
    split; [lia | ]. repeat constructor. discriminate. }
  destruct (isDigit ch) eqn:Ed.
  { intros [= <- <-]. rewrite (isDigit_isDigitOrDot ch Ed).
    pose proof (span_fst_all isDigitOrDot r) as Hall.
    destruct (span isDigitOrDot r) as [a b]. simpl in Hall. simpl fst.
    split; [simpl; lia | ]. repeat constructor; [ | discriminate].
    unfold lexical. simpl. rewrite list_string_inverse. now rewrite Ed, Hall. }
  destruct (isIdentStart ch) eqn:Ei.
  { intros [= <- <-].
    pose proof (run_name ch r Ei) as Hname. simpl in Hname.
    rewrite (isIdentStart_isIdentPart ch Ei) in *.
    destruct (span isIdentPart r) as [a b]. simpl fst in *.
    split; [simpl; lia | ].
    repeat constructor; [ | apply keyword_not_eof].
    now apply keyword_lexical. }
  repeat match goal with
         | |- context [if ?b then _ else _] =>
             let E := fresh "E" in destruct b eqn:E
         end;
    intros [= <- <-]; (split; [lia | ]);
    repeat constructor; try discriminate.
  match goal with
  | H : _ || _ = true |- _ =>
      apply orb_prop in H as [H | H]; apply Ascii.eqb_eq in H; now subst ch
  end.
Qed.

Lemma bind_Ok {A B : Type} (m : Result A) (k : A -> Result B) (b : B) :
  bind m k = Ok b -> exists a, m = Ok a /\ k a = Ok b.
Proof. destruct m; simpl; [eauto | discriminate]. Qed.

Lemma tokenizeFrom_tokens (rest : list ascii) : forall (i skip : nat) (ts : list Token),
  tokenizeFrom rest i skip = Ok ts ->
  exists body,
    ts = (body ++ [eofToken])%list /\
    Forall (fun t => lexical t = true /\ type t <> Teof) body.
Proof.
  induction rest as [ | ch r IH]; intros i skip ts; simpl.
  - intros [= <-]. exists []. split; [reflexivity | constructor].
  - destruct skip as [ | k]; [ | apply IH].
    intros H. apply bind_Ok in H as ([pushed n] & Hscan & H).
    apply bind_Ok in H as (tokens & Hrest & [= <-]).
    destruct (IH _ _ _ Hrest) as (body & -> & Hbody).
    destruct (scan_pushed _ _ _ _ _ Hscan) as [_ Hpushed].
    exists (pushed ++ body)%list. split; [now rewrite app_assoc | ].
    apply Forall_app. now split.
Qed.

(** X1: the tokens of a source end with the one [eof] token, and the text
    of every token is of the lexical class its type names. *)
Theorem tokenize_lexical (s : string) (ts : list Token) :
  tokenize s = Ok ts ->
  exists body,
    ts = (body ++ [mkToken Teof ""])%list /\
    Forall (fun t => type t <> Teof) body /\
    forallb lexical ts = true.
Proof.
  intros H. destruct (tokenizeFrom_tokens _ _ _ _ H) as (body & -> & Hbody).
  exists body. split; [reflexivity | ]. split.
  - eapply Forall_impl; [ | exact Hbody]. now intros t [_ Ht].
  - rewrite forallb_app. simpl. rewrite andb_true_r.
    apply forallb_forall. rewrite Forall_forall in Hbody.
    intros t Ht. now apply Hbody.
Qed.

Lemma tokenize_lexical_witness :
  exists body,
    [mkToken Tidentifier "a"; mkToken Toperator ">="; mkToken Tnumber "1.5";
     mkToken Teof ""] = (body ++ [mkToken Teof ""])%list /\
    Forall (fun t => type t <> Teof) body /\
    forallb lexical [mkToken Tidentifier "a"; mkToken Toperator ">=";
                     mkToken Tnumber "1.5"; mkToken Teof ""] = true.
Proof. apply (tokenize_lexical "a >= 1.5"). reflexivity. Defined.

Lemma bind_Err {A B : Type} (m : Result A) (k : A -> Result B) (e : error) :
  bind m k = Err e -> m = Err e \/ exists a, m = Ok a /\ k a = Err e.
Proof. destruct m; simpl; [eauto | intros [= ->]; now left]. Qed.

(** The one failure of a turn of the lexer. *)
Lemma scan_Err (ch : ascii) (r : list ascii) (i : nat) (e : error) :
  scan ch r i = Err e ->
  e = unexpectedCharacter ch i /\
  isWhiteSpace ch = false /\ isQuote ch = false /\ isDigit ch = false /\
  isIdentStart ch = false.
Proof.
  unfold scan, isQuote.
  destruct (isWhiteSpace ch); [discriminate | ].
  destruct (_ || _); [destruct (scanString ch r); discriminate | ].
  destruct (isDigit ch); [discriminate | ].
  destruct (isIdentStart ch); [discriminate | ].
  repeat match goal with
         | |- context [if ?b then _ else _] => destruct b
         end; try discriminate.
  intros [= <-]. repeat split.
Qed.

Lemma tokenizeFrom_Err (rest : list ascii) : forall (i skip : nat) (e : error),
  tokenizeFrom rest i skip = Err e ->
  exists (k : nat) (c : ascii),
    nth_error rest k = Some c /\
    e = unexpectedCharacter c (i + k) /\
    isWhiteSpace c = false /\ isQuote c = false /\ isDigit c = false /\
    isIdentStart c = false.
Proof.
  induction rest as [ | ch r IH]; intros i skip e; simpl; [discriminate | ].
  assert (Hnext : forall skip', tokenizeFrom r (i + 1) skip' = Err e ->
            exists (k : nat) (c : ascii),
              nth_error (ch :: r) k = Some c /\
              e = unexpectedCharacter c (i + k) /\
              isWhiteSpace c = false /\ isQuote c = false /\ isDigit c = false /\
              isIdentStart c = false).
  { intros skip' H. destruct (IH _ _ _ H) as (k & c & Hk & -> & Hc).
    exists (S k), c. split; [exact Hk | ]. split; [ | exact Hc].
    f_equal. lia. }
  destruct skip as [ | k]; [ | apply Hnext].
  intros H. apply bind_Err in H as [H | ([pushed n] & Hscan & H)].
  - destruct (scan ch r i) as [[pushed n] | e'] eqn:Hscan; [discriminate | ].
    injection H as ->. destruct (scan_Err _ _ _ _ Hscan) as (-> & Hc).
    exists 0, ch. split; [reflexivity | ]. split; [ | exact Hc].
    f_equal. lia.
  - apply bind_Err in H as [H | (tokens & _ & H)]; [ | discriminate].
    now apply Hnext with (n - 1).
Qed.

(** X2: the lexer fails in one way only: on a character that starts no
    token, with the message that names the character and its index in
    the source. *)
Theorem tokenize_error (s : string) (e : error) :
  tokenize s = Err e ->
  exists (k : nat) (c : ascii),
    String.get k s = Some c /\
    e = ExpressionSyntaxError
          ("Unexpected character: '" ++ String c "" ++ "' at position "
             ++ string_of_nat k) /\
    isWhiteSpace c = false /\ isQuote c = false /\ isDigit c = false /\
    isIdentStart c = false.
Proof.
  unfold tokenize. intros H.
  destruct (tokenizeFrom_Err _ _ _ _ H) as (k & c & Hk & -> & Hc).
  exists k, c. split; [ | split; [reflexivity | exact Hc]].
  clear - Hk. revert k Hk.
  induction s as [ | a s IH]; intros [ | k]; simpl; try discriminate; auto.
Qed.

Lemma tokenize_error_witness :
  exists (k : nat) (c : ascii),
    String.get k "element.childCount ** 2" = Some c /\
    ExpressionSyntaxError "Unexpected character: '*' at position 19"
    = ExpressionSyntaxError
          ("Unexpected character: '" ++ String c "" ++ "' at position "
             ++ string_of_nat k) /\
    isWhiteSpace c = false /\ isQuote c = false /\ isDigit c = false /\
    isIdentStart c = false.
Proof. apply (tokenize_error "element.childCount ** 2"). reflexivity. Defined.

(** The tokens do not depend on where the source starts. *)
Lemma tokenizeFrom_shift (rest : list ascii) : forall (i j skip : nat) (ts : list Token),
  tokenizeFrom rest i skip = Ok ts -> tokenizeFrom rest j skip = Ok ts.
Proof.
  induction rest as [ | ch r IH]; intros i j skip ts; simpl; [auto | ].
  destruct skip as [ | k]; [ | apply IH].
  intros H. apply bind_Ok in H as ([pushed n] & Hscan & H).
  apply bind_Ok in H as (tokens & Hrest & [= <-]).
  assert (Hscan' : scan ch r j = Ok (pushed, n)).
  { destruct (scan ch r j) as [[p' n'] | e'] eqn:E.
    - revert Hscan E. unfold scan.
      repeat match goal with
             | |- context [if ?b then _ else _] => destruct b
             | |- context [let (_, _) := ?p in _] => destruct p
             end; congruence.
    - destruct (scan_Err _ _ _ _ E) as (_ & Hw & Hq & Hd & Hi).
      revert Hscan. unfold scan. unfold isQuote in Hq. rewrite Hw, Hq, Hd, Hi.
      revert E. unfold scan. rewrite Hw, Hq, Hd, Hi.
      repeat match goal with
             | |- context [if ?b then _ else _] => destruct b
             end; congruence. }
  rewrite Hscan'. simpl. rewrite (IH _ (j + 1) _ _ Hrest). reflexivity.
Qed.

Lemma tokenizeFrom_whitespace (w rest : list ascii) : forall i : nat,
  forallb isWhiteSpace w = true ->
  tokenizeFrom (w ++ rest) i 0 = tokenizeFrom rest (i + List.length w) 0.
Proof.
  induction w as [ | c w IH]; intros i H; simpl.
  - f_equal. lia.
  - apply andb_prop in H as [Hc Hw]. unfold scan. rewrite Hc. simpl.
    rewrite (IH _ Hw). replace (i + 1 + List.length w) with (i + S (List.length w)) by lia.
    now destruct (tokenizeFrom rest _ 0).
Qed.

(** X3: white space before an expression is skipped: the tokens are those
    of the expression alone. *)
Theorem tokenize_leading_whitespace (w s : string) (ts : list Token) :
  forallb isWhiteSpace (list_ascii_of_string w) = true ->
  (tokenize (w ++ s) = Ok ts <-> tokenize s = Ok ts).
Proof.
  intros Hw. unfold tokenize.
  assert (E : list_ascii_of_string (w ++ s)
              = (list_ascii_of_string w ++ list_ascii_of_string s)%list).
  { clear. induction w; simpl; congruence. }
  rewrite E, (tokenizeFrom_whitespace _ _ 0 Hw).
  split; apply tokenizeFrom_shift.
Qed.

Lemma tokenize_leading_whitespace_witness :
  tokenize "  a" = Ok [mkToken Tidentifier "a"; mkToken Teof ""]
  <-> tokenize "a" = Ok [mkToken Tidentifier "a"; mkToken Teof ""].
Proof. apply (tokenize_leading_whitespace "  " "a"). reflexivity. Defined.

(** X4: a source of white space only (the empty source too) has no token
    but [eof], and does not compile: the parser reports the empty lexeme
    of [eof]. *)
Theorem blank_source (s : string) :
  forallb isWhiteSpace (list_ascii_of_string s) = true ->
  tokenize s = Ok [mkToken Teof ""] /\
  compile s = Err (ExpressionSyntaxError "Unexpected token: ''").
Proof.
  intros H.
  assert (Ht : tokenize s = Ok [mkToken Teof ""]).
  { unfold tokenize. rewrite <- (app_nil_r (list_ascii_of_string s)).
    now rewrite (tokenizeFrom_whitespace _ _ 0 H). }
  split; [exact Ht | ]. unfold compile. now rewrite Ht.
Qed.

Lemma blank_source_witness :
  tokenize "  " = Ok [mkToken Teof ""] /\
  compile "  " = Err (ExpressionSyntaxError "Unexpected token: ''").
Proof. apply (blank_source "  "). reflexivity. Defined.

Lemma quote_not_backslash (quote : ascii) :
  isQuote quote = true -> Ascii.eqb "\" quote = false.
Proof.
  unfold isQuote. intros H.
  apply orb_prop in H as [H | H]; apply Ascii.eqb_eq in H; now subst quote.
Qed.

Lemma scanString_escape (quote : ascii) (body tail : list ascii) :
  isQuote quote = true ->
  match tail with
  | [] => True
  | c :: _ => c = quote
  end ->
  scanString quote (escape quote body ++ tail)
  = (string_of_list_ascii body, List.length (escape quote body)).
Proof.
  intros Hq Htail. pose proof (quote_not_backslash quote Hq) as Hb.
  assert (Hstep : forall c r, scanString quote (c :: r) =
            if Ascii.eqb c quote then ("", 0)
            else if Ascii.eqb c "\" then
              match r with
              | [] => ("", 2)
              | c' :: r' => let (str, n) := scanString quote r' in (String c' str, n + 2)
              end
            else let (str, n) := scanString quote r in (String c str, n + 1))
    by reflexivity.
  induction body as [ | c body IH].
  - simpl. destruct tail as [ | c tail]; [reflexivity | ]. subst c.
    now rewrite Hstep, Ascii.eqb_refl.
  - cbn [escape]. destruct (Ascii.eqb c quote || Ascii.eqb c "\") eqn:E.
    + cbn [app]. rewrite Hstep, Hb, Ascii.eqb_refl, IH.
      cbn [string_of_list_ascii List.length]. f_equal. lia.
    + apply orb_false_elim in E as [E1 E2]. cbn [app].
      rewrite Hstep, E1, E2, IH. cbn [string_of_list_ascii List.length]. f_equal. lia.
Qed.

Lemma quote_scan (quote : ascii) (r : list ascii) (i : nat) :
  isQuote quote = true ->
  scan quote r i =
    let (str, n) := scanString quote r in Ok ([mkToken Tstring str], 1 + n + 1).
Proof.
  unfold isQuote, scan. intros H. rewrite H.
  assert (Hw : isWhiteSpace quote = false).
  { apply orb_prop in H as [H | H]; apply Ascii.eqb_eq in H; now subst quote. }
  now rewrite Hw.
Qed.

Lemma tokenize_string (quote : ascii) (body tail : list ascii) :
  isQuote quote = true ->
  tail = [] \/ tail = [quote] ->
  tokenizeFrom (quote :: escape quote body ++ tail) 0 0
  = Ok [mkToken Tstring (string_of_list_ascii body); mkToken Teof ""].
Proof.
  intros Hq Htail. simpl. rewrite (quote_scan _ _ _ Hq).
  rewrite scanString_escape by (try assumption; destruct Htail as [-> | ->]; simpl; auto).
  simpl. rewrite tokenizeFrom_skip; [reflexivity | ].
  rewrite length_app. destruct Htail as [-> | ->]; simpl; lia.
Qed.

Lemma parse_string (body : string) :
  Parser.parse [mkToken Tstring body; mkToken Teof ""] = Ok (literal (LString body)).
Proof. reflexivity. Qed.

(** X5: every string can be written as a literal: between two single or
    two double quotes, with a backslash before each quote of that kind
    and each backslash, it compiles to the literal of that very string;
    and so it does when the closing quote is left out. *)
Theorem string_literal_round_trip (quote : ascii) (body : string) :
  isQuote quote = true ->
  compile (quoted quote body) = Ok (literal (LString body)) /\
  compile (unterminated quote body) = Ok (literal (LString body)).
Proof.
  intros Hq.
  assert (H1 : tokenize (quoted quote body)
               = Ok [mkToken Tstring body; mkToken Teof ""]).
  { unfold tokenize, quoted. cbn [list_ascii_of_string].
    rewrite list_string_inverse, (tokenize_string quote _ [quote] Hq) by now right.
    now rewrite string_of_list_ascii_of_string. }
  assert (H2 : tokenize (unterminated quote body)
               = Ok [mkToken Tstring body; mkToken Teof ""]).
  { unfold tokenize, unterminated. cbn [list_ascii_of_string].
    rewrite list_string_inverse.
    pose proof (tokenize_string quote (list_ascii_of_string body) [] Hq) as H.
    rewrite app_nil_r in H. rewrite H by now left.
    now rewrite string_of_list_ascii_of_string. }
  unfold compile. rewrite H1, H2. simpl bind. now rewrite parse_string.
Qed.

Lemma string_literal_round_trip_witness :
  compile "'but\'ton'" = Ok (literal (LString "but'ton")) /\
  compile "'but\'ton" = Ok (literal (LString "but'ton")).
Proof. apply (string_literal_round_trip "'" "but'ton"). reflexivity. Defined.

Lemma identStart_not_special (c : ascii) :
  isIdentStart c = true ->
  isWhiteSpace c = false /\ isQuote c = false /\ isDigit c = false.
Proof.
  destruct c as [[ | ] [ | ] [ | ] [ | ] [ | ] [ | ] [ | ] [ | ]];
    try discriminate; intros _; repeat split.
Qed.

Lemma tokenize_name (s : string) :
  isIdentifierName s = true ->
  tokenize s = Ok [keyword s; mkToken Teof ""].
Proof.
  unfold tokenize, isIdentifierName. intros H.
  rewrite <- (string_of_list_ascii_of_string s) at 2.
  destruct (list_ascii_of_string s) as [ | c l]; [discriminate | ].
  apply andb_prop in H as [Hc Hl].
  destruct (identStart_not_special c Hc) as (Hw & Hq & Hd).
  simpl tokenizeFrom. unfold scan. unfold isQuote in Hq. rewrite Hw, Hq, Hd, Hc.
  assert (Hall : forallb isIdentPart (c :: l) = true).
  { simpl. now rewrite (isIdentStart_isIdentPart c Hc). }
  rewrite (span_all _ _ Hall). simpl fst. simpl bind.
  rewrite length_string_of_list_ascii. simpl List.length.
  rewrite tokenizeFrom_skip; [reflexivity | lia].
Qed.

Lemma parse_keyword (s : string) :
  Parser.parse [keyword s; mkToken Teof ""] = Ok (nameNode s).
Proof.
  destruct (String.eqb s "true") eqn:E1.
  { apply String.eqb_eq in E1. now subst s. }
  destruct (String.eqb s "false") eqn:E2.
  { apply String.eqb_eq in E2. now subst s. }
  destruct (String.eqb s "null") eqn:E3.
  { apply String.eqb_eq in E3. now subst s. }
  unfold keyword, nameNode. now rewrite E1, E2, E3.
Qed.

(** X6: a source that is one name, [[A-Za-z_$][A-Za-z0-9_$]*], compiles to
    the identifier node of that name, except for the three reserved words,
    which compile to their literals. *)
Theorem name_source (s : string) :
  isIdentifierName s = true ->
  compile s = Ok (nameNode s) /\
  (isReserved s = false -> compile s = Ok (identifier s)).
Proof.
  intros H. unfold compile. rewrite (tokenize_name s H). simpl bind.
  rewrite parse_keyword. split; [reflexivity | ].
  unfold isReserved, nameNode. intros Hr.
  apply orb_false_elim in Hr as [Hr E3]. apply orb_false_elim in Hr as [E1 E2].
  now rewrite E1, E2, E3.
Qed.

Lemma name_source_witness :
  compile "$scope_1" = Ok (nameNode "$scope_1") /\
  (isReserved "$scope_1" = false -> compile "$scope_1" = Ok (identifier "$scope_1")).
Proof. apply (name_source "$scope_1"). reflexivity. Defined.

(** ** Number literals *)

Lemma iter_pos_shr_nonneg (p : positive) : forall mrs : shr_record,
  (0 <= shr_m mrs)%Z -> (0 <= shr_m (iter_pos shr_1 p mrs))%Z.
Proof.
  assert (Hstep : forall mrs, (0 <= shr_m mrs)%Z -> (0 <= shr_m (shr_1 mrs))%Z).
  { intros [m r s]. simpl. destruct m as [ | [q | q | ] | q]; simpl; lia. }
  induction p as [p IH | p IH | ]; intros mrs H; simpl; auto.
Qed.

Lemma shr_fexp_nonneg (m e : Z) (l : location) :
  (0 <= m)%Z -> (0 <= shr_m (fst (shr_fexp Num.prec Num.emax m e l)))%Z.
Proof.
  intros H. unfold shr_fexp, shr.
  assert (H0 : (0 <= shr_m (shr_record_of_loc m l))%Z).
  { destruct l as [ | [ | | ]]; exact H. }
  destruct (_ - e)%Z; simpl; auto. now apply iter_pos_shr_nonneg.
Qed.

Lemma binary_round_aux_sign (m e : Z) (l : location) :
  (0 <= m)%Z ->
  let x := binary_round_aux Num.prec Num.emax false m e l in
  Num.isNaN x = false /\ signBit x = false.
Proof.
  intros H. unfold binary_round_aux.
  pose proof (shr_fexp_nonneg m e l H) as H1.
  destruct (shr_fexp Num.prec Num.emax m e l) as [mrs' e']. simpl in H1.
  assert (H2 : (0 <= round_nearest_even (shr_m mrs') (loc_of_shr_record mrs'))%Z).
  { unfold round_nearest_even.
    destruct (loc_of_shr_record mrs') as [ | [ | | ]]; try assumption; try lia.
    destruct (Z.even _); lia. }
  pose proof (shr_fexp_nonneg _ e' loc_Exact H2) as H3.
  destruct (shr_fexp Num.prec Num.emax _ e' loc_Exact) as [mrs'' e'']. simpl in H3.
  destruct (shr_m mrs'') as [ | q | q]; simpl; [auto | | lia].
  destruct (Z.leb _ _); simpl; auto.
Qed.

Lemma of_ratio_sign (n d : Z) :
  Num.isNaN (Num.of_ratio n d) = false /\ signBit (Num.of_ratio n d) = false.
Proof.
  unfold Num.of_ratio. destruct n as [ | p | p]; [now split | | now split].
  destruct d as [ | q | q]; [now split | | now split].
  unfold SFdiv, SFdiv_core_binary.
  match goal with
  | |- context [Z.div_eucl ?a ?b] =>
      pose proof (Z.div_pos a b) as Hq;
      assert (Hdiv : Z.div_eucl a b = (Z.div a b, Z.modulo a b))
        by (unfold Z.div, Z.modulo; now destruct (Z.div_eucl a b));
      rewrite Hdiv
  end.
  apply binary_round_aux_sign. apply Hq; [ | lia].
  destruct (_ - _ - _)%Z; try lia. apply Z.shiftl_nonneg. lia.
Qed.

Lemma of_decimal_sign (m e : Z) :
  Num.isNaN (Num.of_decimal m e) = false /\ signBit (Num.of_decimal m e) = false.
Proof. unfold Num.of_decimal. destruct (0 <=? e)%Z; apply of_ratio_sign. Qed.

Lemma no_dot_digits (l : list ascii) :
  forallb isDigitOrDot l = true -> List.length (filter isDot l) = 0 ->
  forallb isDigit l = true.
Proof.
  induction l as [ | c l IH]; simpl; [reflexivity | ].
  intros H Hdots. apply andb_prop in H as [Hc Hl].
  destruct (digitOrDot_cases c Hc) as [[Hd Hnd] | [-> Hd]].
  - rewrite Hnd in Hdots. rewrite Hd. now apply IH.
  - discriminate.
Qed.

Lemma parseUnsignedDecimal_lexeme (l : list ascii) :
  numberLexeme l -> (List.length (filter isDot l) <= 1)%nat ->
  exists m e, Num.parseUnsignedDecimal l = Some (Num.of_decimal m e).
Proof.
  intros [Hc Hall] Hdots. unfold Num.parseUnsignedDecimal.
  destruct (List.length (filter isDot l)) as [ | k] eqn:Ek.
  - pose proof (no_dot_digits l Hall Ek) as Hd.
    rewrite (span_all _ _ Hd). rewrite app_nil_r.
    destruct l as [ | c l]; [destruct Hc | ]. eauto.
  - destruct (span_to_dot l Hall ltac:(lia)) as (ip & r1 & -> & Hr1 & Hlen & Hip).
    assert (Hfp : forallb isDigit r1 = true) by (apply no_dot_digits; [assumption | lia]).
    rewrite (span_all _ _ Hfp).
    destruct l as [ | c l]; [destruct Hc | ].
    specialize (Hip c l eq_refl Hc).
    destruct ip as [ | i ip]; [congruence | ]. simpl. eauto.
Qed.

(** X7: the number a number token stands for -- [Number] of a run of
    digits and decimal points that starts with a digit -- is [NaN]
    exactly when the run has more than one decimal point, and is never
    negative. *)
Theorem number_token_value (s : string) :
  numberLexeme (list_ascii_of_string s) ->
  (Num.isNaN (Num.StringToNumber s) = true
   <-> (2 <= List.length (filter isDot (list_ascii_of_string s)))%nat) /\
  signBit (Num.StringToNumber s) = false.
Proof.
  intros Hlex.
  destruct (Nat.lt_ge_cases (List.length (filter isDot (list_ascii_of_string s))) 2)
    as [Hfew | Hmany].
  - assert (Hval : exists m e, Num.StringToNumber s = Num.of_decimal m e).
    { destruct (parseUnsignedDecimal_lexeme _ Hlex ltac:(lia)) as (m & e & Hp).
      exists m, e. unfold Num.StringToNumber. destruct Hlex as [Hc Hall].
      destruct (list_ascii_of_string s) as [ | c l]; [destruct Hc | ].
      destruct (digit_not_special c Hc) as (Hws & _ & _ & _ & Hplus & Hminus & HI).
      assert (Htrim : Num.trimStart (c :: l) = c :: l) by (simpl; now rewrite Hws).
      rewrite Htrim, (trimEnd_run _ Hall).
      unfold Num.parseStrNumericLiteral. rewrite (parseNonDecimal_run _ Hall).
      assert (Hsign : forall (A : Type) (a b d : A),
                match c :: l with
                | "+"%char :: _ => a
                | "-"%char :: _ => b
                | _ => d
                end = d).
      { intros A a b d. clear - Hplus Hminus.
        destruct c as [[ | ] [ | ] [ | ] [ | ] [ | ] [ | ] [ | ] [ | ]];
          try reflexivity; discriminate. }
      rewrite Hsign. unfold Num.parseStrUnsigned.
      destruct (list_eq_dec ascii_dec (c :: l) Num.Infinity_text) as [E | _].
      { injection E as -> _. discriminate. }
      now rewrite Hp. }
    destruct Hval as (m & e & ->). destruct (of_decimal_sign m e) as [-> Hs].
    split; [ | exact Hs]. split; [discriminate | lia].
  - assert (Hnan : Num.StringToNumber s = Num.NaN).
    { apply StringToNumber_manyDots. destruct Hlex as [Hc Hall]. now repeat split. }
    rewrite Hnan. split; [ | reflexivity]. split; auto.
Qed.

Lemma number_token_value_witness :
  (Num.isNaN (Num.StringToNumber "12.50") = true
   <-> (2 <= List.length (filter isDot (list_ascii_of_string "12.50")))%nat) /\
  signBit (Num.StringToNumber "12.50") = false.
Proof. apply (number_token_value "12.50"). now split. Defined.

Module ParserGrammar.
Import Parser.

Lemma TokenType_eqb_eq (a b : TokenType) : TokenType_eqb a b = true -> a = b.
Proof. destruct a, b; try reflexivity; discriminate. Qed.

Lemma isType_eq (t : Token) (ty : TokenType) : isType t ty = true -> type t = ty.
Proof. apply TokenType_eqb_eq. Qed.

Lemma isOperator_type (t : Token) (op : string) :
  isOperator t op = true -> type t = Toperator.
Proof. unfold isOperator. intros H. apply andb_prop in H as [H _]. now apply isType_eq. Qed.

Lemma isCompOp_type (t : Token) : isCompOp t = true -> type t = Toperator.
Proof. unfold isCompOp. intros H. apply andb_prop in H as [H _]. now apply isType_eq. Qed.

Lemma isCompOp_level (t : Token) :
  isCompOp t = true -> knownBinary (text t) = true /\ operatorLevel (text t) = 2.
Proof.
  intros H. split; [now apply ParserFacts.isCompOp_known | ].
  unfold isCompOp, compOps in H. apply andb_prop in H as [_ H]. simpl in H.
  unfold operatorLevel.
  repeat (apply orb_prop in H as [H | H];
          [apply String.eqb_eq in H; now rewrite H | ]).
  discriminate.
Qed.

Lemma atLevel_memberAccess (object : AstNode) (property : string) :
  atLevel 4 object -> atLevel 4 (memberAccess object property).
Proof.
  intros [Hg Hl]. split; [ | simpl; lia]. cbn [grammatical].
  rewrite Hg. apply Nat.leb_le in Hl. now rewrite Hl.
Qed.

Lemma atLevel_methodCall (object : AstNode) (method : string) (args : list AstNode) :
  atLevel 4 object -> forallb grammatical args = true ->
  atLevel 4 (methodCall object method args).
Proof.
  intros [Hg Hl] Hargs. split; [ | simpl; lia]. cbn [grammatical].
  rewrite Hg, Hargs. apply Nat.leb_le in Hl. now rewrite Hl.
Qed.

Lemma atLevel_unaryOp (operand : AstNode) :
  atLevel 3 operand -> atLevel 3 (unaryOp "!" operand).
Proof.
  intros [Hg Hl]. split; [ | simpl; lia]. cbn [grammatical].
  rewrite Hg. apply Nat.leb_le in Hl. now rewrite Hl.
Qed.

Lemma atLevel_binaryOp (operator : string) (lhs rhs : AstNode) :
  knownBinary operator = true ->
  atLevel (operatorLevel operator) lhs ->
  atLevel (S (operatorLevel operator)) rhs ->
  atLevel (operatorLevel operator) (binaryOp operator lhs rhs).
Proof.
  intros Hk [Hgl Hll] [Hgr Hlr]. split; [ | simpl; lia]. cbn [grammatical].
  rewrite Hk, Hgl, Hgr. apply Nat.leb_le in Hll. rewrite Hll.
  apply Nat.ltb_lt in Hlr. now rewrite Hlr.
Qed.

Section Invariants.

Variable tokens : list Token.

Local Notation "'len'" := (List.length tokens).

(** Every token but [eof] has a successor: the last token is [eof]. *)
Hypothesis has_next : forall pos t,
  nth_error tokens pos = Some t -> type t <> Teof -> (S pos < len)%nat.

Lemma postEof_bind {A B : Type} (m : M A) (k : A -> M B)
  (Q : A -> Prop) (R : B -> Prop) (lo lo' pos : nat) :
  postEof tokens Q lo (m pos) ->
  (forall a pos', (lo <= pos' < len)%nat -> Q a -> postEof tokens R lo' (k a pos')) ->
  postEof tokens R lo' (bindM m k pos).
Proof.
  unfold bindM. destruct (m pos) as [[[a pos'] | e] | ]; simpl.
  - intros [Hpos HQ] Hk. now apply Hk.
  - trivial.
  - intros [].
Qed.

Lemma postEof_weaken {A : Type} (Q R : A -> Prop) (lo lo' : nat) r :
  postEof tokens Q lo r -> (lo' <= lo)%nat -> (forall a, Q a -> R a) ->
  postEof tokens R lo' r.
Proof.
  destruct r as [[[a pos'] | e] | ]; simpl; auto.
  intros [Hpos HQ] Hlo HQR. split; [lia | auto].
Qed.

Lemma postEof_ret {A : Type} (Q : A -> Prop) (a : A) (lo pos : nat) :
  (lo <= pos < len)%nat -> Q a -> postEof tokens Q lo (ret a pos).
Proof. simpl. auto. Qed.

Lemma postEof_throw {A : Type} (Q : A -> Prop) (message : string) (lo pos : nat) :
  postEof tokens Q lo (@throw A (ExpressionSyntaxError message) pos).
Proof. simpl. eauto. Qed.

Lemma postEof_peek {B : Type} (k : Token -> M B) (R : B -> Prop) (lo pos : nat) :
  (pos < len)%nat ->
  (forall t, nth_error tokens pos = Some t -> postEof tokens R lo (k t pos)) ->
  postEof tokens R lo (bindM (peek tokens) k pos).
Proof.
  intros Hpos Hk. unfold bindM, peek.
  destruct (nth_error tokens pos) as [t | ] eqn:E; simpl.
  - now apply Hk.
  - apply nth_error_None in E. lia.
Qed.

(** [consume()] after a [peek] that saw a token other than [eof]. *)
Lemma postEof_consume {B : Type} (k : option Token -> M B) (R : B -> Prop)
  (lo pos : nat) (t : Token) :
  nth_error tokens pos = Some t -> type t <> Teof ->
  postEof tokens R lo (k (Some t) (S pos)) ->
  postEof tokens R lo (bindM (consume tokens None) k pos).
Proof.
  intros E _ Hk. unfold bindM, consume. rewrite E.
  now replace (pos + 1) with (S pos) by lia.
Qed.

Lemma postEof_expect {B : Type} (k : option Token -> M B) (R : B -> Prop)
  (lo pos : nat) (expected : TokenType) :
  (pos < len)%nat -> expected <> Teof ->
  (forall t, (S pos < len)%nat -> postEof tokens R lo (k (Some t) (S pos))) ->
  postEof tokens R lo (bindM (consume tokens (Some expected)) k pos).
Proof.
  intros Hpos Hexp Hk. unfold bindM, consume.
  destruct (nth_error tokens pos) as [t | ] eqn:E.
  - destruct (negb (TokenType_eqb (type t) expected)) eqn:Ety; [simpl; eauto | ].
    replace (pos + 1) with (S pos) by lia. apply Hk.
    apply has_next with t; [assumption | ].
    apply negb_false_iff, TokenType_eqb_eq in Ety. congruence.
  - apply nth_error_None in E. lia.
Qed.

Section Levels.

Variable parseOrRec : M AstNode.
Variable base : nat.

Hypothesis parseOrRec_post :
  forall pos, (base < pos < len)%nat ->
    postEof tokens (atLevel 0) (S pos) (parseOrRec pos).

Local Notation "'allGrammatical'" := (fun l => forallb grammatical l = true).

Lemma postEof_parseMore (n : nat) : forall (items : list AstNode) (pos : nat),
  (base <= pos < len)%nat -> (len - pos < n)%nat -> allGrammatical items ->
  postEof tokens allGrammatical pos (parseMore tokens parseOrRec n items pos).
Proof.
  induction n as [ | n IH]; intros items pos Hb Hn Hitems; [lia | ].
  simpl. apply postEof_peek; [lia | ]. intros t Et.
  destruct (isType t Tcomma) eqn:Ety; [ | apply postEof_ret; [lia | assumption]].
  apply isType_eq in Ety.
  assert (S pos < len)%nat by (apply has_next with t; congruence).
  apply postEof_consume with t; [assumption | congruence | ].
  eapply postEof_bind; [apply parseOrRec_post; lia | ].
  intros item pos3 Hpos3 [Hitem _].
  eapply postEof_weaken; [apply IH | lia | auto]; try lia.
  rewrite forallb_app, Hitems. simpl. now rewrite Hitem.
Qed.

Lemma postEof_parseItems (closing : TokenType) (pos : nat) :
  (base < pos < len)%nat ->
  postEof tokens allGrammatical pos (parseItems tokens parseOrRec closing pos).
Proof.
  intros Hb. unfold parseItems. apply postEof_peek; [lia | ]. intros t Et.
  destruct (negb (isType t closing)).
  - eapply postEof_bind; [apply parseOrRec_post; lia | ].
    intros item pos2 Hpos2 [Hitem _].
    eapply postEof_weaken; [apply postEof_parseMore | lia | auto]; try lia.
    + unfold turns. lia.
    + simpl. now rewrite Hitem.
  - apply postEof_ret; [lia | reflexivity].
Qed.

Lemma postEof_parsePrimary (pos : nat) :
  (base <= pos < len)%nat ->
  postEof tokens (atLevel 5) (S pos) (parsePrimary tokens parseOrRec pos).
Proof.
  intros Hb. unfold parsePrimary. apply postEof_peek; [lia | ]. intros t Et.
  destruct (type t) eqn:Ety; try apply postEof_throw;
    assert (S pos < len)%nat by (apply has_next with t; congruence);
    (apply postEof_consume with t; [assumption | congruence | ]);
    try (apply postEof_ret; [lia | split; [reflexivity | simpl; lia]]).
  - (* ( Or ) *)
    eapply postEof_bind; [apply parseOrRec_post; lia | ].
    intros expr pos3 Hpos3 [Hexpr _].
    apply postEof_expect; [lia | discriminate | ].
    intros _ Hpos4. apply postEof_ret; [lia | split; [exact Hexpr | simpl; lia]].
  - (* [ items ] *)
    eapply postEof_bind; [apply postEof_parseItems; lia | ].
    intros elements pos3 Hpos3 Helements.
    apply postEof_expect; [lia | discriminate | ].
    intros _ Hpos4. apply postEof_ret; [lia | split; [exact Helements | simpl; lia]].
Qed.

Lemma postEof_postfixLoop (n : nat) : forall (node : AstNode) (pos : nat),
  (base <= pos < len)%nat -> (len - pos < n)%nat -> atLevel 4 node ->
  postEof tokens (atLevel 4) pos (postfixLoop tokens parseOrRec n node pos).
Proof.
  induction n as [ | n IH]; intros node pos Hb Hn [Hnode Hlevel]; [lia | ].
  simpl. apply postEof_peek; [lia | ]. intros t Et.
  destruct (isType t Tdot) eqn:Ety; [ | apply postEof_ret; [lia | now split]].
  apply isType_eq in Ety.
  assert (S pos < len)%nat by (apply has_next with t; congruence).
  apply postEof_consume with t; [assumption | congruence | ].
  apply postEof_expect; [lia | discriminate | ].
  intros prop Hpos3. simpl valueOf.
  unfold bindM at 1. unfold ret.
  apply postEof_peek; [lia | ]. intros t' Et'.
  assert (Hat : atLevel 4 node) by now split.
  destruct (isType t' Tlparen) eqn:Ety'.
  - apply isType_eq in Ety'.
    assert (S (S (S pos)) < len)%nat by (apply has_next with t'; congruence).
    apply postEof_consume with t'; [assumption | congruence | ].
    eapply postEof_bind; [apply postEof_parseItems; lia | ].
    intros args pos6 Hpos6 Hargs.
    apply postEof_expect; [lia | discriminate | ].
    intros _ Hpos7.
    eapply postEof_weaken; [apply IH | lia | auto]; try lia.
    now apply atLevel_methodCall.
  - eapply postEof_weaken; [apply IH | lia | auto]; try lia.
    now apply atLevel_memberAccess.
Qed.

Lemma postEof_parsePostfix (pos : nat) :
  (base <= pos < len)%nat ->
  postEof tokens (atLevel 4) (S pos) (parsePostfix tokens parseOrRec pos).
Proof.
  intros Hb. unfold parsePostfix.
  eapply postEof_bind; [apply postEof_parsePrimary; lia | ].
  intros node pos2 Hpos2 [Hnode Hlevel].
  eapply postEof_weaken; [apply postEof_postfixLoop | lia | auto]; try lia.
  - unfold turns. lia.
  - split; [assumption | lia].
Qed.

Lemma postEof_parseUnaryN (n : nat) : forall pos : nat,
  (base <= pos < len)%nat -> (len - pos < n)%nat ->
  postEof tokens (atLevel 3) (S pos) (parseUnaryN tokens parseOrRec n pos).
Proof.
  induction n as [ | n IH]; intros pos Hb Hn; [lia | ].
  simpl. apply postEof_peek; [lia | ]. intros t Et.
  destruct (isOperator t "!") eqn:Eop.
  - apply isOperator_type in Eop.
    assert (S pos < len)%nat by (apply has_next with t; congruence).
    apply postEof_consume with t; [assumption | congruence | ].
    eapply postEof_bind; [apply IH; lia | ].
    intros operand pos3 Hpos3 [Hoperand Hlevel].
    apply postEof_ret; [lia | ]. now apply atLevel_unaryOp.
  - eapply postEof_weaken; [now apply postEof_parsePostfix | lia | ].
    intros a [Ha Hl]. split; [assumption | lia].
Qed.

Lemma postEof_parseUnary (pos : nat) :
  (base <= pos < len)%nat ->
  postEof tokens (atLevel 3) (S pos) (parseUnary tokens parseOrRec pos).
Proof.
  intros Hb. apply postEof_parseUnaryN; [assumption | unfold turns; lia].
Qed.

Lemma postEof_comparisonLoop (n : nat) : forall (node : AstNode) (pos : nat),
  (base <= pos < len)%nat -> (len - pos < n)%nat -> atLevel 2 node ->
  postEof tokens (atLevel 2) pos (comparisonLoop tokens parseOrRec n node pos).
Proof.
  induction n as [ | n IH]; intros node pos Hb Hn [Hnode Hlevel]; [lia | ].
  simpl. apply postEof_peek; [lia | ]. intros t Et.
  destruct (isCompOp t) eqn:Eop; [ | apply postEof_ret; [lia | now split]].
  destruct (isCompOp_level t Eop) as [Hknown Hop].
  apply isCompOp_type in Eop.
  assert (S pos < len)%nat by (apply has_next with t; congruence).
  apply postEof_consume with t; [assumption | congruence | ].
  simpl valueOf. unfold bindM at 1. unfold ret.
  eapply postEof_bind; [apply postEof_parseUnary; lia | ].
  intros right pos3 Hpos3 [Hright Hrl].
  eapply postEof_weaken; [apply IH | lia | auto]; try lia.
  rewrite <- Hop. apply atLevel_binaryOp; rewrite ?Hop; try assumption; now split.
Qed.

Lemma postEof_parseComparison (pos : nat) :
  (base <= pos < len)%nat ->
  postEof tokens (atLevel 2) (S pos) (parseComparison tokens parseOrRec pos).
Proof.
  intros Hb. unfold parseComparison.
  eapply postEof_bind; [apply postEof_parseUnary; lia | ].
  intros node pos2 Hpos2 [Hnode Hlevel].
  eapply postEof_weaken; [apply postEof_comparisonLoop | lia | auto]; try lia.
  - unfold turns. lia.
  - split; [assumption | lia].
Qed.

Lemma postEof_andLoop (n : nat) : forall (node : AstNode) (pos : nat),
  (base <= pos < len)%nat -> (len - pos < n)%nat -> atLevel 1 node ->
  postEof tokens (atLevel 1) pos (andLoop tokens parseOrRec n node pos).
Proof.
  induction n as [ | n IH]; intros node pos Hb Hn [Hnode Hlevel]; [lia | ].
  simpl. apply postEof_peek; [lia | ]. intros t Et.
  destruct (isOperator t "&&") eqn:Eop; [ | apply postEof_ret; [lia | now split]].
  apply isOperator_type in Eop.
  assert (S pos < len)%nat by (apply has_next with t; congruence).
  apply postEof_consume with t; [assumption | congruence | ].
  eapply postEof_bind; [apply postEof_parseComparison; lia | ].
  intros right pos3 Hpos3 [Hright Hrl].
  eapply postEof_weaken; [apply IH | lia | auto]; try lia.
  apply (atLevel_binaryOp "&&"); [reflexivity | now split | now split].
Qed.

Lemma postEof_parseAnd (pos : nat) :
  (base <= pos < len)%nat ->
  postEof tokens (atLevel 1) (S pos) (parseAnd tokens parseOrRec pos).
Proof.
  intros Hb. unfold parseAnd.
  eapply postEof_bind; [apply postEof_parseComparison; lia | ].
  intros node pos2 Hpos2 [Hnode Hlevel].
  eapply postEof_weaken; [apply postEof_andLoop | lia | auto]; try lia.
  - unfold turns. lia.
  - split; [assumption | lia].
Qed.

Lemma postEof_orLoop (n : nat) : forall (node : AstNode) (pos : nat),
  (base <= pos < len)%nat -> (len - pos < n)%nat -> atLevel 0 node ->
  postEof tokens (atLevel 0) pos (orLoop tokens parseOrRec n node pos).
Proof.
  induction n as [ | n IH]; intros node pos Hb Hn [Hnode Hlevel]; [lia | ].
  simpl. apply postEof_peek; [lia | ]. intros t Et.
  destruct (isOperator t "||") eqn:Eop; [ | apply postEof_ret; [lia | now split]].
  apply isOperator_type in Eop.
  assert (S pos < len)%nat by (apply has_next with t; congruence).
  apply postEof_consume with t; [assumption | congruence | ].
  eapply postEof_bind; [apply postEof_parseAnd; lia | ].
  intros right pos3 Hpos3 [Hright Hrl].
  eapply postEof_weaken; [apply IH | lia | auto]; try lia.
  apply (atLevel_binaryOp "||"); [reflexivity | now split | now split].
Qed.

Lemma postEof_parseOrBody (pos : nat) :
  (base <= pos < len)%nat ->
  postEof tokens (atLevel 0) (S pos) (parseOrBody tokens parseOrRec pos).
Proof.
  intros Hb. unfold parseOrBody.
  eapply postEof_bind; [apply postEof_parseAnd; lia | ].
  intros node pos2 Hpos2 [Hnode Hlevel].
  eapply postEof_weaken; [apply postEof_orLoop | lia | auto]; try lia.
  - unfold turns. lia.
  - split; [assumption | lia].
Qed.

End Levels.

Lemma postEof_parseOr (depth : nat) : forall pos : nat,
  (pos < len)%nat -> (len - pos < depth)%nat ->
  postEof tokens (atLevel 0) (S pos) (parseOr tokens depth pos).
Proof.
  induction depth as [ | depth IH]; intros pos Hpos Hd; [lia | ].
  simpl. apply postEof_parseOrBody with (base := pos); [ | lia].
  intros pos' Hpos'. apply IH; lia.
Qed.

Lemma postEof_parseM :
  (0 < len)%nat ->
  postEof tokens (fun a => grammatical a = true) 1 (parseM tokens 0).
Proof.
  intros Hlen. unfold parseM.
  eapply postEof_bind; [apply postEof_parseOr; unfold turns; lia | ].
  intros node pos Hpos [Hnode _]. apply postEof_peek; [lia | ]. intros t Et.
  destruct (negb _); [simpl; eauto | ]. apply postEof_ret; [lia | assumption].
Qed.

End Invariants.

Lemma eof_has_next (body : list Token) (eof : Token) :
  type eof = Teof ->
  forall pos t, nth_error (body ++ [eof]) pos = Some t -> type t <> Teof ->
    (S pos < List.length (body ++ [eof]))%nat.
Proof.
  intros Heof pos t E Ht. rewrite length_app. simpl.
  destruct (Nat.lt_ge_cases pos (List.length body)) as [Hlt | Hge]; [lia | ].
  rewrite nth_error_app2 in E by assumption.
  destruct (pos - List.length body) as [ | k] eqn:Ek; simpl in E.
  - injection E as <-. contradiction.
  - now destruct k.
Qed.

End ParserGrammar.




(** X9: the tree of a compiled source respects the precedence of the
    grammar. *)
Theorem compile_grammatical (source : string) (ast : AstNode) :
  compile source = Ok ast -> grammatical ast = true.
Proof.
  unfold compile. destruct (tokenize source) as [tokens | e'] eqn:Ht; simpl;
    [ | discriminate].
  destruct (tokenizeFrom_tokens _ _ _ _ Ht) as (body & -> & _).
  pose proof (ParserGrammar.postEof_parseM (body ++ [eofToken])
                (ParserGrammar.eof_has_next body eofToken eq_refl)) as H.
  unfold Parser.parse.
  destruct (Parser.parseM _ 0) as [[[node pos] | e''] | ]; simpl in H;
    try discriminate.
  intros [= <-]. apply H. rewrite length_app. simpl. lia.
Qed.

Lemma compile_grammatical_witness :
  grammatical
    (binaryOp "||" (identifier "a")
       (binaryOp "&&" (identifier "b")
          (binaryOp "<" (binaryOp "<" (unaryOp "!" (identifier "c")) (identifier "d"))
             (identifier "e")))) = true.
Proof. apply (compile_grammatical "a || b && !c < d < e"). reflexivity. Defined.

Module ParserRoundTrip.
Import Parser.

Lemma stops_lparen (k : nat) (t : Token) : stops k t = true -> isType t Tlparen = false.
Proof.
  unfold stops. intros H. repeat (apply andb_prop in H as [H ?]).
  now apply negb_true_iff.
Qed.

Lemma stops_dot (k : nat) (t : Token) :
  stops k t = true -> (k <= 4)%nat -> isType t Tdot = false.
Proof.
  unfold stops. intros H Hk. repeat (apply andb_prop in H as [H ?]).
  destruct (isType t Tdot); [ | reflexivity].
  destruct (Nat.ltb_spec 4 k); [lia | discriminate].
Qed.

Lemma stops_comp (k : nat) (t : Token) :
  stops k t = true -> (k <= 2)%nat -> isCompOp t = false.
Proof.
  unfold stops. intros H Hk. repeat (apply andb_prop in H as [H ?]).
  destruct (isCompOp t); [ | reflexivity].
  destruct (Nat.ltb_spec 2 k); [lia | discriminate].
Qed.

Lemma stops_and (k : nat) (t : Token) :
  stops k t = true -> (k <= 1)%nat -> isOperator t "&&" = false.
Proof.
  unfold stops. intros H Hk. repeat (apply andb_prop in H as [H ?]).
  destruct (isOperator t "&&"); [ | reflexivity].
  destruct (Nat.ltb_spec 1 k); [lia | discriminate].
Qed.

Lemma stops_or (t : Token) : stops 0 t = true -> isOperator t "||" = false.
Proof.
  unfold stops. intros H. repeat (apply andb_prop in H as [H ?]).
  destruct (isOperator t "||"); [ | reflexivity]. discriminate.
Qed.

Lemma stops_mono (k k' : nat) (t : Token) :
  stops k t = true -> (k <= k')%nat -> stops k' t = true.
Proof.
  unfold stops. intros H Hk. repeat (apply andb_prop in H as [H ?]).
  repeat (apply andb_true_intro; split); trivial;
    match goal with
    | H : (negb ?b || (?j <? k)%nat) = true |- (negb ?b || (?j <? k')%nat) = true =>
        destruct b; [ | reflexivity]; simpl in *;
        apply Nat.ltb_lt in H; apply Nat.ltb_lt; lia
    end.
Qed.

Lemma operatorLevel_le (operator : string) : (operatorLevel operator <= 2)%nat.
Proof.
  unfold operatorLevel.
  destruct (String.eqb operator "||"); [lia | ].
  destruct (String.eqb operator "&&"); lia.
Qed.

Lemma operator_stops (operator : string) :
  stops (S (operatorLevel operator)) (mkToken Toperator operator) = true.
Proof.
  unfold stops, operatorLevel, isCompOp, isOperator, isType. cbn [type text TokenType_eqb negb andb].
  rewrite (String.eqb_sym operator "||"), (String.eqb_sym operator "&&").
  destruct (String.eqb "||" operator) eqn:Hor.
  - apply String.eqb_eq in Hor. subst operator. reflexivity.
  - destruct (String.eqb "&&" operator) eqn:Hand.
    + apply String.eqb_eq in Hand. subst operator. reflexivity.
    + cbn. now rewrite orb_true_r.
Qed.

Lemma comparison_token (operator : string) :
  knownBinary operator = true -> operatorLevel operator = 2%nat ->
  isCompOp (mkToken Toperator operator) = true.
Proof.
  unfold knownBinary, binaryOperators, operatorLevel, isCompOp, compOps, isType.
  cbn [type text TokenType_eqb andb existsb].
  destruct (String.eqb operator "||"); [discriminate | ].
  destruct (String.eqb operator "&&"); [discriminate | ].
  intros H _. exact H.
Qed.

Lemma operatorLevel_and (operator : string) :
  operatorLevel operator = 1%nat -> operator = "&&".
Proof.
  unfold operatorLevel.
  destruct (String.eqb operator "||"); [discriminate | ].
  destruct (String.eqb operator "&&") eqn:H; [ | discriminate].
  intros _. now apply String.eqb_eq.
Qed.

Lemma operatorLevel_or (operator : string) :
  operatorLevel operator = 0%nat -> operator = "||".
Proof.
  unfold operatorLevel.
  destruct (String.eqb operator "||") eqn:H; [intros _; now apply String.eqb_eq | ].
  destruct (String.eqb operator "&&"); discriminate.
Qed.

Lemma spine_tighter (k : nat) (node : AstNode) :
  (k < levelOf node)%nat -> spine k node = 0%nat.
Proof.
  destruct node; try reflexivity. simpl. intros H.
  destruct (Nat.eqb_spec (operatorLevel operator) k); [lia | reflexivity].
Qed.

Lemma postfixSteps_length (node : AstNode) :
  (postfixSteps node <= List.length (unparse node))%nat.
Proof.
  induction node; simpl; try lia; rewrite length_app; simpl; lia.
Qed.

Lemma bangs_length (node : AstNode) : (bangs node <= List.length (unparse node))%nat.
Proof. induction node; simpl; try lia; rewrite length_app; simpl; lia. Qed.

Lemma spine_length (k : nat) (node : AstNode) :
  (spine k node <= List.length (unparse node))%nat.
Proof.
  induction node; simpl; try lia.
  destruct (_ =? _)%nat; rewrite length_app; simpl; lia.
Qed.

(** The first token of an expression closes nothing and is no comma; that
    of a postfix expression is no operator. *)
Lemma unparse_head (node : AstNode) :
  exists t l, unparse node = t :: l /\
    isType t Trparen = false /\ isType t Trbracket = false /\
    (grammatical node = true -> (4 <= levelOf node)%nat -> isOperator t "!" = false).
Proof.
  induction node as
    [ v | name | object IH property | elements | object IH method args
    | operator lhs IHl rhs IHr | operator operand IH | expression IH ].
  - exists (literalToken v), []. now destruct v.
  - now eexists _, [].
  - destruct IH as (t & l & E & H1 & H2 & H3). cbn [unparse grammatical]. rewrite E. cbn [app].
    eexists t, _. repeat split; trivial. intros Hg _.
    apply andb_prop in Hg as [Hg Hl]. apply Nat.leb_le in Hl. auto.
  - now eexists _, _.
  - destruct IH as (t & l & E & H1 & H2 & H3). cbn [unparse grammatical]. rewrite E. cbn [app].
    eexists t, _. repeat split; trivial. intros Hg _.
    apply andb_prop in Hg as [Hg _]. apply andb_prop in Hg as [Hg Hl].
    apply Nat.leb_le in Hl. auto.
  - destruct IHl as (t & l & E & H1 & H2 & H3). cbn [unparse grammatical]. rewrite E. cbn [app].
    eexists t, _. repeat split; trivial. intros _ Hl.
    cbn [levelOf] in Hl. pose proof (operatorLevel_le operator). lia.
  - cbn [unparse grammatical]. eexists _, _. repeat split; trivial.
    intros _ Hl. cbn [levelOf] in Hl. lia.
  - now eexists _, _.
Qed.

Section Tokens.

Variable tokens : list Token.

Local Notation "'len'" := (List.length tokens).

Lemma readsAt_cons (pos : nat) (t : Token) (l : list Token) :
  readsAt tokens pos (t :: l) ->
  nth_error tokens pos = Some t /\ readsAt tokens (pos + 1) l.
Proof.
  unfold readsAt. intros H. split.
  - rewrite <- hd_error_skipn, H. reflexivity.
  - rewrite Nat.add_comm, <- skipn_skipn, H. reflexivity.
Qed.

Lemma readsAt_app (pos : nat) (a b : list Token) :
  readsAt tokens pos (a ++ b) -> readsAt tokens (pos + List.length a) b.
Proof.
  unfold readsAt. intros H.
  rewrite Nat.add_comm, <- skipn_skipn, H, skipn_app, skipn_all, Nat.sub_diag.
  reflexivity.
Qed.

Lemma readsAt_length (pos : nat) (a : list Token) (t : Token) (b : list Token) :
  readsAt tokens pos (a ++ t :: b) -> (pos + List.length a < len)%nat.
Proof.
  unfold readsAt. intros H. apply (f_equal (@List.length Token)) in H.
  rewrite length_skipn, length_app in H. simpl in H. lia.
Qed.

Lemma step_peek {B : Type} (k : Token -> M B) (pos : nat) (t : Token) :
  nth_error tokens pos = Some t -> bindM (peek tokens) k pos = k t pos.
Proof. unfold bindM, peek. now intros ->. Qed.

Lemma step_consume {B : Type} (k : option Token -> M B) (pos : nat) (t : Token) :
  nth_error tokens pos = Some t ->
  bindM (consume tokens None) k pos = k (Some t) (pos + 1)%nat.
Proof. unfold bindM, consume. now intros ->. Qed.

Lemma step_expect {B : Type} (k : option Token -> M B) (pos : nat) (t : Token)
  (ty : TokenType) :
  nth_error tokens pos = Some t -> isType t ty = true ->
  bindM (consume tokens (Some ty)) k pos = k (Some t) (pos + 1)%nat.
Proof. unfold bindM, consume, isType. now intros -> ->. Qed.

Lemma step_ret {A B : Type} (a : A) (k : A -> M B) (pos : nat) :
  bindM (ret a) k pos = k a pos.
Proof. reflexivity. Qed.

Lemma step_bind {A B : Type} (m : M A) (k : A -> M B) (pos pos' : nat) (a : A) :
  m pos = Some (Ok (a, pos')) -> bindM m k pos = k a pos'.
Proof. unfold bindM. now intros ->. Qed.

Lemma unparseMore_length (items : list AstNode) :
  (List.length items <= List.length (unparseMore unparse items))%nat.
Proof.
  induction items as [ | item items IH]; [reflexivity | ].
  unfold unparseMore in *. cbn [flat_map List.length app].
  rewrite length_app. lia.
Qed.

Lemma unparseMore_next (items : list AstNode) (c : Token) (rest : list Token) :
  stops 0 c = true ->
  exists t l, (unparseMore unparse items ++ c :: rest)%list = t :: l /\ stops 0 t = true.
Proof.
  intros Hc. destruct items as [ | item items].
  - now exists c, rest.
  - now eexists _, _.
Qed.

Section Levels.

Variable parseOrRec : M AstNode.
Variable base : nat.

Hypothesis parseOrRec_unparse :
  forall (node : AstNode) (pos : nat) (t : Token) (rest : list Token),
    grammatical node = true -> printable node -> (base < pos)%nat ->
    readsAt tokens pos (unparse node ++ t :: rest) -> stops 0 t = true ->
    parseOrRec pos = Some (Ok (node, (pos + List.length (unparse node))%nat)).

Lemma parseMore_unparse (items : list AstNode) :
  forall (acc : list AstNode) (pos n : nat) (c : Token) (rest : list Token),
    forallb grammatical items = true ->
    fold_right (fun item P => printable item /\ P) True items ->
    (base < pos)%nat ->
    readsAt tokens pos (unparseMore unparse items ++ c :: rest) ->
    isType c Tcomma = false -> stops 0 c = true ->
    parseMore tokens parseOrRec (List.length items + S n) acc pos =
      Some (Ok ((acc ++ items)%list,
                (pos + List.length (unparseMore unparse items))%nat)).
Proof.
  induction items as [ | item items IH]; intros acc pos n c rest Hg Hp Hpos Hr Hc Hs.
  - apply readsAt_cons in Hr as [Hn _].
    cbn [List.length Nat.add parseMore].
    rewrite (step_peek _ _ _ Hn), Hc. unfold ret.
    now rewrite app_nil_r, Nat.add_0_r.
  - cbn [forallb] in Hg. apply andb_prop in Hg as [Hgi Hg]. destruct Hp as [Hpi Hp].
    unfold unparseMore in Hr. cbn [flat_map] in Hr.
    fold (unparseMore unparse items) in Hr.
    rewrite <- app_assoc in Hr. cbn [app] in Hr.
    apply readsAt_cons in Hr as [Hn Hr].
    destruct (unparseMore_next items c rest Hs) as (t' & l' & E & Hs').
    pose proof Hr as Hitem. rewrite E in Hitem.
    apply parseOrRec_unparse in Hitem; trivial; [ | lia].
    apply readsAt_app in Hr.
    cbn [List.length Nat.add parseMore].
    rewrite (step_peek _ _ _ Hn).
    change (isType (mkToken Tcomma ",") Tcomma) with true. cbv iota.
    rewrite (step_consume _ _ _ Hn), (step_bind _ _ _ _ _ Hitem).
    rewrite (IH _ _ n c rest Hg Hp); trivial; [ | lia].
    rewrite <- app_assoc. cbn [app].
    unfold unparseMore. cbn [flat_map List.length app]. rewrite length_app.
    do 3 f_equal. lia.
Qed.

Lemma parseItems_unparse (closing : TokenType) (items : list AstNode)
  (pos : nat) (c : Token) (rest : list Token) :
  forallb grammatical items = true ->
  fold_right (fun item P => printable item /\ P) True items ->
  (base < pos)%nat ->
  readsAt tokens pos (unparseItems unparse items ++ c :: rest) ->
  closing = Trparen \/ closing = Trbracket ->
  isType c closing = true -> isType c Tcomma = false -> stops 0 c = true ->
  parseItems tokens parseOrRec closing pos =
    Some (Ok (items, (pos + List.length (unparseItems unparse items))%nat)).
Proof.
  intros Hg Hp Hpos Hr Hclosing Hc Hcomma Hs. unfold parseItems.
  destruct items as [ | item items].
  - apply readsAt_cons in Hr as [Hn _].
    rewrite (step_peek _ _ _ Hn), Hc. unfold ret. cbn. now rewrite Nat.add_0_r.
  - cbn [forallb] in Hg. apply andb_prop in Hg as [Hgi Hg]. destruct Hp as [Hpi Hp].
    cbn [unparseItems] in *. rewrite <- app_assoc in Hr.
    destruct (unparse_head item) as (t0 & l0 & E0 & H1 & H2 & _).
    assert (Hn : nth_error tokens pos = Some t0).
    { pose proof Hr as Hr'. rewrite E0 in Hr'. cbn [app] in Hr'.
      now apply readsAt_cons in Hr' as [Hn _]. }
    assert (Ht0 : isType t0 closing = false) by (destruct Hclosing; now subst).
    destruct (unparseMore_next items c rest Hs) as (t' & l' & E & Hs').
    pose proof Hr as Hitem. rewrite E in Hitem.
    apply parseOrRec_unparse in Hitem; trivial.
    apply readsAt_app in Hr.
    pose proof (readsAt_length _ _ _ _ Hr) as Hlen.
    pose proof (unparseMore_length items) as Hitems.
    rewrite (step_peek _ _ _ Hn), Ht0. cbn [negb].
    rewrite (step_bind _ _ _ _ _ Hitem).
    replace (turns tokens) with (List.length items + S (len - List.length items))%nat
      by (unfold turns; lia).
    rewrite (parseMore_unparse items _ _ _ c rest); trivial; [ | lia].
    rewrite length_app. cbn [app]. do 3 f_equal. lia.
Qed.

Lemma parsePrimary_unparse (node : AstNode) (pos : nat) (t : Token)
  (rest : list Token) :
  grammatical node = true -> printable node -> (5 <= levelOf node)%nat ->
  (base <= pos)%nat -> readsAt tokens pos (unparse node ++ t :: rest) ->
  parsePrimary tokens parseOrRec pos =
    Some (Ok (node, (pos + List.length (unparse node))%nat)).
Proof.
  intros Hg Hp Hl Hpos Hr. unfold parsePrimary.
  destruct node as
    [ v | name | object property | elements | object method args
    | operator lhs rhs | operator operand | expression ];
    cbn [levelOf] in Hl; try lia.
  - cbn [unparse app] in Hr. apply readsAt_cons in Hr as [Hn _].
    rewrite (step_peek _ _ _ Hn).
    destruct v as [s | x | b | ]; cbn [literalToken type text];
      rewrite (step_consume _ _ _ Hn); unfold ret; cbn [unparse List.length].
    + reflexivity.
    + cbn [printable] in Hp. now rewrite Hp.
    + now destruct b.
    + reflexivity.
  - cbn [unparse app] in Hr. apply readsAt_cons in Hr as [Hn _].
    rewrite (step_peek _ _ _ Hn). cbn [type text].
    rewrite (step_consume _ _ _ Hn). reflexivity.
  - cbn [unparse app grammatical printable] in *.
    apply readsAt_cons in Hr as [Hn Hr]. rewrite <- app_assoc in Hr. cbn [app] in Hr.
    rewrite (step_peek _ _ _ Hn). cbn [type].
    rewrite (step_consume _ _ _ Hn).
    rewrite (step_bind _ _ _ _ _
               (parseItems_unparse Trbracket elements (pos + 1) _ _ Hg Hp ltac:(lia) Hr
                  (or_intror eq_refl) eq_refl eq_refl eq_refl)).
    apply readsAt_app in Hr. apply readsAt_cons in Hr as [Hn' _].
    rewrite (step_expect _ _ _ Trbracket Hn' eq_refl). unfold ret.
    cbn [List.length]. rewrite length_app. cbn [List.length]. do 3 f_equal. lia.
  - pose proof (operatorLevel_le operator). lia.
  - cbn [unparse app grammatical printable] in *.
    apply readsAt_cons in Hr as [Hn Hr]. rewrite <- app_assoc in Hr. cbn [app] in Hr.
    rewrite (step_peek _ _ _ Hn). cbn [type].
    rewrite (step_consume _ _ _ Hn).
    rewrite (step_bind _ _ _ _ _
               (parseOrRec_unparse expression (pos + 1) _ _ Hg Hp ltac:(lia) Hr eq_refl)).
    apply readsAt_app in Hr. apply readsAt_cons in Hr as [Hn' _].
    rewrite (step_expect _ _ _ Trparen Hn' eq_refl). unfold ret.
    cbn [List.length]. rewrite length_app. cbn [List.length]. do 3 f_equal. lia.
Qed.

Lemma postfixLoop_unparse (node : AstNode) :
  forall (pos n : nat) (t : Token) (rest : list Token),
    grammatical node = true -> printable node -> (4 <= levelOf node)%nat ->
    (base <= pos)%nat -> readsAt tokens pos (unparse node ++ t :: rest) ->
    isType t Tlparen = false ->
    bindM (parsePrimary tokens parseOrRec)
      (postfixLoop tokens parseOrRec (postfixSteps node + n)) pos =
    postfixLoop tokens parseOrRec n node (pos + List.length (unparse node))%nat.
Proof.
  induction node as
    [ v | name | object IH property | elements | object IH method args
    | operator lhs _ rhs _ | operator operand _ | expression _ ];
    intros pos n t rest Hg Hp Hl Hpos Hr Ht;
    try (now rewrite (step_bind _ _ _ _ _
                        (parsePrimary_unparse _ _ _ _ Hg Hp ltac:(cbn; lia) Hpos Hr))).
  - cbn [grammatical printable unparse] in *.
    apply andb_prop in Hg as [Hg Hlo]. apply Nat.leb_le in Hlo.
    rewrite <- app_assoc in Hr. cbn [app] in Hr.
    cbn [postfixSteps]. replace (S (postfixSteps object) + n)%nat
      with (postfixSteps object + S n)%nat by lia.
    rewrite (IH _ _ _ _ Hg Hp Hlo Hpos Hr eq_refl).
    apply readsAt_app in Hr.
    apply readsAt_cons in Hr as [Hn1 Hr]. apply readsAt_cons in Hr as [Hn2 Hr].
    apply readsAt_cons in Hr as [Hn3 _].
    cbn [postfixLoop]. rewrite (step_peek _ _ _ Hn1).
    change (isType (mkToken Tdot ".") Tdot) with true. cbv iota.
    rewrite (step_consume _ _ _ Hn1), (step_expect _ _ _ Tidentifier Hn2 eq_refl).
    cbn [valueOf text]. rewrite step_ret, (step_peek _ _ _ Hn3), Ht.
    f_equal. rewrite length_app. cbn [List.length]. lia.
  - cbn [grammatical printable unparse] in *.
    apply andb_prop in Hg as [Hg Hga]. apply andb_prop in Hg as [Hg Hlo].
    apply Nat.leb_le in Hlo. destruct Hp as [Hp Hpa].
    rewrite <- app_assoc in Hr. cbn [app] in Hr.
    rewrite <- app_assoc in Hr. cbn [app] in Hr.
    cbn [postfixSteps]. replace (S (postfixSteps object) + n)%nat
      with (postfixSteps object + S n)%nat by lia.
    rewrite (IH _ _ _ _ Hg Hp Hlo Hpos Hr eq_refl).
    apply readsAt_app in Hr.
    apply readsAt_cons in Hr as [Hn1 Hr]. apply readsAt_cons in Hr as [Hn2 Hr].
    apply readsAt_cons in Hr as [Hn3 Hr].
    cbn [postfixLoop]. rewrite (step_peek _ _ _ Hn1).
    change (isType (mkToken Tdot ".") Tdot) with true. cbv iota.
    rewrite (step_consume _ _ _ Hn1), (step_expect _ _ _ Tidentifier Hn2 eq_refl).
    cbn [valueOf text]. rewrite step_ret, (step_peek _ _ _ Hn3).
    change (isType (mkToken Tlparen "(") Tlparen) with true. cbv iota.
    rewrite (step_consume _ _ _ Hn3).
    rewrite (step_bind _ _ _ _ _
               (parseItems_unparse Trparen args
                  (pos + List.length (unparse object) + 1 + 1 + 1)%nat _ _ Hga Hpa
                  ltac:(lia) Hr
                  (or_introl eq_refl) eq_refl eq_refl eq_refl)).
    apply readsAt_app in Hr. apply readsAt_cons in Hr as [Hn4 _].
    rewrite (step_expect _ _ _ Trparen Hn4 eq_refl).
    f_equal. rewrite !length_app. cbn [List.length]. rewrite length_app.
    cbn [List.length]. lia.
  - cbn [levelOf] in Hl. pose proof (operatorLevel_le operator). lia.
  - cbn [levelOf] in Hl. lia.
Qed.

Lemma parsePostfix_unparse (node : AstNode) (pos : nat) (t : Token)
  (rest : list Token) :
  grammatical node = true -> printable node -> (4 <= levelOf node)%nat ->
  (base <= pos)%nat -> readsAt tokens pos (unparse node ++ t :: rest) ->
  stops 4 t = true ->
  parsePostfix tokens parseOrRec pos =
    Some (Ok (node, (pos + List.length (unparse node))%nat)).
Proof.
  intros Hg Hp Hl Hpos Hr Hs. unfold parsePostfix.
  pose proof (readsAt_length _ _ _ _ Hr) as Hlen.
  pose proof (postfixSteps_length node) as Hsteps.
  replace (turns tokens) with (postfixSteps node + S (len - postfixSteps node))%nat
    by (unfold turns; lia).
  rewrite (postfixLoop_unparse node _ _ _ _ Hg Hp Hl Hpos Hr (stops_lparen _ _ Hs)).
  apply readsAt_app in Hr. apply readsAt_cons in Hr as [Hn _].
  cbn [postfixLoop].
  now rewrite (step_peek _ _ _ Hn), (stops_dot _ _ Hs ltac:(lia)).
Qed.

Lemma parseUnaryN_postfix (node : AstNode) (pos n : nat) (t : Token)
  (rest : list Token) :
  grammatical node = true -> printable node -> (4 <= levelOf node)%nat ->
  (base <= pos)%nat -> readsAt tokens pos (unparse node ++ t :: rest) ->
  stops 4 t = true ->
  parseUnaryN tokens parseOrRec (S n) pos =
    Some (Ok (node, (pos + List.length (unparse node))%nat)).
Proof.
  intros Hg Hp Hl Hpos Hr Hs.
  destruct (unparse_head node) as (t0 & l0 & E0 & _ & _ & H0).
  assert (Hn : nth_error tokens pos = Some t0).
  { pose proof Hr as Hr'. rewrite E0 in Hr'. cbn [app] in Hr'.
    now apply readsAt_cons in Hr' as [Hn _]. }
  cbn [parseUnaryN]. rewrite (step_peek _ _ _ Hn), (H0 Hg Hl).
  now apply parsePostfix_unparse with t rest.
Qed.

Lemma parseUnaryN_unparse (node : AstNode) :
  forall (pos n : nat) (t : Token) (rest : list Token),
    grammatical node = true -> printable node -> (3 <= levelOf node)%nat ->
    (base <= pos)%nat -> readsAt tokens pos (unparse node ++ t :: rest) ->
    stops 4 t = true ->
    parseUnaryN tokens parseOrRec (bangs node + S n) pos =
      Some (Ok (node, (pos + List.length (unparse node))%nat)).
Proof.
  induction node as
    [ v | name | object _ property | elements | object _ method args
    | operator lhs _ rhs _ | operator operand IH | expression _ ];
    intros pos n t rest Hg Hp Hl Hpos Hr Hs;
    try (apply parseUnaryN_postfix with t rest; trivial; cbn [levelOf]; lia).
  - cbn [levelOf] in Hl. pose proof (operatorLevel_le operator). lia.
  - cbn [grammatical printable unparse app] in *.
    apply andb_prop in Hg as [Hg Hlo]. apply andb_prop in Hg as [Hop Hg].
    apply Nat.leb_le in Hlo. apply String.eqb_eq in Hop. subst operator.
    apply readsAt_cons in Hr as [Hn Hr].
    cbn [bangs Nat.add parseUnaryN]. rewrite (step_peek _ _ _ Hn).
    change (isOperator (mkToken Toperator "!") "!") with true. cbv iota.
    rewrite (step_consume _ _ _ Hn).
    rewrite (step_bind _ _ _ _ _ (IH (pos + 1)%nat n _ _ Hg Hp Hlo ltac:(lia) Hr Hs)).
    unfold ret. cbn [List.length]. do 3 f_equal. lia.
Qed.

Lemma parseUnary_unparse (node : AstNode) (pos : nat) (t : Token)
  (rest : list Token) :
  grammatical node = true -> printable node -> (3 <= levelOf node)%nat ->
  (base <= pos)%nat -> readsAt tokens pos (unparse node ++ t :: rest) ->
  stops 3 t = true ->
  parseUnary tokens parseOrRec pos =
    Some (Ok (node, (pos + List.length (unparse node))%nat)).
Proof.
  intros Hg Hp Hl Hpos Hr Hs. unfold parseUnary.
  pose proof (readsAt_length _ _ _ _ Hr) as Hlen.
  pose proof (bangs_length node) as Hbangs.
  replace (turns tokens) with (bangs node + S (len - bangs node))%nat
    by (unfold turns; lia).
  apply parseUnaryN_unparse with t rest; trivial.
Qed.

(** The loop of [parseComparison] reaches the tree after the turns of its
    left spine. *)
Lemma comparisonLoop_unparse (node : AstNode) :
  forall (pos n : nat) (t : Token) (rest : list Token),
    grammatical node = true -> printable node -> (2 <= levelOf node)%nat ->
    (base <= pos)%nat -> readsAt tokens pos (unparse node ++ t :: rest) ->
    stops 3 t = true ->
    bindM (parseUnary tokens parseOrRec)
      (comparisonLoop tokens parseOrRec (spine 2 node + n)) pos =
    comparisonLoop tokens parseOrRec n node (pos + List.length (unparse node))%nat.
Proof.
  assert (tighter : forall node pos n t rest,
    grammatical node = true -> printable node -> (3 <= levelOf node)%nat ->
    (base <= pos)%nat -> readsAt tokens pos (unparse node ++ t :: rest) ->
    stops 3 t = true ->
    bindM (parseUnary tokens parseOrRec)
      (comparisonLoop tokens parseOrRec (spine 2 node + n)) pos =
    comparisonLoop tokens parseOrRec n node (pos + List.length (unparse node))%nat).
  { intros e pos n t rest Hg Hp Hl Hpos Hr Hs.
    rewrite (step_bind _ _ _ _ _ (parseUnary_unparse _ _ _ _ Hg Hp Hl Hpos Hr Hs)).
    now rewrite spine_tighter by lia. }
  induction node as
    [ v | name | object _ property | elements | object _ method args
    | operator lhs IH rhs _ | operator operand _ | expression _ ];
    intros pos n t rest Hg Hp Hl Hpos Hr Hs;
    try (apply tighter with t rest; trivial; cbn [levelOf]; lia).
  cbn [levelOf] in Hl. pose proof (operatorLevel_le operator) as Hle.
  assert (Hop : operatorLevel operator = 2%nat) by lia.
  cbn [grammatical printable unparse] in *. rewrite Hop in Hg.
  apply andb_prop in Hg as [Hg Hlr]. apply andb_prop in Hg as [Hg Hgr].
  apply andb_prop in Hg as [Hg Hll]. apply andb_prop in Hg as [Hknown Hgl].
  apply Nat.leb_le in Hll. apply Nat.ltb_lt in Hlr. destruct Hp as [Hpl Hpr].
  rewrite <- app_assoc in Hr. cbn [app] in Hr.
  cbn [spine]. rewrite Hop. cbn [Nat.eqb].
  replace (S (spine 2 lhs) + n)%nat with (spine 2 lhs + S n)%nat by lia.
  pose proof (operator_stops operator) as Hso. rewrite Hop in Hso.
  rewrite (IH _ _ _ _ Hgl Hpl Hll Hpos Hr Hso).
  apply readsAt_app in Hr. apply readsAt_cons in Hr as [Hn Hr].
  cbn [comparisonLoop]. rewrite (step_peek _ _ _ Hn).
  rewrite (comparison_token _ Hknown Hop).
  rewrite (step_consume _ _ _ Hn). cbn [valueOf text]. rewrite step_ret.
  rewrite (step_bind _ _ _ _ _
             (parseUnary_unparse rhs (pos + List.length (unparse lhs) + 1)%nat _ _
                Hgr Hpr ltac:(lia) ltac:(lia) Hr Hs)).
  f_equal. rewrite length_app. cbn [List.length]. lia.
Qed.

Lemma parseComparison_unparse (node : AstNode) (pos : nat) (t : Token)
  (rest : list Token) :
  grammatical node = true -> printable node -> (2 <= levelOf node)%nat ->
  (base <= pos)%nat -> readsAt tokens pos (unparse node ++ t :: rest) ->
  stops 2 t = true ->
  parseComparison tokens parseOrRec pos =
    Some (Ok (node, (pos + List.length (unparse node))%nat)).
Proof.
  intros Hg Hp Hl Hpos Hr Hs. unfold parseComparison.
  pose proof (readsAt_length _ _ _ _ Hr) as Hlen.
  pose proof (spine_length 2 node) as Hspine.
  replace (turns tokens) with (spine 2 node + S (len - spine 2 node))%nat
    by (unfold turns; lia).
  rewrite (comparisonLoop_unparse node _ _ _ _ Hg Hp Hl Hpos Hr
             (stops_mono 2 3 _ Hs ltac:(lia))).
  apply readsAt_app in Hr. apply readsAt_cons in Hr as [Hn _].
  cbn [comparisonLoop].
  now rewrite (step_peek _ _ _ Hn), (stops_comp _ _ Hs ltac:(lia)).
Qed.

Lemma andLoop_unparse (node : AstNode) :
  forall (pos n : nat) (t : Token) (rest : list Token),
    grammatical node = true -> printable node -> (1 <= levelOf node)%nat ->
    (base <= pos)%nat -> readsAt tokens pos (unparse node ++ t :: rest) ->
    stops 2 t = true ->
    bindM (parseComparison tokens parseOrRec)
      (andLoop tokens parseOrRec (spine 1 node + n)) pos =
    andLoop tokens parseOrRec n node (pos + List.length (unparse node))%nat.
Proof.
  assert (tighter : forall node pos n t rest,
    grammatical node = true -> printable node -> (2 <= levelOf node)%nat ->
    (base <= pos)%nat -> readsAt tokens pos (unparse node ++ t :: rest) ->
    stops 2 t = true ->
    bindM (parseComparison tokens parseOrRec)
      (andLoop tokens parseOrRec (spine 1 node + n)) pos =
    andLoop tokens parseOrRec n node (pos + List.length (unparse node))%nat).
  { intros e pos n t rest Hg Hp Hl Hpos Hr Hs.
    rewrite (step_bind _ _ _ _ _ (parseComparison_unparse _ _ _ _ Hg Hp Hl Hpos Hr Hs)).
    now rewrite spine_tighter by lia. }
  induction node as
    [ v | name | object _ property | elements | object _ method args
    | operator lhs IH rhs _ | operator operand _ | expression _ ];
    intros pos n t rest Hg Hp Hl Hpos Hr Hs;
    try (apply tighter with t rest; trivial; cbn [levelOf]; lia).
  destruct (Nat.eq_dec (operatorLevel operator) 1) as [Hop | Hop];
    [ | apply tighter with t rest; trivial; cbn [levelOf] in *; lia].
  pose proof (operatorLevel_and _ Hop). subst operator.
  cbn [grammatical printable unparse] in *. rewrite Hop in Hg.
  apply andb_prop in Hg as [Hg Hlr]. apply andb_prop in Hg as [Hg Hgr].
  apply andb_prop in Hg as [Hg Hll]. apply andb_prop in Hg as [_ Hgl].
  apply Nat.leb_le in Hll. apply Nat.ltb_lt in Hlr. destruct Hp as [Hpl Hpr].
  rewrite <- app_assoc in Hr. cbn [app] in Hr.
  cbn [spine]. rewrite Hop. cbn [Nat.eqb].
  replace (S (spine 1 lhs) + n)%nat with (spine 1 lhs + S n)%nat by lia.
  rewrite (IH _ _ _ _ Hgl Hpl Hll Hpos Hr eq_refl).
  apply readsAt_app in Hr. apply readsAt_cons in Hr as [Hn Hr].
  cbn [andLoop]. rewrite (step_peek _ _ _ Hn).
  change (isOperator (mkToken Toperator "&&") "&&") with true. cbv iota.
  rewrite (step_consume _ _ _ Hn).
  rewrite (step_bind _ _ _ _ _
             (parseComparison_unparse rhs (pos + List.length (unparse lhs) + 1)%nat _ _
                Hgr Hpr ltac:(lia) ltac:(lia) Hr Hs)).
  f_equal. rewrite length_app. cbn [List.length]. lia.
Qed.

Lemma parseAnd_unparse (node : AstNode) (pos : nat) (t : Token)
  (rest : list Token) :
  grammatical node = true -> printable node -> (1 <= levelOf node)%nat ->
  (base <= pos)%nat -> readsAt tokens pos (unparse node ++ t :: rest) ->
  stops 1 t = true ->
  parseAnd tokens parseOrRec pos =
    Some (Ok (node, (pos + List.length (unparse node))%nat)).
Proof.
  intros Hg Hp Hl Hpos Hr Hs. unfold parseAnd.
  pose proof (readsAt_length _ _ _ _ Hr) as Hlen.
  pose proof (spine_length 1 node) as Hspine.
  replace (turns tokens) with (spine 1 node + S (len - spine 1 node))%nat
    by (unfold turns; lia).
  rewrite (andLoop_unparse node _ _ _ _ Hg Hp Hl Hpos Hr
             (stops_mono 1 2 _ Hs ltac:(lia))).
  apply readsAt_app in Hr. apply readsAt_cons in Hr as [Hn _].
  cbn [andLoop].
  now rewrite (step_peek _ _ _ Hn), (stops_and _ _ Hs ltac:(lia)).
Qed.

Lemma orLoop_unparse (node : AstNode) :
  forall (pos n : nat) (t : Token) (rest : list Token),
    grammatical node = true -> printable node ->
    (base <= pos)%nat -> readsAt tokens pos (unparse node ++ t :: rest) ->
    stops 1 t = true ->
    bindM (parseAnd tokens parseOrRec)
      (orLoop tokens parseOrRec (spine 0 node + n)) pos =
    orLoop tokens parseOrRec n node (pos + List.length (unparse node))%nat.
Proof.
  assert (tighter : forall node pos n t rest,
    grammatical node = true -> printable node -> (1 <= levelOf node)%nat ->
    (base <= pos)%nat -> readsAt tokens pos (unparse node ++ t :: rest) ->
    stops 1 t = true ->
    bindM (parseAnd tokens parseOrRec)
      (orLoop tokens parseOrRec (spine 0 node + n)) pos =
    orLoop tokens parseOrRec n node (pos + List.length (unparse node))%nat).
  { intros e pos n t rest Hg Hp Hl Hpos Hr Hs.
    rewrite (step_bind _ _ _ _ _ (parseAnd_unparse _ _ _ _ Hg Hp Hl Hpos Hr Hs)).
    now rewrite spine_tighter by lia. }
  induction node as
    [ v | name | object _ property | elements | object _ method args
    | operator lhs IH rhs _ | operator operand _ | expression _ ];
    intros pos n t rest Hg Hp Hpos Hr Hs;
    try (apply tighter with t rest; trivial; cbn [levelOf]; lia).
  destruct (Nat.eq_dec (operatorLevel operator) 0) as [Hop | Hop];
    [ | apply tighter with t rest; trivial; cbn [levelOf] in *; lia].
  pose proof (operatorLevel_or _ Hop). subst operator.
  cbn [grammatical printable unparse] in *. rewrite Hop in Hg.
  apply andb_prop in Hg as [Hg Hlr]. apply andb_prop in Hg as [Hg Hgr].
  apply andb_prop in Hg as [Hg Hll]. apply andb_prop in Hg as [_ Hgl].
  apply Nat.ltb_lt in Hlr. destruct Hp as [Hpl Hpr].
  rewrite <- app_assoc in Hr. cbn [app] in Hr.
  cbn [spine]. rewrite Hop. cbn [Nat.eqb].
  replace (S (spine 0 lhs) + n)%nat with (spine 0 lhs + S n)%nat by lia.
  rewrite (IH _ _ _ _ Hgl Hpl Hpos Hr eq_refl).
  apply readsAt_app in Hr. apply readsAt_cons in Hr as [Hn Hr].
  cbn [orLoop]. rewrite (step_peek _ _ _ Hn).
  change (isOperator (mkToken Toperator "||") "||") with true. cbv iota.
  rewrite (step_consume _ _ _ Hn).
  rewrite (step_bind _ _ _ _ _
             (parseAnd_unparse rhs (pos + List.length (unparse lhs) + 1)%nat _ _
                Hgr Hpr ltac:(lia) ltac:(lia) Hr Hs)).
  f_equal. rewrite length_app. cbn [List.length]. lia.
Qed.

Lemma parseOrBody_unparse (node : AstNode) (pos : nat) (t : Token)
  (rest : list Token) :
  grammatical node = true -> printable node ->
  (base <= pos)%nat -> readsAt tokens pos (unparse node ++ t :: rest) ->
  stops 0 t = true ->
  parseOrBody tokens parseOrRec pos =
    Some (Ok (node, (pos + List.length (unparse node))%nat)).
Proof.
  intros Hg Hp Hpos Hr Hs. unfold parseOrBody.
  pose proof (readsAt_length _ _ _ _ Hr) as Hlen.
  pose proof (spine_length 0 node) as Hspine.
  replace (turns tokens) with (spine 0 node + S (len - spine 0 node))%nat
    by (unfold turns; lia).
  rewrite (orLoop_unparse node _ _ _ _ Hg Hp Hpos Hr
             (stops_mono 0 1 _ Hs ltac:(lia))).
  apply readsAt_app in Hr. apply readsAt_cons in Hr as [Hn _].
  cbn [orLoop].
  now rewrite (step_peek _ _ _ Hn), (stops_or _ Hs).
Qed.

End Levels.

(** [parseOr] with fuel above the number of tokens left. *)
Lemma parseOr_unparse (depth : nat) :
  forall (node : AstNode) (pos : nat) (t : Token) (rest : list Token),
    grammatical node = true -> printable node -> (len < pos + depth)%nat ->
    readsAt tokens pos (unparse node ++ t :: rest) -> stops 0 t = true ->
    parseOr tokens depth pos =
      Some (Ok (node, (pos + List.length (unparse node))%nat)).
Proof.
  induction depth as [ | depth IH]; intros node pos t rest Hg Hp Hd Hr Hs.
  - pose proof (readsAt_length _ _ _ _ Hr). lia.
  - cbn [parseOr].
    apply parseOrBody_unparse with (base := pos) (t := t) (rest := rest); trivial.
    intros node' pos' t' rest' Hg' Hp' Hpos' Hr' Hs'.
    apply IH with t' rest'; trivial. lia.
Qed.

End Tokens.

(** [parse()] on the tokens of a tree stops at the [eof] that follows
    them. *)
Lemma parseM_unparse (ast : AstNode) :
  grammatical ast = true -> printable ast ->
  parseM (unparse ast ++ [eofToken]) 0 =
    Some (Ok (ast, List.length (unparse ast))).
Proof.
  intros Hg Hp. unfold parseM.
  set (tokens := (unparse ast ++ [eofToken])%list).
  assert (Hr : readsAt tokens 0 (unparse ast ++ [eofToken])) by reflexivity.
  rewrite (step_bind _ _ _ _ _
             (parseOr_unparse tokens (turns tokens) ast 0 eofToken [] Hg Hp
                ltac:(unfold turns; lia) Hr eq_refl)).
  apply readsAt_app in Hr. apply readsAt_cons in Hr as [Hn _].
  now rewrite (step_peek tokens _ _ _ Hn).
Qed.

End ParserRoundTrip.

(** X10: the parser reads back every tree of the grammar from its tokens:
    for a tree that respects the precedence of the operators (their
    nesting otherwise under [parenthesized] nodes) and whose number
    literals are read back from their text, [parse] on the tokens of the
    tree followed by [eof] answers the tree itself. *)
Theorem parse_unparse (ast : AstNode) :
  grammatical ast = true -> printable ast ->
  Parser.parse (unparse ast ++ [eofToken]) = Ok ast.
Proof.
  intros Hg Hp. unfold Parser.parse.
  now rewrite (ParserRoundTrip.parseM_unparse ast Hg Hp).
Qed.

Lemma parse_unparse_witness :
  Parser.parse (unparse sampleTree ++ [eofToken]) = Ok sampleTree.
Proof.
  apply (parse_unparse sampleTree); [reflexivity | ].
  vm_compute. repeat split.
Defined.

(** ** Writing tokens and trees out as a source *)

Lemma span_prefix (p : ascii -> bool) (a : list ascii) (x : ascii) (r : list ascii) :
  forallb p a = true -> p x = false -> span p (a ++ x :: r)%list = (a, x :: r).
Proof.
  intros Ha Hx. induction a as [ | c a IH]; simpl.
  - now rewrite Hx.
  - simpl in Ha. apply andb_prop in Ha as [-> Ha]. now rewrite (IH Ha).
Qed.

Lemma tokenizeFrom_skipped (a rest : list ascii) : forall i : nat,
  tokenizeFrom (a ++ rest)%list i (List.length a) = tokenizeFrom rest (i + List.length a) 0.
Proof.
  induction a as [ | c a IH]; intros i; simpl.
  - now rewrite Nat.add_0_r.
  - rewrite IH. f_equal. lia.
Qed.

(** A turn of the loop on a lexeme that a space follows. *)
Lemma tokenizeFrom_scanned (c : ascii) (l rest : list ascii) (i : nat)
  (t : Token) (ts : list Token) :
  scan c (l ++ " "%char :: rest)%list i = Ok ([t], S (List.length l)) ->
  (forall j, tokenizeFrom rest j 0 = Ok ts) ->
  tokenizeFrom (c :: l ++ " "%char :: rest)%list i 0 = Ok (t :: ts).
Proof.
  intros Hscan Hrest. cbn [tokenizeFrom]. rewrite Hscan. cbn [bind].
  replace (S (List.length l) - 1)%nat with (List.length l) by lia.
  rewrite tokenizeFrom_skipped. cbn [tokenizeFrom].
  change (scan " " rest (i + 1 + List.length l)) with (@Ok (list Token * nat) ([], 1%nat)).
  cbn [bind Nat.sub]. now rewrite Hrest.
Qed.

Lemma scan_name (s : string) (c : ascii) (l rest : list ascii) (i : nat) :
  isIdentifierName s = true -> list_ascii_of_string s = c :: l ->
  scan c (l ++ " "%char :: rest)%list i = Ok ([keyword s], S (List.length l)).
Proof.
  unfold isIdentifierName. intros H Hs. rewrite Hs in H.
  apply andb_prop in H as [Hc Hl].
  destruct (identStart_not_special c Hc) as (Hw & Hq & Hd).
  unfold scan. unfold isQuote in Hq. rewrite Hw, Hq, Hd, Hc.
  change (c :: l ++ " "%char :: rest)%list with ((c :: l) ++ " "%char :: rest)%list.
  rewrite span_prefix; [ | | reflexivity].
  - cbn [fst]. rewrite <- Hs, string_of_list_ascii_of_string.
    rewrite <- (string_of_list_ascii_of_string s) at 2.
    now rewrite length_string_of_list_ascii, Hs.
  - simpl. now rewrite (isIdentStart_isIdentPart c Hc).
Qed.

Lemma scan_number (c : ascii) (l rest : list ascii) (i : nat) :
  isDigit c = true -> forallb isDigitOrDot l = true ->
  scan c (l ++ " "%char :: rest)%list i =
    Ok ([mkToken Tnumber (string_of_list_ascii (c :: l))], S (List.length l)).
Proof.
  intros Hc Hl. destruct (digit_not_special c Hc) as (Hw & Hq & Hqq & _).
  unfold scan. rewrite Hw, Hq, Hqq, Hc. cbn [orb].
  change (c :: l ++ " "%char :: rest)%list with ((c :: l) ++ " "%char :: rest)%list.
  rewrite span_prefix; [ | | reflexivity].
  - cbn [fst]. now rewrite length_string_of_list_ascii.
  - simpl. now rewrite (isDigit_isDigitOrDot c Hc).
Qed.

Lemma scan_string (body rest : list ascii) (i : nat) :
  scan "'" ((escape "'" body ++ ["'"%char]) ++ " "%char :: rest)%list i =
    Ok ([mkToken Tstring (string_of_list_ascii body)],
        S (List.length (escape "'" body ++ ["'"%char])%list)).
Proof.
  rewrite (quote_scan "'" _ i eq_refl), <- app_assoc. cbn [app].
  rewrite scanString_escape; [ | reflexivity | reflexivity].
  rewrite length_app. cbn [List.length]. do 2 f_equal; lia.
Qed.

Lemma tokenizeFrom_lexeme (t : Token) (rest : list ascii) (ts : list Token) (i : nat) :
  writable t = true ->
  (forall j, tokenizeFrom rest j 0 = Ok ts) ->
  tokenizeFrom (lexeme t ++ " "%char :: rest)%list i 0 = Ok (t :: ts).
Proof.
  unfold writable. intros H Hrest. apply andb_prop in H as [H Heof].
  assert (name : forall ty s, isIdentifierName s = true -> keyword s = mkToken ty s ->
            ty <> Tstring ->
            tokenizeFrom (lexeme (mkToken ty s) ++ " "%char :: rest)%list i 0
              = Ok (mkToken ty s :: ts)).
  { intros ty s Hs Hk Hty. unfold lexeme. cbn [type text].
    replace (match ty with Tstring => _ | _ => list_ascii_of_string s end)
      with (list_ascii_of_string s) by now destruct ty.
    destruct (list_ascii_of_string s) as [ | c l] eqn:E.
    { unfold isIdentifierName in Hs. now rewrite E in Hs. }
    cbn [app]. apply tokenizeFrom_scanned; [ | exact Hrest].
    rewrite <- Hk. now apply scan_name. }
  assert (fixed : forall ty (c : ascii) (l : list ascii),
            ty <> Tstring ->
            (forall r j, scan c (l ++ " "%char :: r)%list j
                         = Ok ([mkToken ty (string_of_list_ascii (c :: l))],
                               S (List.length l))) ->
            tokenizeFrom (lexeme (mkToken ty (string_of_list_ascii (c :: l)))
                            ++ " "%char :: rest)%list i 0
              = Ok (mkToken ty (string_of_list_ascii (c :: l)) :: ts)).
  { intros ty c l Hty Hscan. unfold lexeme. cbn [type text].
    replace (match ty with Tstring => _ | _ => _ end)
      with (list_ascii_of_string (string_of_list_ascii (c :: l))) by now destruct ty.
    rewrite list_string_inverse. cbn [app].
    apply tokenizeFrom_scanned; [apply Hscan | exact Hrest]. }
  destruct t as [ty s]. unfold lexical in H. cbn [type text] in *.
  destruct ty; try discriminate.
  - (* identifier *)
    apply andb_prop in H as [Hs Hr]. apply name; [trivial | | discriminate].
    unfold isReserved in Hr. apply negb_true_iff in Hr.
    apply orb_false_elim in Hr as [Hr Hnull]. unfold keyword. now rewrite Hr, Hnull.
  - (* number *)
    rewrite <- (string_of_list_ascii_of_string s) in *.
    rewrite list_string_inverse in H.
    destruct (list_ascii_of_string s) as [ | c l]; [discriminate | ].
    apply andb_prop in H as [Hc Hl].
    apply fixed; [discriminate | ]. intros r j. now apply scan_number.
  - (* string *)
    unfold lexeme. cbn [type text]. cbn [app].
    rewrite <- (string_of_list_ascii_of_string s) at 2.
    apply tokenizeFrom_scanned; [apply scan_string | exact Hrest].
  - (* boolean *)
    apply orb_prop in H as [H | H]; apply String.eqb_eq in H; subst s;
      now apply name.
  - (* null *)
    apply String.eqb_eq in H. subst s. now apply name.
  - (* operator *)
    unfold operatorTexts in H. cbn [existsb] in H.
    repeat (apply orb_prop in H as [H | H]); try discriminate;
      apply String.eqb_eq in H; subst s;
      match goal with
      | |- context [mkToken Toperator ?s] =>
          let l := eval cbv in (list_ascii_of_string s) in
          match l with
          | ?c :: ?l' =>
              apply (fixed Toperator c l'); [discriminate | intros r j; reflexivity]
          end
      end.
  - apply String.eqb_eq in H. subst s.
    apply (fixed Tdot "."%char []); [discriminate | intros r j; reflexivity].
  - apply String.eqb_eq in H. subst s.
    apply (fixed Tlparen "("%char []); [discriminate | intros r j; reflexivity].
  - apply String.eqb_eq in H. subst s.
    apply (fixed Trparen ")"%char []); [discriminate | intros r j; reflexivity].
  - apply String.eqb_eq in H. subst s.
    apply (fixed Tlbracket "["%char []); [discriminate | intros r j; reflexivity].
  - apply String.eqb_eq in H. subst s.
    apply (fixed Trbracket "]"%char []); [discriminate | intros r j; reflexivity].
  - apply String.eqb_eq in H. subst s.
    apply (fixed Tcomma ","%char []); [discriminate | intros r j; reflexivity].
Qed.

Lemma tokenizeFrom_show (ts : list Token) : forall i : nat,
  forallb writable ts = true ->
  tokenizeFrom (flat_map (fun t => (lexeme t ++ [" "%char])%list) ts) i 0
    = Ok (ts ++ [eofToken])%list.
Proof.
  induction ts as [ | t ts IH]; intros i H; [reflexivity | ].
  cbn [forallb] in H. apply andb_prop in H as [Ht Hts].
  cbn [flat_map]. rewrite <- app_assoc. cbn [app].
  apply tokenizeFrom_lexeme; [exact Ht | ]. intros j. now apply IH.
Qed.

(** X11: the lexer reads back every list of tokens it can produce: written
    out with a space after each token -- a string between single quotes
    with its quotes and backslashes escaped, every other token as its
    text -- tokens whose texts are of the lexical class of their types
    come back as they are, followed by [eof]. *)
Theorem tokenize_showTokens (ts : list Token) :
  forallb writable ts = true ->
  tokenize (showTokens ts) = Ok (ts ++ [eofToken])%list.
Proof.
  intros H. unfold tokenize, showTokens.
  rewrite list_string_inverse. now apply tokenizeFrom_show.
Qed.

Lemma tokenize_showTokens_witness :
  tokenize "a >= 1.5 && 'it\'s' " =
    Ok [mkToken Tidentifier "a"; mkToken Toperator ">="; mkToken Tnumber "1.5";
        mkToken Toperator "&&"; mkToken Tstring "it's"; eofToken].
Proof.
  apply (tokenize_showTokens
           [mkToken Tidentifier "a"; mkToken Toperator ">="; mkToken Tnumber "1.5";
            mkToken Toperator "&&"; mkToken Tstring "it's"]).
  reflexivity.
Defined.

(** X12: a tree written out as a source compiles to itself: for a tree
    that respects the precedence of the grammar, whose number literals
    are read back from their text and whose tokens are of the lexical
    class of their types (names that are no reserved words, numbers
    written with digits and a decimal point only), [compileExpression]
    on the text of the tree parses that very tree. *)
Theorem compile_show (ast : AstNode) :
  grammatical ast = true -> printable ast ->
  forallb writable (unparse ast) = true ->
  compile (show ast) = Ok ast.
Proof.
  intros Hg Hp Hw. unfold compile, show, tokenize, showTokens.
  rewrite list_string_inverse, (tokenizeFrom_show _ 0 Hw). cbn [bind].
  unfold Parser.parse. now rewrite (ParserRoundTrip.parseM_unparse ast Hg Hp).
Qed.

Lemma compile_show_witness :
  compile
    "element . tag === 'a' || ! ( [ 1 , 2 ] . includes ( x , y ) ) && ( a < b ) != null "
  = Ok sampleTree.
Proof.
  apply (compile_show sampleTree); [reflexivity | | reflexivity].
  vm_compute. repeat split.
Defined.


(** ** What an evaluation depends on *)

Lemma identifier_ownValue (c : Context) (name : string) :
  evaluateNode (identifier name) c =
    match ownValue c name with
    | Some v => Ok v
    | None => Err (notAllowed name)
    end.
Proof.
  unfold ownValue. simpl. now destruct (JS.lookup (own c) name).
Qed.

Lemma evaluate_frame (c1 c2 : Context) (node : AstNode) :
  (forall name, In name (identifiers node) -> ownValue c1 name = ownValue c2 name) ->
  evaluateNode node c1 = evaluateNode node c2.
Proof.
  induction node as
    [ v | name | object property IH | elements IH | object method args IHo IHa
    | operator lhs rhs IHl IHr | operator operand IH | expression IH ]
    using AstNode_nested_ind; intros Hsame.
  - reflexivity.
  - rewrite !identifier_ownValue, (Hsame name); [reflexivity | now left].
  - simpl. now rewrite (IH Hsame).
  - simpl. f_equal.
    induction IH as [ | el rest Hel _ IHrest]; [reflexivity | ].
    simpl in Hsame. rewrite Hel, IHrest; [reflexivity | | ];
      intros name Hin; apply Hsame, in_or_app; auto.
  - simpl in Hsame. simpl. rewrite IHo by (intros; apply Hsame, in_or_app; auto).
    destruct args as [ | arg0 more]; [reflexivity | ].
    inversion IHa as [ | ? ? Harg0 _]; subst.
    rewrite Harg0; [reflexivity | ].
    intros name Hin. apply Hsame, in_or_app. right. simpl. apply in_or_app. auto.
  - simpl in Hsame. simpl.
    rewrite IHl by (intros; apply Hsame, in_or_app; auto).
    rewrite IHr by (intros; apply Hsame, in_or_app; auto). reflexivity.
  - simpl. now rewrite (IH Hsame).
  - simpl. now apply IH.
Qed.

(** X14: an evaluation depends on the context only through the values of
    the own properties the expression names: two contexts that agree on
    them give the same result, value or error.  So nothing a context
    inherits, no attribute of its properties and none of its other
    properties can change a result, and an expression that names nothing
    has one result in every context. *)
Theorem evaluation_reads_named_own_properties (c1 c2 : Context) (node : AstNode) :
  (forall name, In name (identifiers node) -> ownValue c1 name = ownValue c2 name) ->
  evaluateNode node c1 = evaluateNode node c2 /\
  (forall protos, evaluateNode node (mkObject (own c1) protos) = evaluateNode node c1) /\
  (identifiers node = [] -> forall c, evaluateNode node c = evaluateNode node c1).
Proof.
  intros Hsame. split; [now apply evaluate_frame | ]. split.
  - intros protos. now apply evaluate_frame.
  - intros Hclosed c. apply evaluate_frame. rewrite Hclosed. intros name [].
Qed.

Lemma evaluation_reads_named_own_properties_witness :
  evaluateNode (binaryOp "===" (memberAccess (identifier "element") "tag")
                               (literal (LString "button"))) bareContext
  = evaluateNode (binaryOp "===" (memberAccess (identifier "element") "tag")
                                 (literal (LString "button"))) crowdedContext.
Proof.
  refine (proj1 (evaluation_reads_named_own_properties bareContext crowdedContext _ _)).
  simpl. intros name [<- | []]. reflexivity.
Defined.

(** ** Array literals *)

Lemma arrayLiteral_map (c : Context) (elements : list AstNode) (values : list value) :
  Forall2 (fun el v => evaluateNode el c = Ok v) elements values ->
  evaluateNode (arrayLiteral elements) c = Ok (VArray Fresh values).
Proof.
  intros H. simpl.
  induction H as [ | el v els vs Hel _ IH]; [reflexivity | ].
  rewrite Hel. simpl.
  match goal with
  | H : bind ?m _ = _ |- context [bind ?m' _] =>
      change m' with m; destruct m as [vs' | e]; [ | discriminate]
  end.
  simpl in *. now injection IH as ->.
Qed.

Lemma arrayLiteral_failure (c : Context) (before : list AstNode)
  (values : list value) (failing : AstNode) (e : error) (after : list AstNode) :
  Forall2 (fun el v => evaluateNode el c = Ok v) before values ->
  evaluateNode failing c = Err e ->
  evaluateNode (arrayLiteral (before ++ failing :: after)) c = Err e.
Proof.
  intros H Hfail. simpl.
  induction H as [ | el v els vs Hel Htail IH]; simpl.
  - now rewrite Hfail.
  - rewrite Hel. simpl.
    match type of IH with
    | bind ?m _ = _ => destruct m as [vs' | e']; [discriminate | ]
    end.
    simpl in *. exact IH.
Qed.

(** X15: an array literal evaluates its elements in order into a new array
    of as many values, whose [length] is their number; the first element
    that fails makes the literal fail with that error, the elements after
    it not being evaluated. *)
Theorem arrayLiteral_elements (c : Context) (before : list AstNode)
  (values : list value) :
  Forall2 (fun el v => evaluateNode el c = Ok v) before values ->
  evaluateNode (arrayLiteral before) c = Ok (VObj Fresh (ArrayObject values)) /\
  evaluateNode (memberAccess (arrayLiteral before) "length") c
    = Ok (VNum (Num.of_nat (List.length before))) /\
  (forall failing e after,
     evaluateNode failing c = Err e ->
     evaluateNode (arrayLiteral (before ++ failing :: after)) c = Err e).
Proof.
  intros H. pose proof (arrayLiteral_map c before values H) as Harr.
  split; [exact Harr | ]. split.
  - change (evaluateNode (memberAccess (arrayLiteral before) "length") c)
      with (obj <- evaluateNode (arrayLiteral before) c ;;
            match obj with
            | VObj _ o =>
                if negb (JS.hasOwn o "length") then Err (notAllowed "length")
                else Ok (JS.Get o "length")
            | _ => Ok VUndefined
            end).
    rewrite Harr. simpl. now rewrite (Forall2_length H).
  - intros failing e after Hfail. now apply arrayLiteral_failure with values.
Qed.

Lemma arrayLiteral_elements_witness :
  evaluateNode (arrayLiteral [literal (LString "a"); identifier "element"]) bareContext
    = Ok (VObj Fresh (ArrayObject
            [VStr "a"; VObject (Ref 1) [("tag", VStr "button")]])) /\
  evaluateNode (memberAccess (arrayLiteral [literal (LString "a"); identifier "element"])
                  "length") bareContext = Ok (VNum (Num.of_nat 2)) /\
  evaluateNode (arrayLiteral [literal (LString "a"); identifier "element";
                              identifier "window"; identifier "document"]) bareContext
    = Err (notAllowed "window").
Proof.
  destruct (arrayLiteral_elements bareContext
              [literal (LString "a"); identifier "element"]
              [VStr "a"; VObject (Ref 1) [("tag", VStr "button")]])
    as (H1 & H2 & H3).
  { repeat constructor. }
  split; [exact H1 | ]. split; [exact H2 | ].
  apply (H3 (identifier "window") (notAllowed "window") [identifier "document"]).
  reflexivity.
Defined.

(** ** Operators *)

(** X16: [l !== r] is [!(l === r)] and [l != r] is [!(l == r)], as values
    and as failures. *)
Theorem inequality_is_negated_equality (c : Context) (l r : AstNode) :
  evaluateNode (binaryOp "!==" l r) c
    = evaluateNode (unaryOp "!" (binaryOp "===" l r)) c /\
  evaluateNode (binaryOp "!=" l r) c
    = evaluateNode (unaryOp "!" (binaryOp "==" l r)) c.
Proof.
  split; simpl;
    destruct (evaluateNode l c) as [x | e]; simpl; try reflexivity;
    destruct (evaluateNode r c) as [y | e]; simpl; try reflexivity.
  unfold applyBinary. simpl.
  now destruct (JS.IsLooselyEqual x y).
Qed.

Lemma comparison_boolean (c : Context) (operator : string) (l r : AstNode) (v : value) :
  In operator comparisonOperators ->
  evaluateNode (binaryOp operator l r) c = Ok v -> isBoolean v = true.
Proof.
  intros Hop.
  assert (Happly : forall x y, applyBinary operator x y = Ok v -> isBoolean v = true).
  { intros x y. unfold applyBinary.
    repeat match goal with
           | |- context [if ?b then _ else _] => destruct b
           end;
      try (intros [= <-]; reflexivity);
      try (intros H; apply bind_Ok in H as (b & _ & [= <-]); reflexivity). }
  simpl in Hop.
  repeat (destruct Hop as [<- | Hop]; [simpl;
    destruct (evaluateNode l c) as [x | e]; simpl; [ | discriminate];
    destruct (evaluateNode r c) as [y | e]; simpl; [ | discriminate];
    apply Happly | ]).
  destruct Hop.
Qed.

(** X17: whatever a comparison ([===], [!==], [==], [!=], [>], [<], [>=],
    [<=]), a negation or a method call returns is a boolean. *)
Theorem boolean_results (c : Context) (v : value) :
  (forall operator l r, In operator comparisonOperators ->
     evaluateNode (binaryOp operator l r) c = Ok v -> isBoolean v = true) /\
  (forall operator operand,
     evaluateNode (unaryOp operator operand) c = Ok v -> isBoolean v = true) /\
  (forall object method args,
     evaluateNode (methodCall object method args) c = Ok v -> isBoolean v = true).
Proof.
  split; [intros operator l r; apply comparison_boolean | ]. split.
  - intros operator operand. simpl.
    destruct (evaluateNode operand c) as [x | e]; simpl; [ | discriminate].
    destruct (String.eqb operator "!"); [ | discriminate]. now intros [= <-].
  - intros object method args. simpl.
    destruct (evaluateNode object c) as [obj | e]; simpl; [ | discriminate].
    destruct (String.eqb method "includes"); [ | discriminate].
    destruct obj as [ | | | | | ref [items | o]]; try discriminate.
    intros H. apply bind_Ok in H as (arg & _ & [= <-]). reflexivity.
Qed.

Lemma boolean_results_witness :
  evaluateNode (binaryOp ">" (literal (LString "10")) (literal (LString "9")))
    emptyContext = Ok (VBool false) /\
  isBoolean (VBool false) = true.
Proof.
  split; [reflexivity | ].
  destruct (boolean_results emptyContext (VBool false)) as (H & _ & _).
  apply (H ">" (literal (LString "10")) (literal (LString "9"))); [ | reflexivity].
  simpl. tauto.
Defined.

Lemma comparable_order (operator : string) (px py : value) :
  comparable px py = false ->
  match px, py with
  | VStr a, VStr b => stringOrder operator a b
  | _, _ => numericOrder operator (JS.ToNumber px) (JS.ToNumber py)
  end = false.
Proof.
  unfold comparable, numericOrder. intros H.
  assert (Hnum : forall x y, negb (Num.isNaN x || Num.isNaN y) = false ->
            (if String.eqb operator ">" then Num.ltb y x
             else if String.eqb operator "<" then Num.ltb x y
             else if String.eqb operator ">=" then Num.leb y x
             else Num.leb x y) = false).
  { intros x y E. apply negb_false_iff in E.
    destruct (order_NaN x y E) as [-> ->].
    rewrite orb_comm in E. destruct (order_NaN y x E) as [-> ->].
    now repeat destruct (String.eqb _ _). }
  destruct px, py; try discriminate; now apply Hnum.
Qed.

Lemma comparable_dual (px py : value) :
  comparable px py = true ->
  match px, py with
  | VStr a, VStr b => stringOrder "<=" a b
  | _, _ => numericOrder "<=" (JS.ToNumber px) (JS.ToNumber py)
  end
  = negb match px, py with
         | VStr a, VStr b => stringOrder ">" a b
         | _, _ => numericOrder ">" (JS.ToNumber px) (JS.ToNumber py)
         end.
Proof.
  unfold comparable, numericOrder, stringOrder. simpl.
  assert (Hnum : forall x y, negb (Num.isNaN x || Num.isNaN y) = true ->
            Num.leb x y = negb (Num.ltb y x)).
  { intros x y E. apply negb_true_iff, orb_false_elim in E as [Ex Ey].
    now rewrite negb_ltb_leb. }
  destruct px, py; intros H; try (now apply Hnum).
  now rewrite negb_string_ltb_leb.
Qed.

(** X18: with the operands converted to primitives: when they can be
    ordered -- two strings, or neither converts to [NaN] -- [l <= r] is
    [!(l > r)]; when they cannot, [l > r], [l < r], [l >= r] and [l <= r]
    are all [false]. *)
Theorem relational_duality (c : Context) (l r : AstNode) (x y px py : value) :
  evaluateNode l c = Ok x ->
  evaluateNode r c = Ok y ->
  JS.ToPrimitive x = Ok px ->
  JS.ToPrimitive y = Ok py ->
  (comparable px py = true ->
     evaluateNode (binaryOp "<=" l r) c
       = evaluateNode (unaryOp "!" (binaryOp ">" l r)) c) /\
  (comparable px py = false ->
     forall operator, In operator relationalOperators ->
       evaluateNode (binaryOp operator l r) c = Ok (VBool false)).
Proof.
  intros El Er Hx Hy.
  assert (Hrel : forall operator, In operator relationalOperators ->
            evaluateNode (binaryOp operator l r) c =
              Ok (VBool match px, py with
                        | VStr a, VStr b => stringOrder operator a b
                        | _, _ => numericOrder operator (JS.ToNumber px) (JS.ToNumber py)
                        end)).
  { intros operator Hop. rewrite <- (primitive_order operator px py Hop).
    simpl in Hop.
    destruct Hop as [<- | [<- | [<- | [<- | []]]]]; simpl; rewrite El, Er; simpl;
      unfold applyBinary; simpl;
      unfold JS.greaterThan, JS.lessThan, JS.greaterThanOrEqual, JS.lessThanOrEqual;
      rewrite Hx, Hy; reflexivity. }
  split.
  - intros Hc.
    change (evaluateNode (unaryOp "!" (binaryOp ">" l r)) c)
      with (v <- evaluateNode (binaryOp ">" l r) c ;;
            Ok (VBool (negb (JS.ToBoolean v)))).
    rewrite (Hrel "<="), (Hrel ">") by (simpl; tauto). simpl.
    now rewrite (comparable_dual px py Hc).
  - intros Hc operator Hop. rewrite (Hrel operator Hop).
    now rewrite (comparable_order operator px py Hc).
Qed.

Lemma relational_duality_witness :
  evaluateNode (binaryOp "<=" (literal (LNumber (Num.of_Z 2))) (literal (LString "10")))
    emptyContext
  = evaluateNode (unaryOp "!" (binaryOp ">" (literal (LNumber (Num.of_Z 2)))
                                           (literal (LString "10")))) emptyContext /\
  evaluateNode (binaryOp ">=" (memberAccess (literal (LString "x")) "size")
                              (literal (LNumber Num.zero))) emptyContext
  = Ok (VBool false).
Proof.
  split.
  - apply (relational_duality emptyContext (literal (LNumber (Num.of_Z 2)))
             (literal (LString "10")) (VNum (Num.of_Z 2)) (VStr "10")
             (VNum (Num.of_Z 2)) (VStr "10")); reflexivity.
  - destruct (relational_duality emptyContext
                (memberAccess (literal (LString "x")) "size")
                (literal (LNumber Num.zero)) VUndefined (VNum Num.zero)
                VUndefined (VNum Num.zero) eq_refl eq_refl eq_refl eq_refl)
      as [_ H].
    apply H; [reflexivity | simpl; tauto].
Defined.

(** A context whose values convert, and an expression whose calls have
    their argument. *)
Lemma compiled_valueOrSecurity_witness :
  valueOrSecurity
    (evaluateNode (methodCall (arrayLiteral [literal (LString "a")]) "includes"
                     [memberAccess (identifier "element") "tag"]) tagContext).
Proof.
  apply (compiled_valueOrSecurity "['a'].includes(element.tag)"); reflexivity.
Defined.
